(** * jsonsplit: a shallow embedding of [jsonsplit.go]

    The development follows the source file top to bottom:

    - machine integers and IEEE-754 binary32 values as the Go code sees them;
    - [CallMode] and the packed [callModeRatio] word;
    - [SizeHistogram];
    - the option bisection [autoDetectOptions];
    - [Codec.Marshal] and [Codec.Unmarshal] over an explicit world
      (heap of decode targets, metrics, log of calls to collaborators).

    The two JSON engines and the flags of [jsonv1.DefaultOptionsV1] belong
    to other packages: they are type classes here.  The clone hook, the
    equality hooks and the difference sink are fields of [Codec]. *)

From Stdlib Require Import ZArith Lia Bool List.
From Stdlib Require Import Floats.SpecFloat.
From stdpp Require Import base option list gmap strings sorting relations.
From stdpp Require Import pretty.

Local Open Scope Z_scope.

(** ** Machine integers *)

(** Go's [uint64(x)] conversion and arithmetic on [uint64] wrap modulo 2^64. *)
Definition uint64 (x : Z) : Z := x mod 2 ^ 64.

(** [uint32(x)] truncates to the low 32 bits. *)
Definition uint32 (x : Z) : Z := x mod 2 ^ 32.

(** [x << n] on a [uint64]. *)
Definition shl64 (x n : Z) : Z := uint64 (Z.shiftl x n).

(** [expvar.Int.Add] is an [int64] addition: it wraps in two's complement. *)
Definition int64_add (a b : Z) : Z := (a + b + 2 ^ 63) mod 2 ^ 64 - 2 ^ 63.

Definition int_range (n : Z) : Prop := - 2 ^ 63 <= n < 2 ^ 63.


(** ** IEEE-754 binary32

    A [float32] is carried as its raw bit pattern, which is what
    [math.Float32bits] and [math.Float32frombits] expose (both are
    reinterpretations of the same 32 bits).  Its meaning is given by
    decoding sign, biased exponent and fraction into the Standard Library's
    [spec_float], whose comparison is the IEEE one. *)

Definition float32 := Z.

Definition float32_wf (f : float32) : Prop := 0 <= f < 2 ^ 32.

Definition Float32bits (f : float32) : Z := f.
Definition Float32frombits (b : Z) : float32 := b.

Definition f32_sign (b : float32) : bool := Z.testbit b 31.
Definition f32_exp (b : float32) : Z := Z.land (Z.shiftr b 23) 255.
Definition f32_frac (b : float32) : Z := Z.land b (Z.ones 23).

Definition f32_decode (b : float32) : spec_float :=
  let s := f32_sign b in
  let e := f32_exp b in
  let m := f32_frac b in
  if e =? 0 then
    match m with
    | Zpos p => S754_finite s p (-149)
    | _ => S754_zero s
    end
  else if e =? 255 then
    (if m =? 0 then S754_infinity s else S754_nan)
  else
    match m + 2 ^ 23 with
    | Zpos p => S754_finite s p (e - 150)
    | _ => S754_nan
    end.

(** What [f32_decode] produces for a finite non-zero value: a subnormal
    or a normal mantissa with its exponent. *)
Definition canonical32 (m : positive) (e : Z) : Prop :=
  (e = -149 /\ Zpos m < 2 ^ 23) \/
  (-149 <= e <= 104 /\ 2 ^ 23 <= Zpos m < 2 ^ 24).

(** The real number a finite binary32 denotes, in units of 2^-149 (the
    smallest subnormal), so that it is an integer.  Infinities and NaN
    denote no real number. *)
Definition SF2scaled (x : spec_float) : option Z :=
  match x with
  | S754_zero _ => Some 0
  | S754_finite s m e => Some ((if s then -1 else 1) * Zpos m * 2 ^ (e + 149))
  | S754_infinity _ | S754_nan => None
  end.

Definition f32_scaled (b : float32) : option Z := SF2scaled (f32_decode b).

(** One, in units of 2^-149. *)
Definition scaled_one : Z := 2 ^ 149.

(** [0 <= f <= 1] as real numbers; NaN and the infinities are outside. *)
Definition f32_in_unit (f : float32) : Prop :=
  exists k, f32_scaled f = Some k /\ 0 <= k <= scaled_one.

(** [0 <= f < 1], the range of [rand.Float32]. *)
Definition f32_in_unit_open (f : float32) : Prop :=
  exists k, f32_scaled f = Some k /\ 0 <= k < scaled_one.

(** Go's comparison operators on [float32]. *)
Definition f32_eq (x y : float32) : bool := SFeqb (f32_decode x) (f32_decode y).
Definition f32_ne (x y : float32) : bool := negb (f32_eq x y).
Definition f32_lt (x y : float32) : bool := SFltb (f32_decode x) (f32_decode y).
Definition f32_ge (x y : float32) : bool := SFleb (f32_decode y) (f32_decode x).

Definition f32_isNaN (x : float32) : bool :=
  match f32_decode x with S754_nan => true | _ => false end.

(** The constants [0] and [1] of the source, as [float32]. *)
Definition f32_zero : float32 := 0.
Definition f32_one : float32 := 0x3f800000.

(** The built-ins [max] and [min] on floats: a NaN argument gives NaN, and
    negative zero is lower than positive zero (Go specification, "Min and
    max"). *)
Definition go_max32 (x y : float32) : float32 :=
  if f32_isNaN x then x
  else if f32_isNaN y then y
  else if f32_lt x y then y
  else if f32_lt y x then x
  else if f32_sign x then y else x.

Definition go_min32 (x y : float32) : float32 :=
  if f32_isNaN x then x
  else if f32_isNaN y then y
  else if f32_lt x y then x
  else if f32_lt y x then y
  else if f32_sign x then x else y.

(** ** CallMode *)

(** [type CallMode int] *)
Definition CallMode := Z.

Definition OnlyCallV1 : CallMode := 0.
Definition CallV1ButUponErrorReturnV2 : CallMode := 1.
Definition CallBothButReturnV1 : CallMode := 2.
Definition CallBothButReturnV2 : CallMode := 3.
Definition CallV2ButUponErrorReturnV1 : CallMode := 4.
Definition OnlyCallV2 : CallMode := 5.
Definition maxCallMode : CallMode := 6.

(** The six declared modes. *)
Definition callModes : list CallMode :=
  [OnlyCallV1; CallV1ButUponErrorReturnV2; CallBothButReturnV1;
   CallBothButReturnV2; CallV2ButUponErrorReturnV1; OnlyCallV2].

(** A panic is [None]. *)
Definition checkValid (m : CallMode) : option unit :=
  if (m <? 0) || (m >=? maxCallMode) then None else Some tt.

(** ** callModeRatio *)

(** [struct { atomic.Uint64 }]: [0:16) is mode1, [16:32) is mode2 and
    [32:] is the ratio as raw float32. *)
Record callModeRatio := { Uint64 : Z }.

(** [atomic.Uint64.Store] and [atomic.Uint64.Load]. *)
Definition Store (p : callModeRatio) (u : Z) : callModeRatio := {| Uint64 := u |}.
Definition Load (p : callModeRatio) : Z := Uint64 p.

(** The word [storeModeRatio] builds. *)
Definition packModeRatio (mode1 mode2 : CallMode) (ratio : float32) : Z :=
  Z.lor (Z.lor (Z.lor 0
    (shl64 (uint64 (Z.land mode1 0xffff)) 0))
    (shl64 (uint64 (Z.land mode2 0xffff)) 16))
    (shl64 (uint64 (Float32bits ratio)) 32).

Definition storeModeRatio (p : callModeRatio) (mode1 mode2 : CallMode)
    (ratio : float32) : option callModeRatio :=
  _ ← checkValid mode1;
  _ ← checkValid mode2;
  if f32_ne ratio (go_min32 (go_max32 f32_zero ratio) f32_one) then None
  else Some (Store p (packModeRatio mode1 mode2 ratio)).

Definition unpackModeRatio (u : Z) : CallMode * CallMode * float32 :=
  let mode1 := Z.land (Z.shiftr u 0) 0xffff in
  let mode2 := Z.land (Z.shiftr u 16) 0xffff in
  let ratio := Float32frombits (uint32 (Z.shiftr u 32)) in
  (mode1, mode2, ratio).

Definition loadModeRatio (p : callModeRatio) : CallMode * CallMode * float32 :=
  unpackModeRatio (Load p).

(** [loadRandomMode]; [r] is the value [rand.Float32()] returns. *)
Definition loadRandomMode (p : callModeRatio) (r : float32) : CallMode :=
  let '(mode1, mode2, ratio) := loadModeRatio p in
  if f32_lt ratio f32_one && f32_ge r ratio then mode1 else mode2.

(** ** SizeHistogram *)

(** [bits.UintSize] on the 64-bit platforms the package targets. *)
Definition UintSize : Z := 64.

(** [bits.Len(x)]: the minimum number of bits required to represent [x];
    0 for [x = 0].  One bit is dropped per step until nothing is left. *)
Fixpoint bits_Len_fuel (fuel : nat) (x : Z) : Z :=
  match fuel with
  | O => 0
  | S fuel' => if x =? 0 then 0 else 1 + bits_Len_fuel fuel' (Z.shiftr x 1)
  end.

Definition bits_Len (x : Z) : Z := bits_Len_fuel (Z.to_nat UintSize) x.

(** [type SizeHistogram [bits.UintSize + 1]expvar.Int] *)
Abbreviation SizeHistogram := (list Z).

Definition SizeHistogram_wf (h : SizeHistogram) : Prop :=
  length h = Z.to_nat (UintSize + 1).

Definition SizeHistogram_zero : SizeHistogram :=
  replicate (Z.to_nat (UintSize + 1)) 0.

(** The bucket [insertSize] selects: [bits.Len(uint(max(n, 0)))]. *)
Definition sizeBucket (n : Z) : nat :=
  Z.to_nat (bits_Len (uint64 (Z.max n 0))).

(** [h[i].Add(1)]; indexing past the array panics. *)
Definition insertSize (h : SizeHistogram) (n : Z) : option SizeHistogram :=
  let i := sizeBucket n in
  c ← h !! i;
  Some (<[i := int64_add c 1]> h).

(** ** Options *)

(** [jsonv2.Options] carries boolean flags by name.  Three shapes are told
    apart because the source does: the nil interface, the one value
    [jsonv1.DefaultOptionsV1()] returns (a pointer to a package-level
    variable, recognised by [==] in [jsonv1Marshal]), and any other set of
    flags. *)
Inductive Options :=
  | NilOptions
  | DefaultOptionsV1
  | OptionsStruct (flags : gmap string bool).

#[global] Instance Options_eq_dec : EqDecision Options.
Proof. solve_decision. Defined.

(** The flags [jsonv1.DefaultOptionsV1()] sets belong to the json module,
    not to this package. *)
Class V1Defaults := { DefaultV1Flags : gmap string bool }.

Section OptionsOps.
Context `{V1Defaults}.

Definition flagsOf (o : Options) : gmap string bool :=
  match o with
  | NilOptions => ∅
  | DefaultOptionsV1 => DefaultV1Flags
  | OptionsStruct m => m
  end.

(** [jsonv2.JoinOptions]: properties set in later options override those
    set earlier. *)
Definition JoinOptions (srcs : list Options) : Options :=
  OptionsStruct (foldl (λ acc o, flagsOf o ∪ acc) ∅ srcs).

(** [jsonv2.GetOption(opts, setter)]: the value and whether it is set.
    A setter is named by the flag it sets. *)
Definition GetOption (opts : Options) (setter : string) : bool * bool :=
  match flagsOf opts !! setter with
  | Some b => (b, true)
  | None => (false, false)
  end.
End OptionsOps.

(** [option(b)] for a setter [option] of [defaultOptionsV1]. *)
Definition applySetter (setter : string) (b : bool) : Options :=
  OptionsStruct {[ setter := b ]}.

(** The keys of the [defaultOptionsV1] map; each stands for the setter
    stored under it. *)
Definition defaultOptionsV1 : list string :=
  [ "jsontext.AllowDuplicateNames";
    "jsontext.AllowInvalidUTF8";
    "jsontext.EscapeForHTML";
    "jsontext.EscapeForJS";
    "jsontext.PreserveRawStrings";
    "jsonv1.CallMethodsWithLegacySemantics";
    "jsonv1.FormatByteArrayAsArray";
    "jsonv1.FormatBytesWithLegacySemantics";
    "jsonv1.FormatDurationAsNano";
    "jsonv1.MatchCaseSensitiveDelimiter";
    "jsonv1.MergeWithLegacySemantics";
    "jsonv1.OmitEmptyWithLegacySemantics";
    "jsonv1.ParseBytesWithLooseRFC4648";
    "jsonv1.ParseTimeWithLooseRFC3339";
    "jsonv1.ReportErrorsWithLegacySemantics";
    "jsonv1.StringifyWithLegacySemantics";
    "jsonv1.UnmarshalArrayFromAnyLength";
    "jsonv2.Deterministic";
    "jsonv2.FormatNilMapAsNull";
    "jsonv2.FormatNilSliceAsNull";
    "jsonv2.MatchCaseInsensitiveNames" ]%string.

(** [slices.Sort] of the keys. *)
Definition sortedOptionNames : list string :=
  merge_sort (λ a b : string, Is_true (String.leb a b)) defaultOptionsV1.

(** ** A state monad with panics

    [None] is a panic; otherwise a result and the next state. *)
Definition ST (S A : Type) : Type := S → option (A * S).

Definition ret {S A} (a : A) : ST S A := λ s, Some (a, s).

Definition bind {S A B} (m : ST S A) (k : A → ST S B) : ST S B :=
  λ s, match m s with
       | Some (a, s') => k a s'
       | None => None
       end.

Definition panic {S A} : ST S A := λ _, None.
Definition gets {S A} (f : S → A) : ST S A := λ s, Some (f s, s).
Definition modify {S} (f : S → S) : ST S unit := λ s, Some (tt, f s).

Definition when {S} (b : bool) (m : ST S unit) : ST S unit :=
  if b then m else ret tt.

Declare Scope st_scope.
Delimit Scope st_scope with st.
Notation "x <- m ;; k" := (bind m (λ x, k))
  (at level 20, m at level 99, k at level 200, only parsing) : st_scope.
Notation "' p <- m ;; k" := (bind m (λ x, let 'p := x in k))
  (at level 20, p pattern, m at level 99, k at level 200, only parsing)
  : st_scope.
Notation "m ;; k" := (bind m (λ _, k))
  (at level 100, k at level 200, only parsing, right associativity) : st_scope.

(** [wp m Q s]: from [s], [m] returns without panic and its result and
    final state satisfy [Q]. *)
Definition wp {S A} (m : ST S A) (Q : A → S → Prop) (s : S) : Prop :=
  match m s with
  | Some (a, s') => Q a s'
  | None => False
  end.

(** The state [m] ends in from [s] (and [s] itself if [m] panics). *)
Definition exec {S A} (m : ST S A) (s : S) : S :=
  match m s with
  | Some (_, s') => s'
  | None => s
  end.

Fixpoint forM_ {S A} (l : list A) (f : A → ST S unit) : ST S unit :=
  match l with
  | [] => ret tt
  | x :: l' => bind (f x) (λ _, forM_ l' f)
  end.

(** ** autoDetectOptions *)

Section AutoDetect.
Context `{V1Defaults} {S : Type}.
Local Open Scope st_scope.

(** The loop over [defaultOptionsV1]; [opts] is the slice built so far. *)
Fixpoint autoDetectLoop (arshalEqual : list Options → ST S bool)
    (optsCall optsV1 : Options) (order : list string) (opts : list Options)
    : ST S (list Options) :=
  match order with
  | [] => ret opts
  | option :: rest =>
      if snd (GetOption optsCall option) then
        autoDetectLoop arshalEqual optsCall optsV1 rest opts
      else
        ok <- arshalEqual [optsV1; applySetter option false];;
        autoDetectLoop arshalEqual optsCall optsV1 rest
          (if negb ok then opts ++ [applySetter option true] else opts)
  end.

(** [order] is the order in which [range defaultOptionsV1] happens to
    visit the map on this call: some permutation of its keys. *)
Definition autoDetectOptions (arshalEqual : list Options → ST S bool)
    (order : list string) (o : list Options) : ST S Options :=
  let optsCall := JoinOptions o in
  let optsV1 := JoinOptions [DefaultOptionsV1; optsCall] in
  ok <- arshalEqual [optsV1];;
  if negb ok then ret NilOptions
  else
    opts <- autoDetectLoop arshalEqual optsCall optsV1 order [];;
    ret (JoinOptions opts).

(** [optionNames(opts)], collected. *)
Definition optionNames (opts : Options) : list string :=
  filter (λ name, (GetOption opts name).1 && (GetOption opts name).2 = true)
         sortedOptionNames.
(** Whether the loop keeps the option [name]. *)
Definition necessary (P : list Options → bool) (optsCall optsV1 : Options)
    (name : string) : bool :=
  negb (GetOption optsCall name).2 && negb (P [optsV1; applySetter name false]).

End AutoDetect.

(** ** Go values, as far as the package looks into them

    [Unmarshal] receives its target as an [any].  The package only asks
    whether it is a pointer, whether the pointer is nil, whether the variable
    it points to is zero, and copies that variable as a whole; so a variable
    holds an unanalysed value of type [V]. *)
Class GoValues := {
  V : Type;
  V_eq_dec :: EqDecision V;
  GoType : Type;
  GoType_eq_dec :: EqDecision GoType;
  typeOf : V → GoType;
  zeroValue : GoType → V;
  IsZero : V → bool;
}.

Definition loc := nat.
Definition bytes := string.
Definition len (b : bytes) : Z := Z.of_nat (String.length b).

(** [error]: nil or a message. *)
Definition error := option string.
Definition isErr (e : error) : bool :=
  match e with Some _ => true | None => false end.

Section Values.
Context `{GoValues}.

(** An interface value: nil, a pointer of type [*t] (possibly a nil
    pointer), or a value that is not a pointer. *)
Inductive any :=
  | Nil
  | Ptr (t : GoType) (p : option loc)
  | Val (x : V).

#[global] Instance any_eq_dec : EqDecision any.
Proof. solve_decision. Defined.

(** [v != nil] on an interface: a typed nil pointer is not nil. *)
Definition notNil (v : any) : bool :=
  match v with Nil => false | _ => true end.

(** [reflect.TypeOf]. *)
Inductive RType :=
  | TNil
  | TPointer (t : GoType)
  | TValue (t : GoType).

Definition reflect_TypeOf (v : any) : RType :=
  match v with
  | Nil => TNil
  | Ptr t _ => TPointer t
  | Val x => TValue (typeOf x)
  end.

(** The variables pointers point to, and the next address [new] gives. *)
Record Heap := { cells : gmap loc V; next : loc }.

(** [p.Elem()] read as a value. *)
Definition deref (h : Heap) (t : GoType) (l : loc) : V :=
  default (zeroValue t) (cells h !! l).

(** [p.Elem().Set(x)]. *)
Definition setCell (l : loc) (x : V) (h : Heap) : Heap :=
  {| cells := <[l := x]> (cells h); next := next h |}.

(** [reflect.New(t).Interface()]: a pointer to a new zero variable. *)
Definition reflect_New (t : GoType) (h : Heap) : any * Heap :=
  (Ptr t (Some (next h)),
   {| cells := <[next h := zeroValue t]> (cells h); next := S (next h) |}).

(** [isPointerToZero(reflect.ValueOf(v))]. *)
Definition isPointerToZero (v : any) (h : Heap) : bool :=
  match v with
  | Ptr t (Some l) => IsZero (deref h t l)
  | _ => false
  end.

(** [reflect.DeepEqual] on two interface values. *)
Definition reflect_DeepEqual (v1 v2 : any) (h : Heap) : bool :=
  match v1, v2 with
  | Nil, Nil => true
  | Ptr t1 p1, Ptr t2 p2 =>
      bool_decide (t1 = t2) &&
      match p1, p2 with
      | None, None => true
      | Some l1, Some l2 =>
          bool_decide (l1 = l2) ||
          bool_decide (deref h t1 l1 = deref h t2 l2)
      | _, _ => false
      end
  | Val x1, Val x2 => bool_decide (x1 = x2)
  | _, _ => false
  end.

(** [type Difference struct]. *)
Record Difference := {
  Caller : string;
  Func : string;
  DiffGoType : RType;
  JSONValue : bytes;
  JSONValueV1 : bytes;
  JSONValueV2 : bytes;
  GoValue : any;
  GoValueV1 : any;
  GoValueV2 : any;
  ErrorV1 : error;
  ErrorV2 : error;
  DiffOptions : Options;
}.

(** Calls that leave the package. *)
Inductive Event :=
  | CallV1stdMarshal (v : any)
  | CallV2Marshal (v : any) (o : list Options)
  | CallV1stdUnmarshal (b : bytes) (v : any)
  | CallV2Unmarshal (b : bytes) (v : any) (o : list Options)
  | CallCloneGoValue (v : any)
  | CallJsonEqual (b1 b2 : bytes)
  | CallGoEqual (v1 v2 : any)
  | CallErrorsEqual (e1 e2 : error)
  | CallReportDifference (d : Difference).

Definition isEngineCall (e : Event) : bool :=
  match e with
  | CallV1stdMarshal _ | CallV2Marshal _ _
  | CallV1stdUnmarshal _ _ | CallV2Unmarshal _ _ _ => true
  | _ => false
  end.


Definition isReport (e : Event) : bool :=
  match e with CallReportDifference _ => true | _ => false end.
End Values.

(** The two engines: [encoding/json] (v1std) and the experimental json
    module (v2, which also implements v1 behaviour under
    [jsonv1.DefaultOptionsV1]). *)
Class Engines `{GoValues} := {
  jsonv1std_Marshal : any → Heap → bytes * error;
  jsonv2_Marshal : any → list Options → Heap → bytes * error;
  jsonv1std_Unmarshal : bytes → any → Heap → error * Heap;
  jsonv2_Unmarshal : bytes → any → list Options → Heap → error * Heap;
}.

(** ** Codec *)

(** The [expvar.Int] fields of [CodecMetrics]. *)
Inductive Counter :=
  | NumMarshalTotal | NumMarshalErrors
  | NumMarshalOnlyCallV1 | NumMarshalOnlyCallV2 | NumMarshalCallBoth
  | NumMarshalReturnV1 | NumMarshalReturnV2 | NumMarshalDiffs
  | ExecTimeMarshalV1Nanos | ExecTimeMarshalV2Nanos
  | NumUnmarshalTotal | NumUnmarshalErrors | NumUnmarshalMerge
  | NumUnmarshalOnlyCallV1 | NumUnmarshalOnlyCallV2 | NumUnmarshalCallBoth
  | NumUnmarshalCallBothSkipped
  | NumUnmarshalReturnV1 | NumUnmarshalReturnV2 | NumUnmarshalDiffs
  | ExecTimeUnmarshalV1Nanos | ExecTimeUnmarshalV2Nanos.

#[global] Instance Counter_eq_dec : EqDecision Counter.
Proof. solve_decision. Defined.

(** [type CodecMetrics struct]; the [expvar.Int] fields are read through
    [ints], an [expvar.Map] is a map from keys to counts. *)
Record CodecMetrics := {
  ints : Counter → Z;
  MarshalSizeHistogram : SizeHistogram;
  MarshalCallerHistogram : gmap string Z;
  MarshalOptionHistogram : gmap string Z;
  UnmarshalSizeHistogram : SizeHistogram;
  UnmarshalCallerHistogram : gmap string Z;
  UnmarshalOptionHistogram : gmap string Z;
}.

(** [expvar.Int.Add] on one field. *)
Definition ints_Add (f : Counter → Z) (c : Counter) (d : Z) : Counter → Z :=
  λ c', if decide (c' = c) then int64_add (f c') d else f c'.

(** [expvar.Map.Add]: a missing key starts from zero. *)
Definition expvarMap_Add (m : gmap string Z) (key : string) (d : Z)
    : gmap string Z :=
  <[key := int64_add (default 0 (m !! key)) d]> m.

(** The histograms of one direction. *)
Inductive Direction := DirMarshal | DirUnmarshal.

(** The result of the inner [switch mode] of the dual path: an early
    [return], or both engines' results. *)
Inductive Dual (R B : Type) :=
  | Return (r : R)
  | RanBoth (b : B).
Arguments Return {R B} r.
Arguments RanBoth {R B} b.

Section CodecModel.
Context `{GoValues} `{!Engines} `{V1Defaults}.
Local Open Scope st_scope.

(** The exported fields of [Codec], set before use.  [ReportDifference]
    records whether a sink is registered; what the sink receives is
    logged as [CallReportDifference]. *)
Record Codec := {
  AutoDetectOptions : bool;
  ReportDifference : bool;
  EqualJSONValues : option (bytes → bytes → bool);
  EqualGoValues : option (any → any → Heap → bool);
  EqualErrors : option (error → error → bool);
  CloneGoValue : option (any → Heap → any * Heap);
}.

(** Everything a call can change: the variables behind pointers, the
    codec's two ratio words and metrics, and the log of outside calls
    (oldest first). *)
Record World := {
  heap : Heap;
  marshalCallRatio : callModeRatio;
  unmarshalCallRatio : callModeRatio;
  metrics : CodecMetrics;
  calls : list Event;
}.

(** What a call takes from its environment: the random draw, the call
    site [caller()] finds, the two measured durations, and the order in
    which [range defaultOptionsV1] visits the map. *)
Record Oracle := {
  rand_Float32 : float32;
  runtime_caller : string;
  elapsed_v1 : Z;
  elapsed_v2 : Z;
  rangeOrder : list string;
}.

Definition M := ST World.

Definition set_heap (h : Heap) (w : World) : World :=
  {| heap := h; marshalCallRatio := marshalCallRatio w;
     unmarshalCallRatio := unmarshalCallRatio w;
     metrics := metrics w; calls := calls w |}.

Definition set_metrics (m : CodecMetrics) (w : World) : World :=
  {| heap := heap w; marshalCallRatio := marshalCallRatio w;
     unmarshalCallRatio := unmarshalCallRatio w;
     metrics := m; calls := calls w |}.

Definition set_calls (l : list Event) (w : World) : World :=
  {| heap := heap w; marshalCallRatio := marshalCallRatio w;
     unmarshalCallRatio := unmarshalCallRatio w;
     metrics := metrics w; calls := l |}.

Definition set_marshalCallRatio (p : callModeRatio) (w : World) : World :=
  {| heap := heap w; marshalCallRatio := p;
     unmarshalCallRatio := unmarshalCallRatio w;
     metrics := metrics w; calls := calls w |}.

Definition set_unmarshalCallRatio (p : callModeRatio) (w : World) : World :=
  {| heap := heap w; marshalCallRatio := marshalCallRatio w;
     unmarshalCallRatio := p;
     metrics := metrics w; calls := calls w |}.

Definition set_ints (f : Counter → Z) (m : CodecMetrics) : CodecMetrics :=
  {| ints := f;
     MarshalSizeHistogram := MarshalSizeHistogram m;
     MarshalCallerHistogram := MarshalCallerHistogram m;
     MarshalOptionHistogram := MarshalOptionHistogram m;
     UnmarshalSizeHistogram := UnmarshalSizeHistogram m;
     UnmarshalCallerHistogram := UnmarshalCallerHistogram m;
     UnmarshalOptionHistogram := UnmarshalOptionHistogram m |}.

Definition sizeHistogram (d : Direction) (m : CodecMetrics) : SizeHistogram :=
  match d with
  | DirMarshal => MarshalSizeHistogram m
  | DirUnmarshal => UnmarshalSizeHistogram m
  end.

Definition set_sizeHistogram (d : Direction) (h : SizeHistogram)
    (m : CodecMetrics) : CodecMetrics :=
  {| ints := ints m;
     MarshalSizeHistogram :=
       match d with DirMarshal => h | _ => MarshalSizeHistogram m end;
     MarshalCallerHistogram := MarshalCallerHistogram m;
     MarshalOptionHistogram := MarshalOptionHistogram m;
     UnmarshalSizeHistogram :=
       match d with DirUnmarshal => h | _ => UnmarshalSizeHistogram m end;
     UnmarshalCallerHistogram := UnmarshalCallerHistogram m;
     UnmarshalOptionHistogram := UnmarshalOptionHistogram m |}.

Definition callerHistogram (d : Direction) (m : CodecMetrics) : gmap string Z :=
  match d with
  | DirMarshal => MarshalCallerHistogram m
  | DirUnmarshal => UnmarshalCallerHistogram m
  end.

Definition set_callerHistogram (d : Direction) (g : gmap string Z)
    (m : CodecMetrics) : CodecMetrics :=
  {| ints := ints m;
     MarshalSizeHistogram := MarshalSizeHistogram m;
     MarshalCallerHistogram :=
       match d with DirMarshal => g | _ => MarshalCallerHistogram m end;
     MarshalOptionHistogram := MarshalOptionHistogram m;
     UnmarshalSizeHistogram := UnmarshalSizeHistogram m;
     UnmarshalCallerHistogram :=
       match d with DirUnmarshal => g | _ => UnmarshalCallerHistogram m end;
     UnmarshalOptionHistogram := UnmarshalOptionHistogram m |}.

Definition optionHistogram (d : Direction) (m : CodecMetrics) : gmap string Z :=
  match d with
  | DirMarshal => MarshalOptionHistogram m
  | DirUnmarshal => UnmarshalOptionHistogram m
  end.

Definition set_optionHistogram (d : Direction) (g : gmap string Z)
    (m : CodecMetrics) : CodecMetrics :=
  {| ints := ints m;
     MarshalSizeHistogram := MarshalSizeHistogram m;
     MarshalCallerHistogram := MarshalCallerHistogram m;
     MarshalOptionHistogram :=
       match d with DirMarshal => g | _ => MarshalOptionHistogram m end;
     UnmarshalSizeHistogram := UnmarshalSizeHistogram m;
     UnmarshalCallerHistogram := UnmarshalCallerHistogram m;
     UnmarshalOptionHistogram :=
       match d with DirUnmarshal => g | _ => UnmarshalOptionHistogram m end |}.

(** [c.<counter>.Add(d)]. *)
Definition Add (c : Counter) (d : Z) : M unit :=
  modify (λ w, set_metrics (set_ints (ints_Add (ints (metrics w)) c d) (metrics w)) w).

(** [c.<Dir>CallerHistogram.Add(key, 1)] and the option histogram. *)
Definition CallerHistogram_Add (d : Direction) (key : string) : M unit :=
  modify (λ w, set_metrics
    (set_callerHistogram d (expvarMap_Add (callerHistogram d (metrics w)) key 1)
                         (metrics w)) w).

Definition OptionHistogram_Add (d : Direction) (key : string) : M unit :=
  modify (λ w, set_metrics
    (set_optionHistogram d (expvarMap_Add (optionHistogram d (metrics w)) key 1)
                         (metrics w)) w).

(** [c.<Dir>SizeHistogram.insertSize(n)]. *)
Definition SizeHistogram_insertSize (d : Direction) (n : Z) : M unit :=
  λ w, match insertSize (sizeHistogram d (metrics w)) n with
       | Some h => Some (tt, set_metrics (set_sizeHistogram d h (metrics w)) w)
       | None => None
       end.

Definition logCall (e : Event) : M unit :=
  modify (λ w, set_calls (calls w ++ [e]) w).

Definition readHeap {A} (f : Heap → A) : M A := gets (λ w, f (heap w)).

Definition withHeap {A} (f : Heap → A * Heap) : M A :=
  λ w, let '(a, h) := f (heap w) in Some (a, set_heap h w).

(** [SetMarshalCallMode(mode)] and [SetUnmarshalCallMode(mode)]:
    [storeModeRatio(mode, mode, 1.0)]. *)
Definition SetMarshalCallMode (mode : CallMode) : M unit :=
  λ w, match storeModeRatio (marshalCallRatio w) mode mode f32_one with
       | Some p => Some (tt, set_marshalCallRatio p w)
       | None => None
       end.

Definition SetUnmarshalCallMode (mode : CallMode) : M unit :=
  λ w, match storeModeRatio (unmarshalCallRatio w) mode mode f32_one with
       | Some p => Some (tt, set_unmarshalCallRatio p w)
       | None => None
       end.

(** The test [len(o) == 0 || (len(o) == 1 && o[0] == jsonv1.DefaultOptionsV1())]. *)
Definition onlyV1Defaults (o : list Options) : bool :=
  match o with
  | [] => true
  | [o0] => bool_decide (o0 = DefaultOptionsV1)
  | _ => false
  end.

(** [jsonv2.Marshal(v, o...)]. *)
Definition jsonv2Marshal (v : any) (o : list Options) : M (bytes * error) :=
  logCall (CallV2Marshal v o);;
  readHeap (jsonv2_Marshal v o).

Definition jsonv1Marshal (v : any) (o : list Options) : M (bytes * error) :=
  if onlyV1Defaults o then
    logCall (CallV1stdMarshal v);;
    readHeap (jsonv1std_Marshal v)
  else
    jsonv2Marshal v (DefaultOptionsV1 :: o).

(** [jsonv2.Unmarshal(b, v, o...)]. *)
Definition jsonv2Unmarshal (b : bytes) (v : any) (o : list Options) : M error :=
  logCall (CallV2Unmarshal b v o);;
  withHeap (jsonv2_Unmarshal b v o).

Definition jsonv1Unmarshal (b : bytes) (v : any) (o : list Options) : M error :=
  if onlyV1Defaults o then
    logCall (CallV1stdUnmarshal b v);;
    withHeap (jsonv1std_Unmarshal b v)
  else
    jsonv2Unmarshal b v (DefaultOptionsV1 :: o).

Definition jsonEqual (c : Codec) (v1 v2 : bytes) : M bool :=
  logCall (CallJsonEqual v1 v2);;
  match EqualJSONValues c with
  | Some f => ret (f v1 v2)
  | None => ret (bool_decide (v1 = v2))
  end.

Definition goEqual (c : Codec) (v1 v2 : any) : M bool :=
  logCall (CallGoEqual v1 v2);;
  match EqualGoValues c with
  | Some f => readHeap (f v1 v2)
  | None => readHeap (reflect_DeepEqual v1 v2)
  end.

Definition errorsEqual (c : Codec) (err1 err2 : error) : M bool :=
  logCall (CallErrorsEqual err1 err2);;
  match EqualErrors c with
  | Some f => ret (f err1 err2)
  | None => ret (eqb (isErr err1) (isErr err2))
  end.

Definition cloneGoValue (c : Codec) (v : any) : M any :=
  r <- match CloneGoValue c with
       | Some f => logCall (CallCloneGoValue v);; withHeap (f v)
       | None => ret Nil
       end;;
  if notNil r then ret r
  else
    z <- readHeap (isPointerToZero v);;
    if negb z then ret Nil
    else match v with
         | Ptr t _ => withHeap (reflect_New t)
         | _ => ret Nil
         end.

(** Which engine call [jsonv1Unmarshal] and [jsonv1Marshal] make, and what
    it gives on a heap. *)
Definition v1UnmarshalCall (b : bytes) (v : any) (o : list Options) : Event :=
  if onlyV1Defaults o then CallV1stdUnmarshal b v
  else CallV2Unmarshal b v (DefaultOptionsV1 :: o).

Definition v1UnmarshalRun (b : bytes) (v : any) (o : list Options) (h : Heap)
    : error * Heap :=
  if onlyV1Defaults o then jsonv1std_Unmarshal b v h
  else jsonv2_Unmarshal b v (DefaultOptionsV1 :: o) h.

Definition v1MarshalCall (v : any) (o : list Options) : Event :=
  if onlyV1Defaults o then CallV1stdMarshal v
  else CallV2Marshal v (DefaultOptionsV1 :: o).

Definition v1MarshalRun (v : any) (o : list Options) (h : Heap)
    : bytes * error :=
  if onlyV1Defaults o then jsonv1std_Marshal v h
  else jsonv2_Marshal v (DefaultOptionsV1 :: o) h.

(** [shallowCopy(dst, new)]. *)
Definition shallowCopy (dst new : any) : M any :=
  match dst, new with
  | Ptr t1 (Some l1), Ptr t2 (Some l2) =>
      if decide (t1 = t2) then
        ov <- withHeap (reflect_New t1);;
        match ov with
        | Ptr _ (Some lo) =>
            withHeap (λ h, (tt, setCell lo (deref h t1 l1) h));;
            withHeap (λ h, (tt, setCell l1 (deref h t2 l2) h));;
            ret ov
        | _ => ret ov
        end
      else ret dst
  | _, _ => ret dst
  end.

(** What the clone hook gives, and the log entry calling it leaves. *)
Definition hookResult (c : Codec) (v : any) (h : Heap) : any * Heap :=
  match CloneGoValue c with
  | Some f => f v h
  | None => (Nil, h)
  end.

Definition hookCalls (c : Codec) (v : any) : list Event :=
  match CloneGoValue c with
  | Some _ => [CallCloneGoValue v]
  | None => []
  end.

(** What [cloneGoValue] gives on a heap. *)
Definition cloneRun (c : Codec) (v : any) (h : Heap) : any * Heap :=
  let r := hookResult c v h in
  if notNil r.1 then r
  else if negb (isPointerToZero v r.2) then (Nil, r.2)
  else match v with
       | Ptr t _ => reflect_New t r.2
       | _ => (Nil, r.2)
       end.

(** Cloning is impossible: the hook is absent or returns nil, and the
    target is not a non-nil pointer to a zero value. *)
Definition cloneImpossible (c : Codec) (v : any) (h : Heap) : Prop :=
  (hookResult c v h).1 = Nil /\
  isPointerToZero v (hookResult c v h).2 = false.

(** What [shallowCopy] gives on a heap. *)
Definition shallowCopyRun (dst new : any) (h : Heap) : any * Heap :=
  match dst, new with
  | Ptr t1 (Some l1), Ptr t2 (Some l2) =>
      if decide (t1 = t2) then
        let h1 := (reflect_New t1 h).2 in
        let h2 := setCell (next h) (deref h1 t1 l1) h1 in
        (Ptr t1 (Some (next h)), setCell l1 (deref h2 t2 l2) h2)
      else (dst, h)
  | _, _ => (dst, h)
  end.









(** Between [w] and [w'] one engine was called and nothing else left the
    package; no difference was counted, attributed to a caller or to an
    option. *)
Definition noDifference (w w' : World) (e : Event) : Prop :=
  calls w' = calls w ++ [e] /\
  isEngineCall e = true /\
  ints (metrics w') NumMarshalDiffs = ints (metrics w) NumMarshalDiffs /\
  ints (metrics w') NumUnmarshalDiffs = ints (metrics w) NumUnmarshalDiffs /\
  forall d, callerHistogram d (metrics w') = callerHistogram d (metrics w) /\
            optionHistogram d (metrics w') = optionHistogram d (metrics w).


(** [m] returns and leaves the counter [k] as it found it. *)
Definition keepsCounter {A} (k : Counter) (m : M A) : Prop :=
  forall w, wp m (λ _ w', ints (metrics w') k = ints (metrics w) k) w.

(** [elapsed(f)], with the measured duration supplied. *)
Definition elapsed {A} (dur : Z) (f : M A) : M (Z * A) :=
  a <- f;; ret (dur, a).

(** [Codec.Marshal] between its first line and the deferred function. *)
Definition MarshalBody (c : Codec) (orc : Oracle) (v : any) (o : list Options)
    : M (bytes * error) :=
  mode <- gets (λ w, loadRandomMode (marshalCallRatio w) (rand_Float32 orc));;
  if mode =? OnlyCallV1 then
    Add NumMarshalOnlyCallV1 1;;
    Add NumMarshalReturnV1 1;;
    jsonv1Marshal v o
  else if mode =? OnlyCallV2 then
    Add NumMarshalOnlyCallV2 1;;
    Add NumMarshalReturnV2 1;;
    jsonv2Marshal v o
  else if (mode =? CallV1ButUponErrorReturnV2) || (mode =? CallBothButReturnV1)
          || (mode =? CallBothButReturnV2) || (mode =? CallV2ButUponErrorReturnV1)
  then
    ran <-
      (if mode =? CallV1ButUponErrorReturnV2 then
         '(dur1, (buf1, err1)) <- elapsed (elapsed_v1 orc) (jsonv1Marshal v o);;
         if negb (isErr err1) then
           Add NumMarshalOnlyCallV1 1;;
           Add NumMarshalReturnV1 1;;
           ret (Return (buf1, None))
         else
           '(dur2, (buf2, err2)) <- elapsed (elapsed_v2 orc) (jsonv2Marshal v o);;
           ret (RanBoth (buf1, err1, buf2, err2, dur1, dur2))
       else if mode =? CallV2ButUponErrorReturnV1 then
         '(dur2, (buf2, err2)) <- elapsed (elapsed_v2 orc) (jsonv2Marshal v o);;
         if negb (isErr err2) then
           Add NumMarshalOnlyCallV2 1;;
           Add NumMarshalReturnV2 1;;
           ret (Return (buf2, None))
         else
           '(dur1, (buf1, err1)) <- elapsed (elapsed_v1 orc) (jsonv1Marshal v o);;
           ret (RanBoth (buf1, err1, buf2, err2, dur1, dur2))
       else
         '(dur1, (buf1, err1)) <- elapsed (elapsed_v1 orc) (jsonv1Marshal v o);;
         '(dur2, (buf2, err2)) <- elapsed (elapsed_v2 orc) (jsonv2Marshal v o);;
         ret (RanBoth (buf1, err1, buf2, err2, dur1, dur2)));;
    match ran with
    | Return r => ret r
    | RanBoth (buf1, err1, buf2, err2, dur1, dur2) =>
        Add NumMarshalCallBoth 1;;
        Add ExecTimeMarshalV1Nanos dur1;;
        Add ExecTimeMarshalV2Nanos dur2;;
        (* Check for differences. *)
        eqj <- jsonEqual c buf1 buf2;;
        same <- (if eqj then errorsEqual c err1 err2 else ret false);;
        when (negb same)
          (let caller := runtime_caller orc in
           Add NumMarshalDiffs 1;;
           CallerHistogram_Add DirMarshal caller;;
           options <-
             (if AutoDetectOptions c then
                options <- autoDetectOptions
                  (λ o,
                     '(buf2, err2) <- jsonv2Marshal v o;;
                     eqj <- jsonEqual c buf1 buf2;;
                     if eqj then errorsEqual c err1 err2 else ret false)
                  (rangeOrder orc) o;;
                forM_ (optionNames options) (OptionHistogram_Add DirMarshal);;
                ret options
              else ret NilOptions);;
           when (ReportDifference c)
             (logCall (CallReportDifference
                {| Caller := caller;
                   Func := "Marshal";
                   DiffGoType := reflect_TypeOf v;
                   JSONValue := EmptyString;
                   JSONValueV1 := buf1;
                   JSONValueV2 := buf2;
                   GoValue := v;
                   GoValueV1 := Nil;
                   GoValueV2 := Nil;
                   ErrorV1 := err1;
                   ErrorV2 := err2;
                   DiffOptions := options |})));;
        (* Select the appropriate return value. *)
        if (mode =? CallBothButReturnV1) || (mode =? CallV2ButUponErrorReturnV1) then
          Add NumMarshalReturnV1 1;;
          ret (buf1, err1)
        else
          Add NumMarshalReturnV2 1;;
          ret (buf2, err2)
    end
  else panic.

Definition Marshal (c : Codec) (orc : Oracle) (v : any) (o : list Options)
    : M (bytes * error) :=
  Add NumMarshalTotal 1;;
  '(b, err) <- MarshalBody c orc v o;;
  (* the deferred function *)
  SizeHistogram_insertSize DirMarshal (len b);;
  when (isErr err) (Add NumMarshalErrors 1);;
  ret (b, err).

(** The inner [switch mode] of [Codec.Unmarshal]'s dual path. *)
Definition UnmarshalDual (c : Codec) (orc : Oracle) (mode : CallMode)
    (b : bytes) (v valOrig : any) (o : list Options)
    : M (Dual error (any * any * error * error * Z * Z)) :=
  if mode =? CallV1ButUponErrorReturnV2 then
    let val1 := v in
    '(dur1, err1) <- elapsed (elapsed_v1 orc) (jsonv1Unmarshal b val1 o);;
    if negb (isErr err1) then
      Add NumUnmarshalOnlyCallV1 1;;
      Add NumUnmarshalReturnV1 1;;
      ret (Return None)
    else
      val2 <- cloneGoValue c valOrig;;
      '(dur2, err2) <- elapsed (elapsed_v2 orc) (jsonv2Unmarshal b val2 o);;
      val1 <- shallowCopy v val2;; (* v has v1 results, but needs v2 *)
      ret (RanBoth (val1, val2, err1, err2, dur1, dur2))
  else if mode =? CallV2ButUponErrorReturnV1 then
    let val2 := v in
    '(dur2, err2) <- elapsed (elapsed_v2 orc) (jsonv2Unmarshal b val2 o);;
    if negb (isErr err2) then
      Add NumUnmarshalOnlyCallV2 1;;
      Add NumUnmarshalReturnV2 1;;
      ret (Return None)
    else
      val1 <- cloneGoValue c valOrig;;
      '(dur1, err1) <- elapsed (elapsed_v1 orc) (jsonv1Unmarshal b val1 o);;
      val2 <- shallowCopy v val1;; (* v has v2 results, but needs v1 *)
      ret (RanBoth (val1, val2, err1, err2, dur1, dur2))
  else if mode =? CallBothButReturnV1 then
    let val1 := v in
    '(dur1, err1) <- elapsed (elapsed_v1 orc) (jsonv1Unmarshal b val1 o);;
    val2 <- cloneGoValue c valOrig;;
    '(dur2, err2) <- elapsed (elapsed_v2 orc) (jsonv2Unmarshal b val2 o);;
    ret (RanBoth (val1, val2, err1, err2, dur1, dur2))
  else
    val1 <- cloneGoValue c valOrig;;
    '(dur1, err1) <- elapsed (elapsed_v1 orc) (jsonv1Unmarshal b val1 o);;
    let val2 := v in
    '(dur2, err2) <- elapsed (elapsed_v2 orc) (jsonv2Unmarshal b val2 o);;
    ret (RanBoth (val1, val2, err1, err2, dur1, dur2)).

(** The "Check for differences" block of [Codec.Unmarshal]. *)
Definition UnmarshalCheck (c : Codec) (orc : Oracle) (b : bytes)
    (v valOrig val1 val2 : any) (err1 err2 : error) (o : list Options)
    : M unit :=
  eqg <- goEqual c val1 val2;;
  same <- (if eqg then errorsEqual c err1 err2 else ret false);;
  when (negb same)
    (let caller := runtime_caller orc in
     Add NumUnmarshalDiffs 1;;
     CallerHistogram_Add DirUnmarshal caller;;
     options <-
       (if AutoDetectOptions c then
          options <- autoDetectOptions
            (λ o,
               val2 <- cloneGoValue c valOrig;;
               err2 <- jsonv2Unmarshal b val2 o;;
               eqg <- goEqual c val1 val2;;
               if eqg then errorsEqual c err1 err2 else ret false)
            (rangeOrder orc) o;;
          forM_ (optionNames options) (OptionHistogram_Add DirUnmarshal);;
          ret options
        else ret NilOptions);;
     when (ReportDifference c)
       (logCall (CallReportDifference
          {| Caller := caller;
             Func := "Unmarshal";
             DiffGoType := reflect_TypeOf v;
             JSONValue := b;
             JSONValueV1 := EmptyString;
             JSONValueV2 := EmptyString;
             GoValue := Nil;
             GoValueV1 := val1;
             GoValueV2 := val2;
             ErrorV1 := err1;
             ErrorV2 := err2;
             DiffOptions := options |}))).

(** [Codec.Unmarshal] between the merge count and the deferred function. *)
Definition UnmarshalBody (c : Codec) (orc : Oracle) (b : bytes) (v : any)
    (o : list Options) : M error :=
  mode <- gets (λ w, loadRandomMode (unmarshalCallRatio w) (rand_Float32 orc));;
  if mode =? OnlyCallV1 then
    Add NumUnmarshalOnlyCallV1 1;;
    Add NumUnmarshalReturnV1 1;;
    jsonv1Unmarshal b v o
  else if mode =? OnlyCallV2 then
    Add NumUnmarshalOnlyCallV2 1;;
    Add NumUnmarshalReturnV2 1;;
    jsonv2Unmarshal b v o
  else if (mode =? CallV1ButUponErrorReturnV2) || (mode =? CallBothButReturnV1)
          || (mode =? CallBothButReturnV2) || (mode =? CallV2ButUponErrorReturnV1)
  then
    (* Make sure we can clone the output, otherwise we cannot call both. *)
    valOrig <- cloneGoValue c v;;
    if negb (notNil valOrig) then
      Add NumUnmarshalCallBothSkipped 1;;
      if (mode =? CallV1ButUponErrorReturnV2) || (mode =? CallBothButReturnV1) then
        Add NumUnmarshalOnlyCallV1 1;;
        Add NumUnmarshalReturnV1 1;;
        jsonv1Unmarshal b v o
      else
        Add NumUnmarshalOnlyCallV2 1;;
        Add NumUnmarshalReturnV2 1;;
        jsonv2Unmarshal b v o
    else
      ran <- UnmarshalDual c orc mode b v valOrig o;;
      match ran with
      | Return r => ret r
      | RanBoth (val1, val2, err1, err2, dur1, dur2) =>
          Add NumUnmarshalCallBoth 1;;
          Add ExecTimeUnmarshalV1Nanos dur1;;
          Add ExecTimeUnmarshalV2Nanos dur2;;
          UnmarshalCheck c orc b v valOrig val1 val2 err1 err2 o;;
          (* Select the appropriate return value. *)
          if (mode =? CallBothButReturnV1) || (mode =? CallV2ButUponErrorReturnV1) then
            Add NumUnmarshalReturnV1 1;;
            ret err1
          else
            Add NumUnmarshalReturnV2 1;;
            ret err2
      end
  else panic.

Definition Unmarshal (c : Codec) (orc : Oracle) (b : bytes) (v : any)
    (o : list Options) : M error :=
  Add NumUnmarshalTotal 1;;
  SizeHistogram_insertSize DirUnmarshal (len b);;
  z <- readHeap (isPointerToZero v);;
  when (negb z) (Add NumUnmarshalMerge 1);;
  err <- UnmarshalBody c orc b v o;;
  (* the deferred function *)
  when (isErr err) (Add NumUnmarshalErrors 1);;
  ret err.
End CodecModel.

(** ** One callModeRatio shared by concurrent callers

    Each of the three functions touches the shared word exactly once:
    [storeModeRatio] by [p.Store(u)] after its checks, [loadModeRatio] by
    [p.Load()] before it decodes, [loadRandomMode] through [loadModeRatio].
    The rest of a call is local to the calling goroutine.  [sync/atomic]
    makes one [Store] or one [Load] indivisible and orders them all; it
    does not make a call indivisible.  So a call is a program over the
    two accesses, and a concurrent run interleaves the starts, the
    accesses and the returns of the calls of all goroutines. *)

(** A call; [r] is what [rand.Float32()] returns in it. *)
Inductive Op :=
  | OpStore (mode1 mode2 : CallMode) (ratio : float32)
  | OpLoad
  | OpLoadRandom (r : float32).

(** What a call returns. *)
Inductive Result :=
  | NoResult
  | GotTriple (t : CallMode * CallMode * float32)
  | GotMode (m : CallMode).

(** The code of a call, as far as the shared word sees it: [p.Store(u)],
    [u := p.Load()], a return, a panic. *)
Inductive Prog :=
  | PStore (u : Z) (k : Prog)
  | PLoad (k : Z → Prog)
  | PReturn (r : Result)
  | PPanic.

(** [storeModeRatio]: the two [checkValid] calls, the range check, the
    word [u], and [p.Store(u)]. *)
Definition storeModeRatio_code (mode1 mode2 : CallMode) (ratio : float32)
    : Prog :=
  match checkValid mode1, checkValid mode2 with
  | Some _, Some _ =>
      if f32_ne ratio (go_min32 (go_max32 f32_zero ratio) f32_one) then PPanic
      else PStore (packModeRatio mode1 mode2 ratio) (PReturn NoResult)
  | _, _ => PPanic
  end.

(** [loadModeRatio]: [u := p.Load()], then the three fields of [u]. *)
Definition loadModeRatio_code (k : CallMode * CallMode * float32 → Prog)
    : Prog :=
  PLoad (λ u, k (unpackModeRatio u)).

(** [loadRandomMode]: [loadModeRatio], then the draw. *)
Definition loadRandomMode_code (r : float32) : Prog :=
  loadModeRatio_code
    (λ '(mode1, mode2, ratio),
       PReturn (GotMode (if f32_lt ratio f32_one && f32_ge r ratio
                         then mode1 else mode2))).

Definition code (op : Op) : Prog :=
  match op with
  | OpStore mode1 mode2 ratio => storeModeRatio_code mode1 mode2 ratio
  | OpLoad => loadModeRatio_code (λ t, PReturn (GotTriple t))
  | OpLoadRandom r => loadRandomMode_code r
  end.

(** A program run by one goroutine with nobody else around. *)
Fixpoint runAlone (c : Prog) (p : callModeRatio)
    : option (Result * callModeRatio) :=
  match c with
  | PStore u k => runAlone k (Store p u)
  | PLoad k => runAlone (k (Load p)) p
  | PReturn r => Some (r, p)
  | PPanic => None
  end.

(** What a goroutine did, as the others can see it. *)
Inductive Action :=
  | Called (i : nat) (op : Op)
  | Wrote (i : nat) (op : Op) (u : Z)
  | Read (i : nat) (u : Z)
  | Returned (i : nat) (r : Result).




(** A goroutine: the call it is in, with what is left of its code, and
    the calls it has still to make. *)
Record Goroutine := {
  running : option (Op * Prog);
  pending : list Op;
}.

(** The shared word, the goroutines, and what has happened so far (oldest
    first). *)
Record Config := {
  word : callModeRatio;
  threads : list Goroutine;
  history : list Action;
}.

(** Goroutine [i] takes one step: it starts its next call, does the one
    access its code is at, or returns.  A goroutine whose code is at a
    panic takes no further step.  [impl] gives the code of a call. *)
Inductive step (impl : Op → Prog) : Config → Config → Prop :=
  | step_call p ts hist i op rest :
      ts !! i = Some {| running := None; pending := op :: rest |} →
      step impl
           {| word := p; threads := ts; history := hist |}
           {| word := p;
              threads := <[i := {| running := Some (op, impl op);
                                   pending := rest |}]> ts;
              history := hist ++ [Called i op] |}
  | step_store p ts hist i op u k rest :
      ts !! i = Some {| running := Some (op, PStore u k); pending := rest |} →
      step impl
           {| word := p; threads := ts; history := hist |}
           {| word := Store p u;
              threads := <[i := {| running := Some (op, k);
                                   pending := rest |}]> ts;
              history := hist ++ [Wrote i op u] |}
  | step_load p ts hist i op k rest :
      ts !! i = Some {| running := Some (op, PLoad k); pending := rest |} →
      step impl
           {| word := p; threads := ts; history := hist |}
           {| word := p;
              threads := <[i := {| running := Some (op, k (Load p));
                                   pending := rest |}]> ts;
              history := hist ++ [Read i (Load p)] |}
  | step_return p ts hist i op r rest :
      ts !! i = Some {| running := Some (op, PReturn r); pending := rest |} →
      step impl
           {| word := p; threads := ts; history := hist |}
           {| word := p;
              threads := <[i := {| running := None; pending := rest |}]> ts;
              history := hist ++ [Returned i r] |}.

(** The zero value of [callModeRatio], before any store. *)
Definition zeroModeRatio : callModeRatio := {| Uint64 := 0 |}.

Definition initial (ts : list (list Op)) : Config :=
  {| word := zeroModeRatio;
     threads := (λ ops, {| running := None; pending := ops |}) <$> ts;
     history := [] |}.


Definition zeroTriple : CallMode * CallMode * float32 := (OnlyCallV1, OnlyCallV1, f32_zero).











(** Not the package's code: a store that writes mode1 into the word first
    and the whole word afterwards.  The run below shows what the single
    [p.Store(u)] of [storeModeRatio] rules out. *)
Definition storeInTwoSteps (mode1 mode2 : CallMode) (ratio : float32)
    : Prog :=
  PLoad (λ u,
    PStore (Z.lor (Z.land u (Z.lnot 0xffff)) (Z.land mode1 0xffff))
      (PStore (packModeRatio mode1 mode2 ratio) (PReturn NoResult))).

Definition tornCode (op : Op) : Prog :=
  match op with
  | OpStore mode1 mode2 ratio => storeInTwoSteps mode1 mode2 ratio
  | _ => code op
  end.

Definition storeAndLoad : list (list Op) :=
  [[OpStore 2 3 0x3f000000]; [OpLoad]].

Definition torn_history : list Action :=
  [ Called 0 (OpStore 2 3 0x3f000000);
    Read 0 0;
    Wrote 0 (OpStore 2 3 0x3f000000) 2;
    Called 1 OpLoad;
    Read 1 2;
    Returned 1 (GotTriple (2, 0, f32_zero)) ].

Definition torn_end : Config :=
  {| word := {| Uint64 := 2 |};
     threads := [ {| running :=
                       Some (OpStore 2 3 0x3f000000,
                             PStore (packModeRatio 2 3 0x3f000000)
                                    (PReturn NoResult));
                     pending := [] |};
                  {| running := None; pending := [] |} ];
     history := torn_history |}.


(** Flags for trying the bisection out: every option of
    [defaultOptionsV1] set to true. *)
Definition exampleV1Defaults : V1Defaults :=
  {| DefaultV1Flags := list_to_map ((λ n, (n, true)) <$> defaultOptionsV1) |}.

(** An equivalence test that holds exactly when the joined options allow
    invalid UTF-8. *)
Definition needsInvalidUTF8 (os : list Options) : bool :=
  bool_decide
    (flagsOf (H := exampleV1Defaults) (JoinOptions (H := exampleV1Defaults) os)
       !! "jsontext.AllowInvalidUTF8"%string = Some true).

(** Collaborators for trying the codec out: variables hold integers, the
    v1 decoder stores 1 and fails, the v2 decoder stores 2 and succeeds. *)
Definition exampleGoValues : GoValues :=
  {| V := Z; GoType := unit; typeOf := λ _, tt; zeroValue := λ _, 0;
     IsZero := λ x, x =? 0 |}.

Definition exampleEngines : Engines (H := exampleGoValues) :=
  {| jsonv1std_Marshal := λ _ _, ("1"%string, None);
     jsonv2_Marshal := λ _ _ _, ("2"%string, None);
     jsonv1std_Unmarshal := λ _ v h,
       match v with
       | Ptr _ (Some l) => (Some "v1: cannot unmarshal"%string, setCell (H := exampleGoValues) l 1 h)
       | _ => (Some "v1: invalid target"%string, h)
       end;
     jsonv2_Unmarshal := λ _ v _ h,
       match v with
       | Ptr _ (Some l) => (None, setCell (H := exampleGoValues) l 2 h)
       | _ => (Some "v2: invalid target"%string, h)
       end |}.

Definition zeroMetrics : CodecMetrics :=
  {| ints := λ _, 0;
     MarshalSizeHistogram := SizeHistogram_zero;
     MarshalCallerHistogram := ∅;
     MarshalOptionHistogram := ∅;
     UnmarshalSizeHistogram := SizeHistogram_zero;
     UnmarshalCallerHistogram := ∅;
     UnmarshalOptionHistogram := ∅ |}.

(** The zero value of a codec, with one variable, at address 0, holding
    [x]. *)
Definition zeroWorld (x : Z) : World (H := exampleGoValues) :=
  {| heap := {| cells := {[ 0%nat := x ]}; next := 1%nat |};
     marshalCallRatio := zeroModeRatio;
     unmarshalCallRatio := zeroModeRatio;
     metrics := zeroMetrics;
     calls := [] |}.

(** That codec after [SetMarshalCallMode(mode)] and
    [SetUnmarshalCallMode(mode)]. *)
Definition worldWith (mode : CallMode) (x : Z)
    : World (H := exampleGoValues) :=
  exec (bind (SetMarshalCallMode (H := exampleGoValues) mode)
             (λ _, SetUnmarshalCallMode (H := exampleGoValues) mode))
       (zeroWorld x).

Definition exampleOracle : Oracle :=
  {| rand_Float32 := f32_zero;
     runtime_caller := "main.go:10";
     elapsed_v1 := 5;
     elapsed_v2 := 7;
     rangeOrder := defaultOptionsV1 |}.

(** A codec with a difference sink and the given clone hook. *)
Definition exampleCodec
    (hook : option (any (H := exampleGoValues) → Heap → any * Heap))
    : Codec (H := exampleGoValues) :=
  {| AutoDetectOptions := false;
     ReportDifference := true;
     EqualJSONValues := None;
     EqualGoValues := None;
     EqualErrors := None;
     CloneGoValue := hook |}.


(** The caller's target in these runs: a pointer to the variable at 0. *)
Definition target0 : any (H := exampleGoValues) :=
  Ptr (H := exampleGoValues) tt (Some 0%nat).
(** * More of [jsonsplit.go]

    The functions of the file that the development above does not reach:
    [SizeHistogram.MarshalJSON], [CallMode.String], [caller],
    [CodecMetrics.ExpVar] and [optionNames]. *)

(** ** SizeHistogram.MarshalJSON *)

Section Rendering.
Import Stdlib.Strings.Ascii.

(** [strconv.AppendInt(b, i, 10)]. *)
Definition strconv_AppendInt (b : bytes) (i : Z) : bytes := b +:+ pretty i.

(** [bytes.TrimRight(b, cutset)] for a cutset of one character. *)
Fixpoint bytes_TrimRight (b : bytes) (c : ascii) : bytes :=
  match b with
  | EmptyString => EmptyString
  | String a b' =>
      match bytes_TrimRight b' c with
      | EmptyString => if Ascii.eqb a c then EmptyString else String a EmptyString
      | t => String a t
      end
  end.

(** [s[a:]] and [s[:n]] on a string; slicing past the end panics. *)
Definition slice_from (s : string) (a : nat) : option string :=
  if (a <=? String.length s)%nat
  then Some (String.substring a (String.length s - a) s) else None.

Definition slice_to (s : string) (n : nat) : option string :=
  if (n <=? String.length s)%nat then Some (String.substring 0 n s) else None.

Definition quote : ascii := "034"%char.

Definition prefixes : string := "  KiMiGiTiPiEi".

(** The body of the loop of [SizeHistogram.MarshalJSON] at index [i],
    where [n] is [h[i].Value()]. *)
Definition appendBucket (b : bytes) (i : nat) (n : Z) : option bytes :=
  if 0 <? n then
    let b := b +:+ String quote "<" in
    let b := strconv_AppendInt b (Z.shiftl 1 (Z.of_nat i mod 10)) in
    rest ← slice_from prefixes (2 * (i / 10));
    p ← slice_to rest 2;
    let b := b +:+ p in
    let b := bytes_TrimRight b " " in
    let b := b +:+ String "B" (String quote ":") in
    let b := strconv_AppendInt b n in
    Some (b +:+ ",")
  else Some b.

Fixpoint marshalBuckets (h : list Z) (i : nat) (b : bytes) : option bytes :=
  match h with
  | [] => Some b
  | n :: h' => b' ← appendBucket b i n; marshalBuckets h' (S i) b'
  end.

Definition SizeHistogram_MarshalJSON (h : SizeHistogram) : option (bytes * error) :=
  b ← marshalBuckets h 0 "{";
  let b := bytes_TrimRight b "," in
  Some (b +:+ "}", None).

Definition SizeHistogram_String (h : SizeHistogram) : option string :=
  r ← SizeHistogram_MarshalJSON h; Some r.1.


(** The seven unit prefixes [prefixes] holds, two bytes each, without
    padding. *)
Definition sizeUnits : list string := [""; "Ki"; "Mi"; "Gi"; "Ti"; "Pi"; "Ei"].

(** The name of bucket [i]: the bound 2^(i mod 10) and the unit. *)
Definition bucketName (i : nat) : string :=
  "<" +:+ pretty (2 ^ (Z.of_nat i mod 10)) +:+
  default "" (sizeUnits !! (i / 10)%nat) +:+ "B".

Definition bucketEntry (p : nat * Z) : string :=
  String quote (bucketName p.1) +:+ String quote ":" +:+ pretty p.2.

Fixpoint joinComma (l : list string) : string :=
  match l with
  | [] => ""
  | [x] => x
  | x :: l' => x +:+ "," +:+ joinComma l'
  end.

(** Whether the character [c] occurs in [s]. *)
Fixpoint occurs (c : ascii) (s : string) : bool :=
  match s with
  | EmptyString => false
  | String a s' => Ascii.eqb a c || occurs c s'
  end.

(** The buckets with a positive count, with their indices, in order. *)
Definition positiveBuckets (h : list Z) : list (nat * Z) :=
  filter (λ p, 0 < p.2) (imap pair h).
End Rendering.

(** ** CallMode.String *)

(** [var callModeNames = map[CallMode]string{...}] *)
Definition callModeNames : gmap CallMode string :=
  list_to_map
    [ (OnlyCallV1, "OnlyCallV1");
      (CallV1ButUponErrorReturnV2, "CallV1ButUponErrorReturnV2");
      (CallBothButReturnV1, "CallBothButReturnV1");
      (CallBothButReturnV2, "CallBothButReturnV2");
      (CallV2ButUponErrorReturnV1, "CallV2ButUponErrorReturnV1");
      (OnlyCallV2, "OnlyCallV2") ].

(** [fmt.Sprintf("CallMode(%d)", m)] *)
Definition sprintf_CallMode (m : CallMode) : string :=
  "CallMode(" +:+ pretty m +:+ ")".

Definition CallMode_String (m : CallMode) : string :=
  match callModeNames !! m with
  | Some name => name
  | None => sprintf_CallMode m
  end.

(** ** caller *)

(** What [runtime.Caller(skip)] returns, without the program counter. *)
Record Frame := { frame_file : string; frame_line : Z; frame_ok : bool }.

(** [fmt.Sprintf("%s:%d", file, line)] *)
Definition sprintf_fileLine (file : string) (line : Z) : string :=
  file +:+ ":" +:+ pretty line.

Definition maxLocalFramesToIgnore : nat := 10.

Section Caller.
(** The stack [caller] is called on, and the name of this source file. *)
Variable runtime_Caller : nat → Frame.
Variable currentFile : string.

(** The loop [for i := range maxLocalFramesToIgnore] from [i] on, with
    [n] iterations left. *)
Fixpoint callerFrom (n i : nat) : string :=
  match n with
  | O => EmptyString
  | S n' =>
      let fr := runtime_Caller (i + 1) in
      if bool_decide (frame_file fr = currentFile) then callerFrom n' (S i)
      else if frame_ok fr then sprintf_fileLine (frame_file fr) (frame_line fr)
      else callerFrom n' (S i)
  end.

Definition caller : string := callerFrom maxLocalFramesToIgnore 0.

(** A frame [caller] stops at: known, and not of this file. *)
Definition outsideFrame (fr : Frame) : Prop :=
  frame_file fr <> currentFile /\ frame_ok fr = true.
End Caller.

(** ** CodecMetrics.ExpVar *)

Section SnakeCase.
Import Stdlib.Strings.Ascii.

(** [unicode.IsUpper] and [unicode.ToLower] on the ASCII range, where
    the names of the fields of [CodecMetrics] lie. *)
Definition unicode_IsUpper (r : ascii) : bool :=
  (65 <=? nat_of_ascii r)%nat && (nat_of_ascii r <=? 90)%nat.

Definition unicode_ToLower (r : ascii) : ascii :=
  if unicode_IsUpper r then ascii_of_nat (nat_of_ascii r + 32) else r.

(** The loop [for i, r := range name] that turns PascalCase into
    snake_case, from index [i] on. *)
Fixpoint snakeCaseFrom (i : nat) (name : string) : string :=
  match name with
  | EmptyString => EmptyString
  | String r name' =>
      if unicode_IsUpper r then
        (if (0 <? i)%nat then "_" else "") +:+
        String (unicode_ToLower r) (snakeCaseFrom (S i) name')
      else String r (snakeCaseFrom (S i) name')
  end.

Definition snakeCase (name : string) : string := snakeCaseFrom 0 name.

(** The way back for a name in PascalCase: an upper-case letter at the
    start and wherever an underscore came before. *)
Definition toUpper (r : ascii) : ascii := ascii_of_nat (nat_of_ascii r - 32).

Fixpoint pascalCaseFrom (first : bool) (s : string) : string :=
  match s with
  | EmptyString => EmptyString
  | String c s' =>
      if first then String (toUpper c) (pascalCaseFrom false s')
      else if Ascii.eqb c "_" then
        match s' with
        | EmptyString => EmptyString
        | String c' s'' => String (toUpper c') (pascalCaseFrom false s'')
        end
      else String c (pascalCaseFrom false s')
  end.

(** Every character of [s] is ASCII. *)
Fixpoint isASCII (s : string) : bool :=
  match s with
  | EmptyString => true
  | String r s' => (nat_of_ascii r <? 128)%nat && isASCII s'
  end.

(** A name that starts with an upper-case letter and has no underscore:
    what an exported Go field written in PascalCase is. *)
Definition isPascal (s : string) : bool :=
  match s with
  | EmptyString => false
  | String r _ => unicode_IsUpper r && negb (occurs "_" s) && isASCII s
  end.
End SnakeCase.

(** The fields of [CodecMetrics], as [reflect] enumerates them. *)
Inductive MetricField :=
  | IntField (c : Counter)
  | SizeHistogramField (d : Direction)
  | CallerHistogramField (d : Direction)
  | OptionHistogramField (d : Direction).

(** [v.Type().Field(i).Name] and the field itself, for [i] in order. *)
Definition CodecMetrics_fields : list (string * MetricField) :=
  [ ("NumMarshalTotal", IntField NumMarshalTotal);
    ("NumMarshalErrors", IntField NumMarshalErrors);
    ("NumMarshalOnlyCallV1", IntField NumMarshalOnlyCallV1);
    ("NumMarshalOnlyCallV2", IntField NumMarshalOnlyCallV2);
    ("NumMarshalCallBoth", IntField NumMarshalCallBoth);
    ("NumMarshalReturnV1", IntField NumMarshalReturnV1);
    ("NumMarshalReturnV2", IntField NumMarshalReturnV2);
    ("NumMarshalDiffs", IntField NumMarshalDiffs);
    ("ExecTimeMarshalV1Nanos", IntField ExecTimeMarshalV1Nanos);
    ("ExecTimeMarshalV2Nanos", IntField ExecTimeMarshalV2Nanos);
    ("MarshalSizeHistogram", SizeHistogramField DirMarshal);
    ("MarshalCallerHistogram", CallerHistogramField DirMarshal);
    ("MarshalOptionHistogram", OptionHistogramField DirMarshal);
    ("NumUnmarshalTotal", IntField NumUnmarshalTotal);
    ("NumUnmarshalErrors", IntField NumUnmarshalErrors);
    ("NumUnmarshalMerge", IntField NumUnmarshalMerge);
    ("NumUnmarshalOnlyCallV1", IntField NumUnmarshalOnlyCallV1);
    ("NumUnmarshalOnlyCallV2", IntField NumUnmarshalOnlyCallV2);
    ("NumUnmarshalCallBoth", IntField NumUnmarshalCallBoth);
    ("NumUnmarshalCallBothSkipped", IntField NumUnmarshalCallBothSkipped);
    ("NumUnmarshalReturnV1", IntField NumUnmarshalReturnV1);
    ("NumUnmarshalReturnV2", IntField NumUnmarshalReturnV2);
    ("NumUnmarshalDiffs", IntField NumUnmarshalDiffs);
    ("ExecTimeUnmarshalV1Nanos", IntField ExecTimeUnmarshalV1Nanos);
    ("ExecTimeUnmarshalV2Nanos", IntField ExecTimeUnmarshalV2Nanos);
    ("UnmarshalSizeHistogram", SizeHistogramField DirUnmarshal);
    ("UnmarshalCallerHistogram", CallerHistogramField DirUnmarshal);
    ("UnmarshalOptionHistogram", OptionHistogramField DirUnmarshal) ].

(** [CodecMetrics.ExpVar]: the [expvar.Map] after [m.Set(name, value)] for
    every field; a later [Set] under the same name replaces the earlier. *)
Definition ExpVar : gmap string MetricField :=
  foldl (λ m f, <[snakeCase f.1 := f.2]> m) ∅ CodecMetrics_fields.

#[global] Instance Direction_eq_dec : EqDecision Direction.
Proof. solve_decision. Defined.

#[global] Instance MetricField_eq_dec : EqDecision MetricField.
Proof. solve_decision. Defined.

(** ** autoDetectOptions, counting its probes *)

(** An equivalence test that answers [P] and counts how often it is
    asked. *)
Definition counting (P : list Options → bool) : list Options → ST nat bool :=
  λ os n, Some (P os, S n).

(** [a] comes strictly before [b] in the order [slices.Sort] sorts by. *)
Definition strictlyBefore (a b : string) : Prop := String.ltb a b = true.

#[global] Instance strictlyBefore_dec a b : Decision (strictlyBefore a b).
Proof. unfold strictlyBefore. apply _. Defined.

(** The example stack: two frames of this file, then the call site. *)
Definition exampleStack (skip : nat) : Frame :=
  if (skip <=? 2)%nat
  then {| frame_file := "jsonsplit.go"; frame_line := 500; frame_ok := true |}
  else {| frame_file := "main.go"; frame_line := 42; frame_ok := true |}.

(** ** Codec.Marshal and Codec.Unmarshal: what a call may touch *)

Section Footprints.
Context `{GoValues} `{!Engines} `{V1Defaults}.
Local Open Scope st_scope.

(** What [jsonEqual], [errorsEqual] and [goEqual] answer. *)
Definition jsonSame (c : Codec) (v1 v2 : bytes) : bool :=
  match EqualJSONValues c with
  | Some f => f v1 v2
  | None => bool_decide (v1 = v2)
  end.

Definition errorsSame (c : Codec) (err1 err2 : error) : bool :=
  match EqualErrors c with
  | Some f => f err1 err2
  | None => eqb (isErr err1) (isErr err2)
  end.

Definition goSame (c : Codec) (v1 v2 : any) (h : Heap) : bool :=
  match EqualGoValues c with
  | Some f => f v1 v2 h
  | None => reflect_DeepEqual v1 v2 h
  end.

(** What a program may do to a world: the counters and histograms it
    may write to, whether it may write to the heap, and the calls it may
    make to its collaborators. *)
Record Footprint := {
  fp_counter : Counter → bool;
  fp_sizes : Direction → bool;
  fp_callers : Direction → bool;
  fp_options : Direction → bool;
  fp_heap : bool;
  fp_events : Event → bool;
}.

(** [w'] differs from [w] only in what [fp] names, and the log has grown
    by calls that [fp] allows; the two ratio words are the same. *)
Record within (fp : Footprint) (w w' : World) : Prop := {
  within_calls : exists es, calls w' = calls w ++ es /\
                            Forall (λ e, fp_events fp e = true) es;
  within_marshalCallRatio : marshalCallRatio w' = marshalCallRatio w;
  within_unmarshalCallRatio : unmarshalCallRatio w' = unmarshalCallRatio w;
  within_heap : fp_heap fp = false -> heap w' = heap w;
  within_counter : forall k, fp_counter fp k = false ->
    ints (metrics w') k = ints (metrics w) k;
  within_sizes : forall d, fp_sizes fp d = false ->
    sizeHistogram d (metrics w') = sizeHistogram d (metrics w);
  within_callers : forall d, fp_callers fp d = false ->
    callerHistogram d (metrics w') = callerHistogram d (metrics w);
  within_options : forall d, fp_options fp d = false ->
    optionHistogram d (metrics w') = optionHistogram d (metrics w);
}.

(** [m] returns, and stays within [fp]. *)
Definition staysWithin {A} (fp : Footprint) (m : M A) : Prop :=
  forall w, wp m (λ _ w', within fp w w') w.

Definition isMarshalCounter (k : Counter) : bool :=
  match k with
  | NumMarshalTotal | NumMarshalErrors
  | NumMarshalOnlyCallV1 | NumMarshalOnlyCallV2 | NumMarshalCallBoth
  | NumMarshalReturnV1 | NumMarshalReturnV2 | NumMarshalDiffs
  | ExecTimeMarshalV1Nanos | ExecTimeMarshalV2Nanos => true
  | _ => false
  end.

Definition isDir (d d' : Direction) : bool := bool_decide (d = d').

(** The calls [Codec.Marshal] makes, and those [Codec.Unmarshal] makes. *)
Definition isMarshalEvent (e : Event) : bool :=
  match e with
  | CallV1stdMarshal _ | CallV2Marshal _ _
  | CallJsonEqual _ _ | CallErrorsEqual _ _ | CallReportDifference _ => true
  | _ => false
  end.

Definition isUnmarshalEvent (e : Event) : bool :=
  match e with
  | CallV1stdUnmarshal _ _ | CallV2Unmarshal _ _ _ | CallCloneGoValue _
  | CallGoEqual _ _ | CallErrorsEqual _ _ | CallReportDifference _ => true
  | _ => false
  end.

Definition eventsOf (d : Direction) : Event → bool :=
  match d with
  | DirMarshal => isMarshalEvent
  | DirUnmarshal => isUnmarshalEvent
  end.

(** Everything [Codec.Marshal] writes to, and everything
    [Codec.Unmarshal] writes to. *)
Definition marshalFootprint : Footprint :=
  {| fp_counter := isMarshalCounter;
     fp_sizes := isDir DirMarshal;
     fp_callers := isDir DirMarshal;
     fp_options := isDir DirMarshal;
     fp_heap := false;
     fp_events := isMarshalEvent |}.

Definition unmarshalFootprint : Footprint :=
  {| fp_counter := λ k, negb (isMarshalCounter k);
     fp_sizes := isDir DirUnmarshal;
     fp_callers := isDir DirUnmarshal;
     fp_options := isDir DirUnmarshal;
     fp_heap := true;
     fp_events := isUnmarshalEvent |}.

(** What the two functions write to between their first lines and their
    deferred functions: not the totals, the error and merge counters or
    the size histograms. *)
Definition marshalBodyFootprint : Footprint :=
  {| fp_counter := λ k,
       isMarshalCounter k && negb (bool_decide (k = NumMarshalTotal))
       && negb (bool_decide (k = NumMarshalErrors));
     fp_sizes := λ _, false;
     fp_callers := isDir DirMarshal;
     fp_options := isDir DirMarshal;
     fp_heap := false;
     fp_events := isMarshalEvent |}.

Definition unmarshalBodyFootprint : Footprint :=
  {| fp_counter := λ k,
       negb (isMarshalCounter k) && negb (bool_decide (k = NumUnmarshalTotal))
       && negb (bool_decide (k = NumUnmarshalErrors))
       && negb (bool_decide (k = NumUnmarshalMerge));
     fp_sizes := λ _, false;
     fp_callers := isDir DirUnmarshal;
     fp_options := isDir DirUnmarshal;
     fp_heap := true;
     fp_events := isUnmarshalEvent |}.

(** [fp] names no more than [fp'] does. *)
Record narrower (fp fp' : Footprint) : Prop := {
  narrower_counter : forall k, fp_counter fp' k = false -> fp_counter fp k = false;
  narrower_sizes : forall d, fp_sizes fp' d = false -> fp_sizes fp d = false;
  narrower_callers : forall d, fp_callers fp' d = false -> fp_callers fp d = false;
  narrower_options : forall d, fp_options fp' d = false -> fp_options fp d = false;
  narrower_heap : fp_heap fp' = false -> fp_heap fp = false;
  narrower_events : forall e, fp_events fp e = true -> fp_events fp' e = true;
}.

(** The counter of detected differences of a direction. *)
Definition NumDiffs (d : Direction) : Counter :=
  match d with
  | DirMarshal => NumMarshalDiffs
  | DirUnmarshal => NumUnmarshalDiffs
  end.

(** What the report of a difference writes to. *)
Definition diffFootprint (d : Direction) : Footprint :=
  {| fp_counter := λ k, bool_decide (k = NumDiffs d);
     fp_sizes := λ _, false;
     fp_callers := isDir d;
     fp_options := isDir d;
     fp_heap := bool_decide (d = DirUnmarshal);
     fp_events := eventsOf d |}.

(** What the detection of options writes to: the option histogram of the
    direction, and the heap when it unmarshals; it reports nothing. *)
Definition probeFootprint (d : Direction) : Footprint :=
  {| fp_counter := λ _, false;
     fp_sizes := λ _, false;
     fp_callers := λ _, false;
     fp_options := isDir d;
     fp_heap := bool_decide (d = DirUnmarshal);
     fp_events := λ e, eventsOf d e && negb (isReport e) |}.

(** Of the counters [ks], exactly one is one higher in [w'] than in [w];
    the others are as they were. *)
Definition oneMore (ks : list Counter) (w w' : World) : Prop :=
  exists k, k ∈ ks /\
    ints (metrics w') k = int64_add (ints (metrics w) k) 1 /\
    forall k', k' ∈ ks -> k' <> k -> ints (metrics w') k' = ints (metrics w) k'.

(** The body of [if !(c.jsonEqual(buf1, buf2) && c.errorsEqual(err1, err2))]
    in [Codec.Marshal], as it stands in [MarshalBody]. *)
Definition MarshalDiffBlock (c : Codec) (orc : Oracle) (v : any)
    (o : list Options) (buf1 : bytes) (err1 : error) (buf2 : bytes)
    (err2 : error) : M unit :=
  let caller := runtime_caller orc in
  Add NumMarshalDiffs 1;;
  CallerHistogram_Add DirMarshal caller;;
  options <-
    (if AutoDetectOptions c then
       options <- autoDetectOptions
         (λ o,
            '(buf2, err2) <- jsonv2Marshal v o;;
            eqj <- jsonEqual c buf1 buf2;;
            if eqj then errorsEqual c err1 err2 else ret false)
         (rangeOrder orc) o;;
       forM_ (optionNames options) (OptionHistogram_Add DirMarshal);;
       ret options
     else ret NilOptions);;
  when (ReportDifference c)
    (logCall (CallReportDifference
       {| Caller := caller;
          Func := "Marshal";
          DiffGoType := reflect_TypeOf v;
          JSONValue := EmptyString;
          JSONValueV1 := buf1;
          JSONValueV2 := buf2;
          GoValue := v;
          GoValueV1 := Nil;
          GoValueV2 := Nil;
          ErrorV1 := err1;
          ErrorV2 := err2;
          DiffOptions := options |})).

(** The part of [Codec.Marshal] that follows the two engine calls of the
    dual path, as it stands in [MarshalBody]: the counters, the check for
    differences, and the choice of the result. *)
Definition MarshalTail (c : Codec) (orc : Oracle) (v : any)
    (o : list Options) (mode : CallMode) (buf1 : bytes) (err1 : error)
    (buf2 : bytes) (err2 : error) (dur1 dur2 : Z) : M (bytes * error) :=
  Add NumMarshalCallBoth 1;;
  Add ExecTimeMarshalV1Nanos dur1;;
  Add ExecTimeMarshalV2Nanos dur2;;
  (* Check for differences. *)
  eqj <- jsonEqual c buf1 buf2;;
  same <- (if eqj then errorsEqual c err1 err2 else ret false);;
  when (negb same) (MarshalDiffBlock c orc v o buf1 err1 buf2 err2);;
  (* Select the appropriate return value. *)
  if (mode =? CallBothButReturnV1) || (mode =? CallV2ButUponErrorReturnV1) then
    Add NumMarshalReturnV1 1;;
    ret (buf1, err1)
  else
    Add NumMarshalReturnV2 1;;
    ret (buf2, err2).

(** Whether [Codec.Marshal] in [mode] runs both engines, given the errors
    they return. *)
Definition marshalRunsBoth (mode : CallMode) (err1 err2 : error) : bool :=
  (mode =? CallBothButReturnV1) || (mode =? CallBothButReturnV2)
  || ((mode =? CallV1ButUponErrorReturnV2) && isErr err1)
  || ((mode =? CallV2ButUponErrorReturnV1) && isErr err2).

(** Whether the dual path returns the result of v1. *)
Definition returnsV1 (mode : CallMode) : bool :=
  (mode =? CallBothButReturnV1) || (mode =? CallV2ButUponErrorReturnV1).

(** The two engine calls of the dual path of [Codec.Marshal], in the
    order [mode] makes them. *)
Definition marshalEngineCalls (mode : CallMode) (v : any) (o : list Options)
    : list Event :=
  if mode =? CallV2ButUponErrorReturnV1
  then [CallV2Marshal v o; v1MarshalCall v o]
  else [v1MarshalCall v o; CallV2Marshal v o].

(** The [Difference] that [Codec.Marshal] reports. *)
Definition marshalDifference (orc : Oracle) (v : any) (buf1 : bytes)
    (err1 : error) (buf2 : bytes) (err2 : error) (options : Options)
    : Difference :=
  {| Caller := runtime_caller orc;
     Func := "Marshal";
     DiffGoType := reflect_TypeOf v;
     JSONValue := EmptyString;
     JSONValueV1 := buf1;
     JSONValueV2 := buf2;
     GoValue := v;
     GoValueV1 := Nil;
     GoValueV2 := Nil;
     ErrorV1 := err1;
     ErrorV2 := err2;
     DiffOptions := options |}.

(** What the check for differences of [Codec.Marshal] leaves in the log
    after the two engine calls: the comparison of the outputs, that of the
    errors if the outputs agree, and on a difference the probes of the
    option detection and the report. *)
Definition marshalCheckLog (c : Codec) (orc : Oracle) (v : any)
    (buf1 : bytes) (err1 : error) (buf2 : bytes) (err2 : error)
    (probes : list Event) (options : Options) : list Event :=
  [CallJsonEqual buf1 buf2]
  ++ (if jsonSame c buf1 buf2 then [CallErrorsEqual err1 err2] else [])
  ++ (if jsonSame c buf1 buf2 && errorsSame c err1 err2 then []
      else probes ++
           (if ReportDifference c
            then [CallReportDifference
                    (marshalDifference orc v buf1 err1 buf2 err2 options)]
            else [])).

(** What the closure that [Codec.Marshal] hands to [autoDetectOptions]
    answers for the options [os], while the Go values are [h]: whether v2
    under [os] gives the output and the error of v1. *)
Definition marshalAgrees (c : Codec) (v : any) (buf1 : bytes) (err1 : error)
    (h : Heap) (os : list Options) : bool :=
  let '(buf2, err2) := jsonv2_Marshal v os h in
  jsonSame c buf1 buf2 && errorsSame c err1 err2.

(** An option histogram after [Add(name, 1)] for each of [names]. *)
Definition addOptions (g : gmap string Z) (names : list string)
    : gmap string Z :=
  foldl (λ g name, expvarMap_Add g name 1) g names.

(** What [MarshalTail] has done to the metrics and the log when it
    returns. *)
Record MarshalTailPost (c : Codec) (orc : Oracle) (v : any)
    (o : list Options) (mode : CallMode) (buf1 : bytes) (err1 : error) (buf2 : bytes)
    (err2 : error) (dur1 dur2 : Z) (w w' : World) : Prop := {
  mtp_callBoth :
    ints (metrics w') NumMarshalCallBoth
    = int64_add (ints (metrics w) NumMarshalCallBoth) 1;
  mtp_execV1 :
    ints (metrics w') ExecTimeMarshalV1Nanos
    = int64_add (ints (metrics w) ExecTimeMarshalV1Nanos) dur1;
  mtp_execV2 :
    ints (metrics w') ExecTimeMarshalV2Nanos
    = int64_add (ints (metrics w) ExecTimeMarshalV2Nanos) dur2;
  mtp_returnV1 :
    ints (metrics w') NumMarshalReturnV1
    = (if returnsV1 mode
       then int64_add (ints (metrics w) NumMarshalReturnV1) 1
       else ints (metrics w) NumMarshalReturnV1);
  mtp_returnV2 :
    ints (metrics w') NumMarshalReturnV2
    = (if returnsV1 mode
       then ints (metrics w) NumMarshalReturnV2
       else int64_add (ints (metrics w) NumMarshalReturnV2) 1);
  mtp_diffs :
    ints (metrics w') NumMarshalDiffs
    = (if jsonSame c buf1 buf2 && errorsSame c err1 err2
       then ints (metrics w) NumMarshalDiffs
       else int64_add (ints (metrics w) NumMarshalDiffs) 1);
  mtp_others : forall k,
    k ∉ [NumMarshalCallBoth; ExecTimeMarshalV1Nanos; ExecTimeMarshalV2Nanos;
         NumMarshalReturnV1; NumMarshalReturnV2; NumMarshalDiffs] ->
    ints (metrics w') k = ints (metrics w) k;
  mtp_callers :
    MarshalCallerHistogram (metrics w')
    = (if jsonSame c buf1 buf2 && errorsSame c err1 err2
       then MarshalCallerHistogram (metrics w)
       else expvarMap_Add (MarshalCallerHistogram (metrics w))
                          (runtime_caller orc) 1);
  mtp_options :
    jsonSame c buf1 buf2 && errorsSame c err1 err2 = true \/
    AutoDetectOptions c = false ->
    MarshalOptionHistogram (metrics w') = MarshalOptionHistogram (metrics w);
  mtp_calls : exists probes options,
    calls w' = calls w ++
      marshalCheckLog c orc v buf1 err1 buf2 err2 probes options /\
    Forall (λ e, isMarshalEvent e && negb (isReport e) = true) probes /\
    (AutoDetectOptions c = false -> probes = [] /\ options = NilOptions) /\
    (jsonSame c buf1 buf2 && errorsSame c err1 err2 = false ->
     AutoDetectOptions c = true ->
     autoDetectOptions (S := unit)
       (λ os, ret (marshalAgrees c v buf1 err1 (heap w) os))
       (rangeOrder orc) o tt = Some (options, tt) /\
     MarshalOptionHistogram (metrics w')
       = addOptions (MarshalOptionHistogram (metrics w))
                    (optionNames options));
}.
End Footprints.

(** ** Collaborators for trying the detection of options out *)

(** A codec that detects options and reports. *)
Definition detectingCodec : Codec (H := exampleGoValues) :=
  {| AutoDetectOptions := true;
     ReportDifference := true;
     EqualJSONValues := None;
     EqualGoValues := None;
     EqualErrors := None;
     CloneGoValue := None |}.

(** Engines whose v2 encoder writes what v1 writes exactly when its
    options allow invalid UTF-8. *)
Definition optionEngines : Engines (H := exampleGoValues) :=
  {| jsonv1std_Marshal := λ _ _, ("1"%string, None);
     jsonv2_Marshal := λ _ os _,
       ((if needsInvalidUTF8 os then "1" else "2")%string, None);
     jsonv1std_Unmarshal := jsonv1std_Unmarshal (Engines := exampleEngines);
     jsonv2_Unmarshal := jsonv2_Unmarshal (Engines := exampleEngines) |}.

(** * Properties *)

(** ** Machine integers *)

Lemma int64_add_small a b :
  int_range (a + b) -> int64_add a b = a + b.
Proof.
  unfold int_range, int64_add. intros Hr.
  rewrite Z.mod_small by lia. lia.
Qed.

Lemma testbit_above a k n :
  0 <= a < 2 ^ k -> k <= n -> Z.testbit a n = false.
Proof.
  intros [Ha Hlt] Hn.
  destruct (Z.eq_dec a 0) as [->|Hne]; [apply Z.bits_0|].
  apply Z.bits_above_log2; [lia|].
  assert (Z.log2 a < k); [|lia].
  apply Z.log2_lt_pow2; lia.
Qed.

Lemma land_ones_small a k :
  0 <= k -> 0 <= a < 2 ^ k -> Z.land a (Z.ones k) = a.
Proof.
  intros Hk Ha. rewrite Z.land_ones by lia. apply Z.mod_small. lia.
Qed.

(** ** The packed word *)

Lemma callModes_range (m : CallMode) : m ∈ callModes <-> 0 <= m < 6.
Proof.
  unfold callModes, OnlyCallV1, CallV1ButUponErrorReturnV2, CallBothButReturnV1,
    CallBothButReturnV2, CallV2ButUponErrorReturnV1, OnlyCallV2.
  rewrite !elem_of_cons, elem_of_nil. lia.
Qed.

Lemma checkValid_Some (m : CallMode) : checkValid m = Some tt <-> m ∈ callModes.
Proof.
  rewrite callModes_range. unfold checkValid, maxCallMode.
  destruct (Z.ltb_spec m 0), (Z.geb_spec m 6); simpl; split; intros; try lia;
    try discriminate; reflexivity.
Qed.

Lemma checkValid_None (m : CallMode) : checkValid m = None <-> m ∉ callModes.
Proof.
  rewrite <- checkValid_Some.
  destruct (checkValid m) as [[]|]; split; intros; try congruence; tauto.
Qed.

Lemma lor_disjoint a b : Z.land a b = 0 -> Z.lor a b = a + b.
Proof.
  intros Hd. rewrite <- Z.lxor_lor by assumption.
  symmetry. apply Z.add_nocarry_lxor. assumption.
Qed.

Lemma land_shiftl_disjoint a b k :
  0 <= k -> 0 <= a < 2 ^ k -> Z.land a (Z.shiftl b k) = 0.
Proof.
  intros Hk Ha. apply Z.bits_inj'. intros n Hn.
  rewrite Z.land_spec, Z.shiftl_spec, Z.bits_0 by lia.
  destruct (Z.lt_ge_cases n k).
  - rewrite (Z.testbit_neg_r b) by lia. apply andb_false_r.
  - rewrite (testbit_above a k) by lia. reflexivity.
Qed.

(** The word is the three fields laid side by side. *)
Lemma packModeRatio_sum m1 m2 ratio :
  0 <= m1 < 2 ^ 16 -> 0 <= m2 < 2 ^ 16 -> float32_wf ratio ->
  packModeRatio m1 m2 ratio = m1 + 2 ^ 16 * m2 + 2 ^ 32 * ratio.
Proof.
  unfold float32_wf, packModeRatio, shl64, uint64, Float32bits.
  intros H1 H2 Hr.
  change 0xffff with (Z.ones 16).
  rewrite !land_ones_small by lia.
  rewrite (Z.mod_small m1), (Z.mod_small m2), (Z.mod_small ratio) by lia.
  rewrite Z.lor_0_l, Z.shiftl_0_r, (Z.mod_small m1) by lia.
  assert (Hm2 : Z.shiftl m2 16 = 2 ^ 16 * m2)
    by (rewrite Z.shiftl_mul_pow2; lia).
  assert (Hrr : Z.shiftl ratio 32 = 2 ^ 32 * ratio)
    by (rewrite Z.shiftl_mul_pow2; lia).
  rewrite (Z.mod_small (Z.shiftl m2 16)), (Z.mod_small (Z.shiftl ratio 32)) by lia.
  rewrite (lor_disjoint m1) by (apply land_shiftl_disjoint; lia).
  rewrite lor_disjoint by (apply land_shiftl_disjoint; lia).
  lia.
Qed.

Lemma unpack_pack m1 m2 ratio :
  0 <= m1 < 2 ^ 16 -> 0 <= m2 < 2 ^ 16 -> float32_wf ratio ->
  unpackModeRatio (packModeRatio m1 m2 ratio) = (m1, m2, ratio).
Proof.
  intros H1 H2 Hr. rewrite packModeRatio_sum by assumption.
  unfold float32_wf in Hr.
  unfold unpackModeRatio, Float32frombits, uint32.
  change 0xffff with (Z.ones 16).
  rewrite !Z.land_ones, !Z.shiftr_div_pow2 by lia.
  repeat f_equal.
  - rewrite Z.pow_0_r, Z.div_1_r.
    replace (m1 + 2 ^ 16 * m2 + 2 ^ 32 * ratio)
      with (m1 + (m2 + 2 ^ 16 * ratio) * 2 ^ 16) by lia.
    rewrite Z.mod_add by lia. apply Z.mod_small. lia.
  - replace (m1 + 2 ^ 16 * m2 + 2 ^ 32 * ratio)
      with (m1 + (m2 + 2 ^ 16 * ratio) * 2 ^ 16) by lia.
    rewrite Z.div_add, (Z.div_small m1) by lia.
    rewrite Z.add_0_l.
    replace (m2 + 2 ^ 16 * ratio) with (m2 + ratio * 2 ^ 16) by lia.
    rewrite Z.mod_add by lia. apply Z.mod_small. lia.
  - replace (m1 + 2 ^ 16 * m2 + 2 ^ 32 * ratio)
      with ((m1 + 2 ^ 16 * m2) + ratio * 2 ^ 32) by lia.
    rewrite Z.div_add, (Z.div_small (m1 + 2 ^ 16 * m2)) by lia.
    rewrite Z.add_0_l. apply Z.mod_small. lia.
Qed.

(** ** binary32 *)

Lemma f32_exp_range b : 0 <= f32_exp b < 256.
Proof.
  unfold f32_exp. change 255 with (Z.ones 8).
  rewrite Z.land_ones by lia. apply Z.mod_pos_bound. lia.
Qed.

Lemma f32_frac_range b : 0 <= f32_frac b < 2 ^ 23.
Proof.
  unfold f32_frac. rewrite Z.land_ones by lia. apply Z.mod_pos_bound. lia.
Qed.

Lemma f32_decode_finite b s m e :
  f32_decode b = S754_finite s m e -> f32_sign b = s /\ canonical32 m e.
Proof.
  unfold f32_decode, canonical32.
  pose proof (f32_exp_range b) as He. pose proof (f32_frac_range b) as Hf.
  destruct (Z.eqb_spec (f32_exp b) 0) as [E0|E0].
  - destruct (f32_frac b) eqn:Hfr; intros Hd; inversion Hd; subst.
    split; [reflexivity|]. left. lia.
  - destruct (Z.eqb_spec (f32_exp b) 255) as [E1|E1].
    + destruct (f32_frac b =? 0); discriminate.
    + destruct (f32_frac b + 2 ^ 23) eqn:Hfr; intros Hd; inversion Hd; subst.
      split; [reflexivity|]. right. lia.
Qed.

Lemma f32_decode_f32_zero : f32_decode f32_zero = S754_zero false.
Proof. vm_compute. reflexivity. Qed.

Lemma f32_decode_f32_one : f32_decode f32_one = S754_finite false 8388608 (-23).
Proof. vm_compute. reflexivity. Qed.

Lemma pow2_pos k : 0 <= k -> 0 < 2 ^ k.
Proof. intros. apply Z.pow_pos_nonneg; lia. Qed.

Lemma SFcompare_one m e :
  canonical32 m e ->
  SFcompare (S754_finite false m e) (S754_finite false 8388608 (-23))
  = Some (Zpos m * 2 ^ (e + 149) ?= scaled_one).
Proof.
  unfold canonical32, scaled_one. intros Hc. cbn [SFcompare].
  f_equal.
  assert (Hnn : 0 <= e + 149) by lia.
  assert (Hm24 : Zpos m < 2 ^ 24) by lia.
  destruct (Z.compare_spec e (-23)) as [Heq|Hlt|Hgt].
  - subst e. change (-23 + 149) with 126.
    change 149 with (23 + 126). rewrite Z.pow_add_r by lia.
    pose proof (pow2_pos 126 ltac:(lia)) as Hp. revert Hp.
    generalize (2 ^ 126). intros P HP.
    rewrite <- Zmult_compare_compat_r by lia.
    replace (2 ^ 23) with 8388608 by (vm_compute; reflexivity).
    cbn [Z.compare]. unfold Pos.compare. exact eq_refl.
  - symmetry. apply Z.compare_lt_iff.
    assert (E : 2 ^ 149 = 2 ^ (- e) * 2 ^ (e + 149)).
    { rewrite <- Z.pow_add_r by lia. f_equal. lia. }
    rewrite E.
    pose proof (pow2_pos (e + 149) Hnn) as Hp. revert Hp.
    generalize (2 ^ (e + 149)). intros P HP.
    apply Z.mul_lt_mono_pos_r; [exact HP|].
    apply Z.lt_le_trans with (2 ^ 24); [exact Hm24|].
    apply Z.pow_le_mono_r; lia.
  - symmetry. apply Z.compare_gt_iff.
    assert (Hm : 2 ^ 23 <= Zpos m) by lia.
    assert (E : 2 ^ (e + 149) = 2 ^ (e + 23) * 2 ^ 126).
    { rewrite <- Z.pow_add_r by lia. f_equal. lia. }
    rewrite E. change 149 with (23 + 126). rewrite (Z.pow_add_r 2 23 126) by lia.
    rewrite Z.mul_assoc.
    pose proof (pow2_pos 126 ltac:(lia)) as Hp. revert Hp.
    generalize (2 ^ 126). intros P HP.
    apply Z.mul_lt_mono_pos_r; [exact HP|].
    assert (Hq : 2 <= 2 ^ (e + 23)).
    { change 2 with (2 ^ 1) at 1. apply Z.pow_le_mono_r; lia. }
    revert Hq. generalize (2 ^ (e + 23)). intros Q HQ. nia.
Qed.

Lemma go_max32_zero_l ratio :
  go_max32 f32_zero ratio =
  match f32_decode ratio with
  | S754_nan => ratio
  | S754_zero _ => f32_zero
  | S754_infinity s | S754_finite s _ _ => if s then f32_zero else ratio
  end.
Proof.
  unfold go_max32, f32_isNaN, f32_lt. rewrite f32_decode_f32_zero.
  destruct (f32_decode ratio) as [[]|[]| |[] m e];
    cbn [SFltb SFcompare]; try reflexivity.
Qed.

Lemma go_min32_zero_one : go_min32 f32_zero f32_one = f32_zero.
Proof.
  unfold go_min32, f32_isNaN, f32_lt.
  rewrite f32_decode_f32_zero, f32_decode_f32_one. reflexivity.
Qed.

Lemma go_min32_one ratio m e :
  f32_decode ratio = S754_finite false m e ->
  go_min32 ratio f32_one =
  if Zpos m * 2 ^ (e + 149) <? scaled_one then ratio else f32_one.
Proof.
  intros Hd. apply f32_decode_finite in Hd as Hsc. destruct Hsc as [Hs Hc].
  unfold go_min32, f32_isNaN, f32_lt, SFltb.
  rewrite f32_decode_f32_one, Hd, Hs, (SFcompare_one m e Hc).
  unfold Z.ltb.
  destruct (Zpos m * 2 ^ (e + 149) ?= scaled_one); try reflexivity;
    destruct (SFcompare _ _) as [[]|]; reflexivity.
Qed.

Lemma f32_ne_self ratio s m e :
  f32_decode ratio = S754_finite s m e -> f32_ne ratio ratio = false.
Proof.
  intros Hd. unfold f32_ne, f32_eq, SFeqb. rewrite Hd.
  cbn [SFcompare]. rewrite Z.compare_refl.
  fold (Pos.compare m m). rewrite Pos.compare_refl.
  destruct s; reflexivity.
Qed.

(** The range check of [storeModeRatio]. *)
Local Abbreviation ratioCheck ratio :=
  (f32_ne ratio (go_min32 (go_max32 f32_zero ratio) f32_one)).

Lemma scaled_pos m e : canonical32 m e -> 0 < Zpos m * 2 ^ (e + 149).
Proof.
  intros Hc. apply Z.mul_pos_pos; [lia|]. apply pow2_pos.
  destruct Hc as [[-> _]|[? _]]; lia.
Qed.

Lemma ratioCheck_in_unit ratio :
  ratioCheck ratio = false <-> f32_in_unit ratio.
Proof.
  unfold f32_in_unit, f32_scaled.
  rewrite go_max32_zero_l.
  destruct (f32_decode ratio) as [s|s| |s m e] eqn:Hd.
  - rewrite go_min32_zero_one. unfold f32_ne, f32_eq, SFeqb.
    rewrite Hd, f32_decode_f32_zero. cbn [SFcompare SF2scaled negb].
    split; [|reflexivity].
    intros _. exists 0. split; [reflexivity|].
    split; [lia|]. apply Z.lt_le_incl, pow2_pos. lia.
  - split; [|intros (k & Hk & _); discriminate].
    destruct s.
    + rewrite go_min32_zero_one. unfold f32_ne, f32_eq, SFeqb.
      rewrite Hd, f32_decode_f32_zero. discriminate.
    + unfold go_min32, f32_isNaN, f32_lt, f32_ne, f32_eq, SFeqb, SFltb.
      rewrite Hd, f32_decode_f32_one. cbn [SFcompare].
      rewrite f32_decode_f32_one. discriminate.
  - split; [|intros (k & Hk & _); discriminate].
    unfold f32_ne, f32_eq, SFeqb. rewrite Hd. discriminate.
  - apply f32_decode_finite in Hd as Hsc. destruct Hsc as [Hs Hc].
    pose proof (scaled_pos m e Hc) as Hpos.
    cbn [SF2scaled].
    destruct s.
    + rewrite go_min32_zero_one. unfold f32_ne, f32_eq, SFeqb.
      rewrite Hd, f32_decode_f32_zero. cbn [SFcompare negb].
      split; [discriminate|].
      intros (k & Hk & Hr). inversion Hk. lia.
    + rewrite (go_min32_one ratio m e Hd).
      destruct (Z.ltb_spec (Zpos m * 2 ^ (e + 149)) scaled_one) as [Hlt|Hge].
      * rewrite (f32_ne_self ratio _ _ _ Hd). split; [|reflexivity].
        intros _. eexists; split; [reflexivity|]. lia.
      * unfold f32_ne, f32_eq, SFeqb.
        rewrite Hd, f32_decode_f32_one, (SFcompare_one m e Hc).
        destruct (Z.compare_spec (Zpos m * 2 ^ (e + 149)) scaled_one)
          as [Heq|Hlt|Hgt]; cbn [negb].
        -- split; [|reflexivity]. intros _.
           eexists; split; [reflexivity|]. lia.
        -- lia.
        -- split; [discriminate|].
           intros (k & Hk & Hr). inversion Hk. lia.
Qed.

Lemma storeModeRatio_Some p m1 m2 ratio p' :
  storeModeRatio p m1 m2 ratio = Some p' <->
  m1 ∈ callModes /\ m2 ∈ callModes /\ f32_in_unit ratio /\
  p' = Store p (packModeRatio m1 m2 ratio).
Proof.
  unfold storeModeRatio.
  rewrite <- !checkValid_Some, <- ratioCheck_in_unit.
  destruct (checkValid m1) as [[]|], (checkValid m2) as [[]|];
    cbn [mbind option_bind];
    try (split; [discriminate|intros (? & ? & _); discriminate]).
  destruct (f32_ne ratio _).
  - split; [discriminate|intros (_ & _ & ? & _); discriminate].
  - split.
    + intros Hs. inversion Hs. auto.
    + intros (_ & _ & _ & ->). reflexivity.
Qed.

Lemma loadModeRatio_Store p m1 m2 ratio :
  m1 ∈ callModes -> m2 ∈ callModes -> float32_wf ratio ->
  loadModeRatio (Store p (packModeRatio m1 m2 ratio)) = (m1, m2, ratio).
Proof.
  rewrite !callModes_range. intros H1 H2 Hr.
  unfold loadModeRatio, Load, Store, Uint64.
  apply unpack_pack; [lia|lia|assumption].
Qed.

(** C4.  [storeModeRatio] panics exactly when a mode is outside the six
    declared modes or the ratio is not a number in [0, 1] (NaN and the
    infinities included); otherwise the word becomes mode1 in bits 0-15,
    mode2 in bits 16-31 and the ratio's float32 bits in bits 32-63. *)
Theorem storeModeRatio_panics_iff p m1 m2 ratio :
  float32_wf ratio ->
  (storeModeRatio p m1 m2 ratio = None <->
   m1 ∉ callModes \/ m2 ∉ callModes \/ ~ f32_in_unit ratio) /\
  (forall p', storeModeRatio p m1 m2 ratio = Some p' ->
     Uint64 p' = m1 + 2 ^ 16 * m2 + 2 ^ 32 * ratio).
Proof.
  intros Hwf. split.
  - destruct (storeModeRatio p m1 m2 ratio) as [p'|] eqn:Hs.
    + apply storeModeRatio_Some in Hs as (H1 & H2 & Hu & _).
      split; [discriminate|]. tauto.
    + split; [intros _|reflexivity].
      destruct (decide (m1 ∈ callModes)) as [H1|H1]; [|tauto].
      destruct (decide (m2 ∈ callModes)) as [H2|H2]; [|tauto].
      right. right. intros Hu.
      assert (Hc : storeModeRatio p m1 m2 ratio
                   = Some (Store p (packModeRatio m1 m2 ratio)))
        by (apply storeModeRatio_Some; auto).
      congruence.
  - intros p' Hs. apply storeModeRatio_Some in Hs as (H1 & H2 & _ & ->).
    apply callModes_range in H1, H2.
    unfold Store, Uint64. apply packModeRatio_sum; [lia|lia|assumption].
Qed.

Lemma storeModeRatio_panics_iff_witness :
  (storeModeRatio zeroModeRatio 2 3 0x3f000000 = None <->
   2 ∉ callModes \/ 3 ∉ callModes \/ ~ f32_in_unit 0x3f000000) /\
  (forall p', storeModeRatio zeroModeRatio 2 3 0x3f000000 = Some p' ->
     Uint64 p' = 2 + 2 ^ 16 * 3 + 2 ^ 32 * 0x3f000000).
Proof.
  apply (storeModeRatio_panics_iff zeroModeRatio 2 3 0x3f000000).
  unfold float32_wf. lia.
Defined.

(** C5.  For valid modes and a ratio in [0, 1], a store followed by a load
    gives back the two modes and the float32 ratio, bit for bit. *)
Theorem store_load_roundtrip p m1 m2 ratio :
  float32_wf ratio -> m1 ∈ callModes -> m2 ∈ callModes -> f32_in_unit ratio ->
  exists p', storeModeRatio p m1 m2 ratio = Some p' /\
             loadModeRatio p' = (m1, m2, ratio).
Proof.
  intros Hwf H1 H2 Hu.
  exists (Store p (packModeRatio m1 m2 ratio)). split.
  - apply storeModeRatio_Some. auto.
  - apply loadModeRatio_Store; assumption.
Qed.

Lemma half_in_unit : f32_in_unit 0x3f000000.
Proof.
  exists (8388608 * 2 ^ 125). split; [vm_compute; reflexivity|].
  vm_compute. split; discriminate.
Defined.

Lemma store_load_roundtrip_witness :
  exists p', storeModeRatio zeroModeRatio 2 3 0x3f000000 = Some p' /\
             loadModeRatio p' = (2, 3, 0x3f000000).
Proof.
  apply (store_load_roundtrip zeroModeRatio 2 3 0x3f000000).
  - unfold float32_wf. lia.
  - apply callModes_range. lia.
  - apply callModes_range. lia.
  - exact half_in_unit.
Defined.

Lemma f32_scaled_zero x :
  f32_scaled x = Some 0 -> exists s, f32_decode x = S754_zero s.
Proof.
  unfold f32_scaled. destruct (f32_decode x) as [s|s| |s m e] eqn:Hd;
    cbn [SF2scaled]; try discriminate.
  - eauto.
  - apply f32_decode_finite in Hd as [_ Hc].
    pose proof (scaled_pos m e Hc). intros Hk. inversion Hk. destruct s; lia.
Qed.

Lemma f32_scaled_nonneg x k :
  f32_scaled x = Some k -> 0 <= k ->
  (exists s, f32_decode x = S754_zero s) \/
  (exists m e, f32_decode x = S754_finite false m e /\ canonical32 m e /\
               k = Zpos m * 2 ^ (e + 149)).
Proof.
  unfold f32_scaled. destruct (f32_decode x) as [s|s| |s m e] eqn:Hd;
    cbn [SF2scaled]; try discriminate.
  - eauto.
  - apply f32_decode_finite in Hd as [_ Hc].
    pose proof (scaled_pos m e Hc). intros Hk Hnn. inversion Hk.
    destruct s; [lia|]. right. exists m, e. split; [reflexivity|]. split; [assumption|lia].
Qed.

Lemma f32_lt_one x k :
  f32_scaled x = Some k -> 0 <= k -> f32_lt x f32_one = (k <? scaled_one).
Proof.
  intros Hk Hnn. unfold f32_lt, SFltb. rewrite f32_decode_f32_one.
  destruct (f32_scaled_nonneg x k Hk Hnn) as [[s Hd]|(m & e & Hd & Hc & ->)].
  - unfold f32_scaled in Hk. rewrite Hd in *. inversion Hk.
    destruct s; reflexivity.
  - rewrite Hd, (SFcompare_one m e Hc). unfold Z.ltb.
    destruct (_ ?= _); reflexivity.
Qed.

Lemma f32_ge_zero r ratio :
  f32_in_unit_open r -> f32_scaled ratio = Some 0 -> f32_ge r ratio = true.
Proof.
  intros (k & Hk & Hr) Hz. apply f32_scaled_zero in Hz as [s Hs].
  unfold f32_ge, SFleb. rewrite Hs.
  destruct (f32_scaled_nonneg r k Hk ltac:(lia)) as [[s' Hd]|(m & e & Hd & _)];
    rewrite Hd; destruct s; reflexivity.
Qed.

(** C3.  After a successful store of (mode1, mode2, ratio), whatever
    [rand.Float32] draws in [0, 1), [loadRandomMode] returns mode1 or mode2;
    it returns mode1 when the ratio is 0 and mode2 when the ratio is 1. *)
Theorem loadRandomMode_spec p m1 m2 ratio p' r :
  float32_wf ratio ->
  storeModeRatio p m1 m2 ratio = Some p' ->
  f32_in_unit_open r ->
  loadRandomMode p' r ∈ [m1; m2] /\
  (f32_scaled ratio = Some 0 -> loadRandomMode p' r = m1) /\
  (f32_scaled ratio = Some scaled_one -> loadRandomMode p' r = m2).
Proof.
  intros Hwf Hs Hr.
  apply storeModeRatio_Some in Hs as (H1 & H2 & Hu & ->).
  unfold loadRandomMode. rewrite loadModeRatio_Store by assumption.
  split; [|split].
  - rewrite !elem_of_cons. destruct (_ && _); auto.
  - intros Hz. rewrite (f32_lt_one ratio 0 Hz) by lia.
    rewrite (f32_ge_zero r ratio Hr Hz).
    assert (Hone : (0 <? scaled_one) = true).
    { apply Z.ltb_lt, pow2_pos. lia. }
    rewrite Hone. reflexivity.
  - intros Hone.
    assert (Hnn : 0 <= scaled_one) by (apply Z.lt_le_incl, pow2_pos; lia).
    rewrite (f32_lt_one ratio scaled_one Hone Hnn), Z.ltb_irrefl.
    reflexivity.
Qed.

Lemma quarter_in_unit_open : f32_in_unit_open 0x3e800000.
Proof.
  exists (8388608 * 2 ^ 124). split; [vm_compute; reflexivity|].
  vm_compute. split; [discriminate|reflexivity].
Defined.

Lemma storeModeRatio_half :
  storeModeRatio zeroModeRatio 2 3 0x3f000000
  = Some {| Uint64 := 4539628424389656578 |}.
Proof. vm_compute. reflexivity. Defined.

Lemma loadRandomMode_spec_witness :
  loadRandomMode {| Uint64 := 4539628424389656578 |} 0x3e800000 ∈ [2; 3] /\
  (f32_scaled 0x3f000000 = Some 0 ->
   loadRandomMode {| Uint64 := 4539628424389656578 |} 0x3e800000 = 2) /\
  (f32_scaled 0x3f000000 = Some scaled_one ->
   loadRandomMode {| Uint64 := 4539628424389656578 |} 0x3e800000 = 3).
Proof.
  apply (loadRandomMode_spec zeroModeRatio 2 3 0x3f000000
           {| Uint64 := 4539628424389656578 |} 0x3e800000).
  - unfold float32_wf. lia.
  - exact storeModeRatio_half.
  - exact quarter_in_unit_open.
Defined.

(** ** SizeHistogram *)

Lemma bits_Len_fuel_0 fuel : bits_Len_fuel fuel 0 = 0.
Proof. destruct fuel; reflexivity. Qed.

Lemma bits_Len_fuel_log2 fuel x :
  0 < x < 2 ^ Z.of_nat fuel -> bits_Len_fuel fuel x = Z.log2 x + 1.
Proof.
  revert x. induction fuel as [|fuel IH]; intros x Hx.
  - change (2 ^ Z.of_nat 0) with 1 in Hx. lia.
  - cbn [bits_Len_fuel].
    destruct (Z.eqb_spec x 0) as [->|Hne]; [lia|].
    rewrite Nat2Z.inj_succ, Z.pow_succ_r in Hx by lia.
    destruct (Z.eq_dec x 1) as [->|H1].
    + change (Z.shiftr 1 1) with 0. rewrite bits_Len_fuel_0. reflexivity.
    + assert (Hsh : Z.shiftr x 1 = x / 2)
        by (rewrite Z.shiftr_div_pow2 by lia; reflexivity).
      rewrite IH.
      * rewrite Z.log2_shiftr by lia.
        assert (1 <= Z.log2 x) by (apply Z.log2_le_pow2; lia).
        lia.
      * rewrite Hsh. split.
        -- apply Z.div_str_pos. lia.
        -- apply Z.div_lt_upper_bound; lia.
Qed.

Lemma sizeBucket_spec n :
  int_range n ->
  sizeBucket n = Z.to_nat (if n <=? 0 then 0 else Z.log2 n + 1).
Proof.
  unfold int_range, sizeBucket, bits_Len, uint64. intros Hn.
  assert (H63 : (2:Z) ^ 63 < 2 ^ 64) by (apply Z.pow_lt_mono_r; lia).
  rewrite Z.mod_small by lia.
  destruct (Z.leb_spec n 0) as [Hle|Hgt].
  - rewrite Z.max_r by lia. rewrite bits_Len_fuel_0. reflexivity.
  - rewrite Z.max_l by lia. rewrite bits_Len_fuel_log2; [reflexivity|].
    change (Z.of_nat (Z.to_nat UintSize)) with 64. lia.
Qed.

Lemma log2_int_range n : 0 < n -> int_range n -> Z.log2 n + 1 <= 63.
Proof.
  unfold int_range. intros Hpos Hn.
  assert (Z.log2 n < 63) by (apply Z.log2_lt_pow2; lia). lia.
Qed.

(** C7.  [insertSize(n)] adds one to the bucket floor(log2 n) + 1 when
    n >= 1 and to bucket 0 when n <= 0, and to no other; sizes 0, 1 and 2 go
    to buckets 0, 1 and 2 and size 16 goes to bucket 5. *)
Theorem insertSize_bucket h n :
  SizeHistogram_wf h -> int_range n ->
  let i := Z.to_nat (if n <=? 0 then 0 else Z.log2 n + 1) in
  (exists c, h !! i = Some c /\
     insertSize h n = Some (<[i := int64_add c 1]> h) /\
     (<[i := int64_add c 1]> h) !! i = Some (int64_add c 1) /\
     (forall j, j <> i -> (<[i := int64_add c 1]> h) !! j = h !! j)) /\
  (1 <= n -> 2 ^ (Z.of_nat i - 1) <= n < 2 ^ Z.of_nat i) /\
  sizeBucket 0 = 0%nat /\ sizeBucket 1 = 1%nat /\ sizeBucket 2 = 2%nat /\
  sizeBucket 16 = 5%nat.
Proof.
  intros Hwf Hn i.
  assert (Hi : (i < length h)%nat).
  { unfold SizeHistogram_wf in Hwf. rewrite Hwf. subst i.
    change (Z.to_nat (UintSize + 1)) with 65%nat.
    destruct (Z.leb_spec n 0); [lia|].
    pose proof (log2_int_range n ltac:(lia) Hn).
    pose proof (Z.log2_nonneg n). lia. }
  split; [|split].
  - destruct (lookup_lt_is_Some_2 h i Hi) as [c Hc].
    exists c. split; [exact Hc|]. split; [|split].
    + unfold insertSize. rewrite (sizeBucket_spec n Hn).
      unfold i in Hc. rewrite Hc. reflexivity.
    + apply list_lookup_insert_eq. exact Hi.
    + intros j Hj. apply list_lookup_insert_ne. auto.
  - intros H1. subst i. destruct (Z.leb_spec n 0); [lia|].
    pose proof (Z.log2_nonneg n).
    rewrite Z2Nat.id by lia.
    replace (Z.log2 n + 1 - 1) with (Z.log2 n) by lia.
    replace (Z.log2 n + 1) with (Z.succ (Z.log2 n)) by lia.
    apply Z.log2_spec. lia.
  - repeat split; vm_compute; reflexivity.
Qed.

Lemma insertSize_bucket_witness :
  let i := Z.to_nat (if 16 <=? 0 then 0 else Z.log2 16 + 1) in
  (exists c, SizeHistogram_zero !! i = Some c /\
     insertSize SizeHistogram_zero 16
       = Some (<[i := int64_add c 1]> SizeHistogram_zero) /\
     (<[i := int64_add c 1]> SizeHistogram_zero) !! i = Some (int64_add c 1) /\
     (forall j, j <> i ->
        (<[i := int64_add c 1]> SizeHistogram_zero) !! j
        = SizeHistogram_zero !! j)) /\
  (1 <= 16 -> 2 ^ (Z.of_nat i - 1) <= 16 < 2 ^ Z.of_nat i) /\
  sizeBucket 0 = 0%nat /\ sizeBucket 1 = 1%nat /\ sizeBucket 2 = 2%nat /\
  sizeBucket 16 = 5%nat.
Proof.
  apply (insertSize_bucket SizeHistogram_zero 16).
  - reflexivity.
  - unfold int_range. lia.
Defined.

(** ** One word, many goroutines *)





(** *** The code of a call *)

(** Run alone, the code of a call does what the function does. *)
Lemma code_runAlone op p :
  runAlone (code op) p
  = match op with
    | OpStore mode1 mode2 ratio =>
        p' ← storeModeRatio p mode1 mode2 ratio; Some (NoResult, p')
    | OpLoad => Some (GotTriple (loadModeRatio p), p)
    | OpLoadRandom r => Some (GotMode (loadRandomMode p r), p)
    end.
Proof.
  destruct op as [m1 m2 ratio| |r]; cbn [code].
  - unfold storeModeRatio_code, storeModeRatio.
    destruct (checkValid m1) as [[]|], (checkValid m2) as [[]|];
      cbn [mbind option_bind runAlone]; try reflexivity.
    destruct (f32_ne ratio _); reflexivity.
  - reflexivity.
  - unfold loadRandomMode_code, loadModeRatio_code, loadRandomMode,
      loadModeRatio. cbn [runAlone].
    destruct (unpackModeRatio (Load p)) as [[m1 m2] ratio]. reflexivity.
Qed.








(** *** The invariant of a run *)
















(** What the single [Store] buys.  With a store in two steps (not the
    package's code) the same machine reaches a run in which a load
    returns (2, 0, 0.0): mode1 of the store in progress with mode2 and
    ratio of the zero value, the triple of no store. *)
Lemma store_in_two_steps_tears :
  rtc (step tornCode) (initial storeAndLoad) torn_end /\
  history torn_end
    = [ Called 0 (OpStore 2 3 0x3f000000); Read 0 0;
        Wrote 0 (OpStore 2 3 0x3f000000) 2; Called 1 OpLoad; Read 1 2 ]
      ++ [Returned 1 (GotTriple (2, 0, f32_zero))] /\
  (2, 0, f32_zero) <> zeroTriple /\
  (2, 0, f32_zero) <> (2, 3, 0x3f000000).
Proof.
  split; [|split; [reflexivity|split; discriminate]].
  unfold initial, storeAndLoad. cbn [fmap list_fmap].
  eapply rtc_l;
    [apply (step_call tornCode _ _ _ 0%nat (OpStore 2 3 0x3f000000) []); reflexivity|].
  eapply rtc_l;
    [eapply (step_load tornCode _ _ _ 0%nat (OpStore 2 3 0x3f000000) _ []); reflexivity|].
  eapply rtc_l;
    [apply (step_store tornCode _ _ _ 0%nat (OpStore 2 3 0x3f000000)
              2 (PStore (packModeRatio 2 3 0x3f000000) (PReturn NoResult))
              []); reflexivity|].
  eapply rtc_l;
    [apply (step_call tornCode _ _ _ 1%nat OpLoad []); reflexivity|].
  eapply rtc_l;
    [eapply (step_load tornCode _ _ _ 1%nat OpLoad _ []); reflexivity|].
  eapply rtc_l;
    [apply (step_return tornCode _ _ _ 1%nat OpLoad
              (GotTriple (2, 0, f32_zero)) []); reflexivity|].
  apply rtc_refl.
Qed.

(** ** autoDetectOptions *)

Section AutoDetectProps.
Context `{V1Defaults} {S : Type}.

Lemma autoDetectLoop_pure (P : list Options → bool) optsCall optsV1 order opts
    (s : S) :
  autoDetectLoop (λ os, ret (P os)) optsCall optsV1 order opts s
  = Some (opts ++ ((λ n, applySetter n true) <$>
                   filter (λ n, necessary P optsCall optsV1 n = true) order), s).
Proof.
  revert opts. induction order as [|name order IH]; intros opts.
  - cbn [autoDetectLoop]. unfold ret. rewrite filter_nil, fmap_nil, app_nil_r.
    reflexivity.
  - cbn [autoDetectLoop]. rewrite filter_cons.
    destruct (GetOption optsCall name).2 eqn:Hg.
    + assert (Hn : necessary P optsCall optsV1 name = false)
        by (unfold necessary; rewrite Hg; reflexivity).
      rewrite decide_False by (rewrite Hn; discriminate). apply IH.
    + unfold bind at 1, ret at 1. rewrite IH.
      destruct (P [optsV1; applySetter name false]) eqn:HP; cbn [negb].
      * assert (Hn : necessary P optsCall optsV1 name = false)
          by (unfold necessary; rewrite Hg, HP; reflexivity).
        rewrite decide_False by (rewrite Hn; discriminate). reflexivity.
      * assert (Hn : necessary P optsCall optsV1 name = true)
          by (unfold necessary; rewrite Hg, HP; reflexivity).
        rewrite decide_True by exact Hn.
        rewrite fmap_cons, <- app_assoc. reflexivity.
Qed.

Lemma foldl_setters_lookup (names : list string) (acc : gmap string bool) name :
  foldl (λ acc o, flagsOf o ∪ acc) acc ((λ n, applySetter n true) <$> names)
    !! name
  = if bool_decide (name ∈ names) then Some true else acc !! name.
Proof.
  revert acc. induction names as [|n names IH]; intros acc.
  - reflexivity.
  - rewrite fmap_cons. cbn [foldl]. rewrite IH.
    destruct (bool_decide_reflect (name ∈ names)) as [Hin|Hnin].
    + rewrite bool_decide_eq_true_2 by (apply elem_of_cons; auto). reflexivity.
    + unfold applySetter. cbn [flagsOf].
      destruct (decide (name = n)) as [->|Hne].
      * rewrite bool_decide_eq_true_2 by (apply elem_of_cons; auto).
        rewrite lookup_union_l'; rewrite lookup_singleton_eq; eauto.
      * rewrite bool_decide_eq_false_2
          by (rewrite elem_of_cons; intros [?|?]; tauto).
        rewrite lookup_union_r by (apply lookup_singleton_ne; auto).
        reflexivity.
Qed.

(** C1.  With a pure equivalence test [P], whatever order the map is
    visited in: if [P] fails on the v1 defaults joined with the caller's
    options, the result is nil; otherwise it is the set holding, with value
    true, exactly the options of [defaultOptionsV1] that the caller did not
    set and whose switching off alone, on top of those defaults, makes [P]
    fail. *)
Theorem autoDetectOptions_spec (P : list Options → bool) (o : list Options)
    (order : list string) (s : S) :
  order ≡ₚ defaultOptionsV1 ->
  let optsCall := JoinOptions o in
  let optsV1 := JoinOptions [DefaultOptionsV1; optsCall] in
  exists r,
    autoDetectOptions (λ os, ret (P os)) order o s = Some (r, s) /\
    (P [optsV1] = false -> r = NilOptions) /\
    (P [optsV1] = true ->
     exists m, r = OptionsStruct m /\
       forall name,
         m !! name =
         if bool_decide (name ∈ defaultOptionsV1)
            && negb (GetOption optsCall name).2
            && negb (P [optsV1; applySetter name false])
         then Some true else None).
Proof.
  intros Hperm optsCall optsV1. unfold autoDetectOptions.
  fold optsCall. fold optsV1. unfold bind at 1, ret at 1.
  destruct (P [optsV1]) eqn:HP; cbn [negb].
  - unfold bind. rewrite autoDetectLoop_pure. unfold ret.
    eexists. split; [reflexivity|]. split; [discriminate|]. intros _.
    eexists. split; [reflexivity|]. intros name.
    rewrite app_nil_l, foldl_setters_lookup, lookup_empty.
    rewrite <- andb_assoc. fold (necessary P optsCall optsV1 name).
    destruct (bool_decide_reflect (name ∈ defaultOptionsV1)) as [Hin|Hnin];
      cbn [andb].
    + destruct (necessary P optsCall optsV1 name) eqn:Hn.
      * rewrite bool_decide_eq_true_2; [reflexivity|].
        apply list_elem_of_filter. split; [exact Hn|]. rewrite Hperm. exact Hin.
      * rewrite bool_decide_eq_false_2; [reflexivity|].
        rewrite list_elem_of_filter. intros [Hn' _]. congruence.
    + rewrite bool_decide_eq_false_2; [reflexivity|].
      rewrite list_elem_of_filter, Hperm. tauto.
  - unfold ret. eexists. split; [reflexivity|]. split; [reflexivity|].
    discriminate.
Qed.
End AutoDetectProps.

Example autoDetectOptions_needsInvalidUTF8 :
  autoDetectOptions (H := exampleV1Defaults)
    (λ os, ret (needsInvalidUTF8 os)) defaultOptionsV1 [] tt
  = Some (OptionsStruct {[ "jsontext.AllowInvalidUTF8"%string := true ]}, tt).
Proof. vm_compute. reflexivity. Qed.

Lemma autoDetectOptions_spec_witness :
  let optsCall := JoinOptions (H := exampleV1Defaults) [] in
  let optsV1 := JoinOptions (H := exampleV1Defaults) [DefaultOptionsV1; optsCall] in
  exists r,
    autoDetectOptions (H := exampleV1Defaults)
      (λ os, ret (needsInvalidUTF8 os)) defaultOptionsV1 [] tt = Some (r, tt) /\
    (needsInvalidUTF8 [optsV1] = false -> r = NilOptions) /\
    (needsInvalidUTF8 [optsV1] = true ->
     exists m, r = OptionsStruct m /\
       forall name,
         m !! name =
         if bool_decide (name ∈ defaultOptionsV1)
            && negb (GetOption (H := exampleV1Defaults) optsCall name).2
            && negb (needsInvalidUTF8 [optsV1; applySetter name false])
         then Some true else None).
Proof.
  apply (autoDetectOptions_spec (H := exampleV1Defaults)
           needsInvalidUTF8 [] defaultOptionsV1 tt).
  reflexivity.
Defined.

(** ** Codec *)

Lemma bits_Len_fuel_bound fuel x : 0 <= bits_Len_fuel fuel x <= Z.of_nat fuel.
Proof.
  revert x. induction fuel as [|fuel IH]; intros x.
  - cbn [bits_Len_fuel]. lia.
  - cbn [bits_Len_fuel]. destruct (x =? 0); [lia|].
    specialize (IH (Z.shiftr x 1)). lia.
Qed.

Lemma insertSize_total h n :
  SizeHistogram_wf h ->
  exists h', insertSize h n = Some h' /\ SizeHistogram_wf h'.
Proof.
  unfold SizeHistogram_wf, insertSize. intros Hwf.
  assert (Hi : (sizeBucket n < length h)%nat).
  { rewrite Hwf. unfold sizeBucket, bits_Len.
    pose proof (bits_Len_fuel_bound (Z.to_nat UintSize) (uint64 (Z.max n 0))) as Hb.
    change (Z.of_nat (Z.to_nat UintSize)) with 64 in Hb.
    change (Z.to_nat (UintSize + 1)) with 65%nat. lia. }
  destruct (lookup_lt_is_Some_2 h _ Hi) as [c Hc].
  rewrite Hc. cbn [mbind option_bind]. eexists. split; [reflexivity|].
  rewrite length_insert. exact Hwf.
Qed.

(** *** Running the monad step by step *)

Section WP.
Context {S : Type}.

Lemma wp_Some {A} (m : ST S A) (Q : A → S → Prop) s :
  wp m Q s <-> exists a s', m s = Some (a, s') /\ Q a s'.
Proof.
  unfold wp. destruct (m s) as [[a s']|].
  - split; [eauto|]. intros (a0 & s0 & Heq & HQ). inversion Heq. subst. exact HQ.
  - split; [tauto|]. intros (a0 & s0 & Heq & _). discriminate.
Qed.

Lemma wp_Some_eq {A} (m : ST S A) (P : S → Prop) (x : A) s :
  wp m (λ a s', a = x /\ P s') s -> exists s', m s = Some (x, s') /\ P s'.
Proof.
  intros Hwp. apply wp_Some in Hwp as (a & s' & Hrun & -> & HP). eauto.
Qed.

Lemma wp_bind {A B} (m : ST S A) (k : A → ST S B) (Q : B → S → Prop) s :
  wp m (λ a s', wp (k a) Q s') s -> wp (bind m k) Q s.
Proof. unfold wp, bind. destruct (m s) as [[a s']|]; auto. Qed.

Lemma wp_ret {A} (a : A) (Q : A → S → Prop) s : Q a s -> wp (ret a) Q s.
Proof. auto. Qed.

Lemma wp_gets {A} (f : S → A) (Q : A → S → Prop) s :
  Q (f s) s -> wp (gets f) Q s.
Proof. auto. Qed.

Lemma wp_modify (f : S → S) (Q : unit → S → Prop) s :
  Q tt (f s) -> wp (modify f) Q s.
Proof. auto. Qed.

Lemma wp_when (b : bool) (m : ST S unit) (Q : unit → S → Prop) s :
  (b = true -> wp m Q s) -> (b = false -> Q tt s) -> wp (when b m) Q s.
Proof. destruct b; cbn [when]; intros Ht Hf; [auto|apply wp_ret; auto]. Qed.

Lemma wp_mono {A} (m : ST S A) (Q Q' : A → S → Prop) s :
  wp m Q s -> (forall a s', Q a s' -> Q' a s') -> wp m Q' s.
Proof. unfold wp. destruct (m s) as [[a s']|]; auto. Qed.

End WP.

Section CodecProps.
Context `{GoValues} `{!Engines} `{V1Defaults}.

Lemma wp_Add c d (Q : unit → World → Prop) w :
  Q tt (set_metrics (set_ints (ints_Add (ints (metrics w)) c d) (metrics w)) w) ->
  wp (Add c d) Q w.
Proof. auto. Qed.

Lemma wp_logCall e (Q : unit → World → Prop) w :
  Q tt (set_calls (calls w ++ [e]) w) -> wp (logCall e) Q w.
Proof. auto. Qed.

Lemma wp_readHeap {A} (f : Heap → A) (Q : A → World → Prop) w :
  Q (f (heap w)) w -> wp (readHeap f) Q w.
Proof. auto. Qed.

Lemma wp_withHeap {A} (f : Heap → A * Heap) (Q : A → World → Prop) w :
  Q (f (heap w)).1 (set_heap (f (heap w)).2 w) -> wp (withHeap f) Q w.
Proof. unfold wp, withHeap. destruct (f (heap w)). auto. Qed.

Lemma wp_insertSize d n (Q : unit → World → Prop) w :
  SizeHistogram_wf (sizeHistogram d (metrics w)) ->
  (forall h, insertSize (sizeHistogram d (metrics w)) n = Some h ->
     SizeHistogram_wf h ->
     Q tt (set_metrics (set_sizeHistogram d h (metrics w)) w)) ->
  wp (SizeHistogram_insertSize d n) Q w.
Proof.
  intros Hwf HQ. destruct (insertSize_total _ n Hwf) as (h & Hins & Hwf').
  unfold wp, SizeHistogram_insertSize. rewrite Hins. auto.
Qed.

Lemma wp_jsonv2Unmarshal b v o (Q : error → World → Prop) w :
  Q (jsonv2_Unmarshal b v o (heap w)).1
    (set_heap (jsonv2_Unmarshal b v o (heap w)).2
       (set_calls (calls w ++ [CallV2Unmarshal b v o]) w)) ->
  wp (jsonv2Unmarshal b v o) Q w.
Proof.
  intros HQ. unfold jsonv2Unmarshal. apply wp_bind, wp_logCall, wp_withHeap.
  exact HQ.
Qed.

Lemma wp_jsonv1Unmarshal b v o (Q : error → World → Prop) w :
  Q (v1UnmarshalRun b v o (heap w)).1
    (set_heap (v1UnmarshalRun b v o (heap w)).2
       (set_calls (calls w ++ [v1UnmarshalCall b v o]) w)) ->
  wp (jsonv1Unmarshal b v o) Q w.
Proof.
  unfold jsonv1Unmarshal, v1UnmarshalRun, v1UnmarshalCall.
  destruct (onlyV1Defaults o); intros HQ.
  - apply wp_bind, wp_logCall, wp_withHeap. exact HQ.
  - apply wp_jsonv2Unmarshal. exact HQ.
Qed.

Lemma wp_jsonv2Marshal v o (Q : bytes * error → World → Prop) w :
  Q (jsonv2_Marshal v o (heap w))
    (set_calls (calls w ++ [CallV2Marshal v o]) w) ->
  wp (jsonv2Marshal v o) Q w.
Proof.
  intros HQ. unfold jsonv2Marshal. apply wp_bind, wp_logCall, wp_readHeap.
  exact HQ.
Qed.

Lemma wp_jsonv1Marshal v o (Q : bytes * error → World → Prop) w :
  Q (v1MarshalRun v o (heap w))
    (set_calls (calls w ++ [v1MarshalCall v o]) w) ->
  wp (jsonv1Marshal v o) Q w.
Proof.
  unfold jsonv1Marshal, v1MarshalRun, v1MarshalCall.
  destruct (onlyV1Defaults o); intros HQ.
  - apply wp_bind, wp_logCall, wp_readHeap. exact HQ.
  - apply wp_jsonv2Marshal. exact HQ.
Qed.

(** Projections of a world through the setters. *)
Ltac world_simpl :=
  cbn [heap marshalCallRatio unmarshalCallRatio metrics calls
       set_heap set_metrics set_calls
       ints MarshalSizeHistogram MarshalCallerHistogram MarshalOptionHistogram
       UnmarshalSizeHistogram UnmarshalCallerHistogram UnmarshalOptionHistogram
       set_ints set_sizeHistogram set_callerHistogram set_optionHistogram
       sizeHistogram callerHistogram optionHistogram fst snd] in *.

Lemma cloneGoValue_run c v w :
  cloneGoValue c v w
  = Some ((cloneRun c v (heap w)).1,
          set_heap (cloneRun c v (heap w)).2
            (set_calls (calls w ++ hookCalls c v) w)).
Proof.
  destruct w as [h mr ur ms cs].
  unfold cloneGoValue, cloneRun, hookResult, hookCalls.
  destruct (CloneGoValue c) as [f|].
  - unfold bind, logCall, modify, withHeap, readHeap, gets, ret. world_simpl.
    destruct (f v h) as [r h1]. world_simpl.
    destruct (notNil r); [reflexivity|]. world_simpl.
    destruct (isPointerToZero v h1); cbn [negb]; [|reflexivity].
    destruct v as [|t p|x]; reflexivity.
  - unfold bind, withHeap, readHeap, gets, ret. world_simpl.
    rewrite app_nil_r. cbn [notNil]. world_simpl.
    destruct (isPointerToZero v h); cbn [negb]; [|reflexivity].
    destruct v as [|t p|x]; reflexivity.
Qed.

Lemma wp_cloneGoValue c v (Q : any → World → Prop) w :
  Q (cloneRun c v (heap w)).1
    (set_heap (cloneRun c v (heap w)).2
       (set_calls (calls w ++ hookCalls c v) w)) ->
  wp (cloneGoValue c v) Q w.
Proof. intros HQ. unfold wp. rewrite cloneGoValue_run. exact HQ. Qed.

Lemma shallowCopy_run dst new w :
  shallowCopy dst new w
  = Some ((shallowCopyRun dst new (heap w)).1,
          set_heap (shallowCopyRun dst new (heap w)).2 w).
Proof.
  destruct w as [h mr ur ms cs].
  unfold shallowCopy, shallowCopyRun.
  destruct dst as [|t1 [l1|]|x1]; try reflexivity;
    destruct new as [|t2 [l2|]|x2]; try reflexivity.
  destruct (decide (t1 = t2)); reflexivity.
Qed.

Lemma wp_shallowCopy dst new (Q : any → World → Prop) w :
  Q (shallowCopyRun dst new (heap w)).1
    (set_heap (shallowCopyRun dst new (heap w)).2 w) ->
  wp (shallowCopy dst new) Q w.
Proof. intros HQ. unfold wp. rewrite shallowCopy_run. exact HQ. Qed.

Ltac wp_step :=
  lazymatch goal with
  | |- wp (bind _ _) _ _ => apply wp_bind
  | |- wp (ret _) _ _ => apply wp_ret
  | |- wp (Add _ _) _ _ => apply wp_Add
  | |- wp (logCall _) _ _ => apply wp_logCall
  | |- wp (gets _) _ _ => apply wp_gets
  | |- wp (readHeap _) _ _ => apply wp_readHeap
  | |- wp (withHeap _) _ _ => apply wp_withHeap
  | |- wp (jsonv1Unmarshal _ _ _) _ _ => apply wp_jsonv1Unmarshal
  | |- wp (jsonv2Unmarshal _ _ _) _ _ => apply wp_jsonv2Unmarshal
  | |- wp (jsonv1Marshal _ _) _ _ => apply wp_jsonv1Marshal
  | |- wp (jsonv2Marshal _ _) _ _ => apply wp_jsonv2Marshal
  | |- wp (elapsed _ _) _ _ => unfold elapsed
  | |- wp (cloneGoValue _ _) _ _ => apply wp_cloneGoValue
  | |- wp (shallowCopy _ _) _ _ => apply wp_shallowCopy
  end;
  cbv beta iota.

Ltac wp_steps := repeat wp_step.

(** Decide the [switch mode] tests once the mode is known. *)
Ltac mode_tests :=
  cbn [Z.eqb Pos.eqb orb andb negb
       OnlyCallV1 CallV1ButUponErrorReturnV2 CallBothButReturnV1
       CallBothButReturnV2 CallV2ButUponErrorReturnV1 OnlyCallV2].

Lemma ints_Add_ne f c d c' : c' <> c -> ints_Add f c d c' = f c'.
Proof. intros Hne. unfold ints_Add. rewrite decide_False by exact Hne. reflexivity. Qed.

Lemma ints_Add_eq f c d : ints_Add f c d c = int64_add (f c) d.
Proof. unfold ints_Add. rewrite decide_True by reflexivity. reflexivity. Qed.

Lemma v1UnmarshalCall_engine b v o : isEngineCall (v1UnmarshalCall b v o) = true.
Proof. unfold v1UnmarshalCall. destruct (onlyV1Defaults o); reflexivity. Qed.

Lemma v1MarshalCall_engine v o : isEngineCall (v1MarshalCall v o) = true.
Proof. unfold v1MarshalCall. destruct (onlyV1Defaults o); reflexivity. Qed.

Ltac ints_same :=
  world_simpl; rewrite ?ints_Add_ne by discriminate; reflexivity.

Ltac no_difference :=
  unfold noDifference; world_simpl;
  repeat split;
  first [ reflexivity | apply v1UnmarshalCall_engine
        | apply v1MarshalCall_engine | ints_same
        | match goal with d : Direction |- _ => destruct d; reflexivity end ].

Lemma Unmarshal_only c orc b v o w (only : CallMode) :
  SizeHistogram_wf (UnmarshalSizeHistogram (metrics w)) ->
  loadRandomMode (unmarshalCallRatio w) (rand_Float32 orc) = only ->
  (only = OnlyCallV1 ->
   exists w',
     Unmarshal c orc b v o w = Some ((v1UnmarshalRun b v o (heap w)).1, w') /\
     heap w' = (v1UnmarshalRun b v o (heap w)).2 /\
     noDifference w w' (v1UnmarshalCall b v o)) /\
  (only = OnlyCallV2 ->
   exists w',
     Unmarshal c orc b v o w = Some ((jsonv2_Unmarshal b v o (heap w)).1, w') /\
     heap w' = (jsonv2_Unmarshal b v o (heap w)).2 /\
     noDifference w w' (CallV2Unmarshal b v o)).
Proof.
  intros Hwf Hmode.
  split; intros ->; apply wp_Some_eq;
    unfold Unmarshal; wp_steps;
    (apply wp_insertSize; [world_simpl; exact Hwf|]; intros h Hins Hh);
    wp_steps;
    (apply wp_when; [intros _; wp_step|intros _]);
    (wp_step; unfold UnmarshalBody; wp_steps; world_simpl;
     rewrite Hmode; mode_tests; wp_steps;
     apply wp_when; [intros _; wp_step|intros _]; wp_steps;
     world_simpl; repeat split; no_difference).
Qed.

Lemma Marshal_only c orc v o w (only : CallMode) :
  SizeHistogram_wf (MarshalSizeHistogram (metrics w)) ->
  loadRandomMode (marshalCallRatio w) (rand_Float32 orc) = only ->
  (only = OnlyCallV1 ->
   exists w',
     Marshal c orc v o w = Some (v1MarshalRun v o (heap w), w') /\
     heap w' = heap w /\
     noDifference w w' (v1MarshalCall v o)) /\
  (only = OnlyCallV2 ->
   exists w',
     Marshal c orc v o w = Some (jsonv2_Marshal v o (heap w), w') /\
     heap w' = heap w /\
     noDifference w w' (CallV2Marshal v o)).
Proof.
  intros Hwf Hmode.
  split; intros ->; apply wp_Some_eq;
    unfold Marshal; wp_steps; unfold MarshalBody; wp_steps; world_simpl;
    rewrite Hmode; mode_tests; wp_steps; world_simpl;
    match goal with
    | |- context [v1MarshalRun v o (heap w)] =>
        destruct (v1MarshalRun v o (heap w)) as [buf err]
    | |- context [jsonv2_Marshal v o (heap w)] =>
        destruct (jsonv2_Marshal v o (heap w)) as [buf err]
    end;
    wp_steps;
    (apply wp_insertSize; [world_simpl; exact Hwf|]; intros h Hins Hh);
    wp_steps;
    (apply wp_when; [intros _; wp_step|intros _]); wp_steps;
    world_simpl; repeat split; no_difference.
Qed.

(** C6.  When the mode drawn is OnlyCallV1 or OnlyCallV2, Marshal and
    Unmarshal call one engine once, return what it returns (and, for
    Unmarshal, leave the heap as it left it), compare nothing, report
    nothing, and leave the difference counters and the caller and option
    histograms as they were. *)
Theorem OnlyCall_single_engine c orc b v o w :
  SizeHistogram_wf (MarshalSizeHistogram (metrics w)) ->
  SizeHistogram_wf (UnmarshalSizeHistogram (metrics w)) ->
  let mm := loadRandomMode (marshalCallRatio w) (rand_Float32 orc) in
  let um := loadRandomMode (unmarshalCallRatio w) (rand_Float32 orc) in
  (mm = OnlyCallV1 ->
   exists w',
     Marshal c orc v o w = Some (v1MarshalRun v o (heap w), w') /\
     heap w' = heap w /\
     noDifference w w' (v1MarshalCall v o)) /\
  (mm = OnlyCallV2 ->
   exists w',
     Marshal c orc v o w = Some (jsonv2_Marshal v o (heap w), w') /\
     heap w' = heap w /\
     noDifference w w' (CallV2Marshal v o)) /\
  (um = OnlyCallV1 ->
   exists w',
     Unmarshal c orc b v o w = Some ((v1UnmarshalRun b v o (heap w)).1, w') /\
     heap w' = (v1UnmarshalRun b v o (heap w)).2 /\
     noDifference w w' (v1UnmarshalCall b v o)) /\
  (um = OnlyCallV2 ->
   exists w',
     Unmarshal c orc b v o w = Some ((jsonv2_Unmarshal b v o (heap w)).1, w') /\
     heap w' = (jsonv2_Unmarshal b v o (heap w)).2 /\
     noDifference w w' (CallV2Unmarshal b v o)).
Proof.
  intros Hm Hu mm um.
  destruct (Marshal_only c orc v o w mm Hm eq_refl) as [M1 M2].
  destruct (Unmarshal_only c orc b v o w um Hu eq_refl) as [U1 U2].
  auto.
Qed.
Lemma cloneRun_impossible c v h :
  cloneImpossible c v h -> cloneRun c v h = (Nil, (hookResult c v h).2).
Proof.
  unfold cloneImpossible, cloneRun. intros [Hnil Hz].
  rewrite Hnil, Hz. reflexivity.
Qed.

(** C2.  In a dual-path mode, when the target cannot be cloned, Unmarshal
    counts one skipped call, runs only the engine the mode designates
    (v1 for CallV1ButUponErrorReturnV2 and CallBothButReturnV1, v2 for the
    other two) on the caller's target, returns its error as it is, and
    compares nothing: besides the clone hook, if there is one, that engine
    call is the only call leaving the package. *)
Theorem Unmarshal_clone_impossible c orc b v o w mode :
  SizeHistogram_wf (UnmarshalSizeHistogram (metrics w)) ->
  loadRandomMode (unmarshalCallRatio w) (rand_Float32 orc) = mode ->
  mode ∈ [CallV1ButUponErrorReturnV2; CallBothButReturnV1;
          CallBothButReturnV2; CallV2ButUponErrorReturnV1] ->
  cloneImpossible c v (heap w) ->
  let h1 := (hookResult c v (heap w)).2 in
  let useV1 := (mode =? CallV1ButUponErrorReturnV2)
               || (mode =? CallBothButReturnV1) in
  let run := if useV1 then v1UnmarshalRun b v o h1
             else jsonv2_Unmarshal b v o h1 in
  let call := if useV1 then v1UnmarshalCall b v o
              else CallV2Unmarshal b v o in
  exists w',
    Unmarshal c orc b v o w = Some (run.1, w') /\
    heap w' = run.2 /\
    calls w' = calls w ++ hookCalls c v ++ [call] /\
    isEngineCall call = true /\
    ints (metrics w') NumUnmarshalCallBothSkipped
      = int64_add (ints (metrics w) NumUnmarshalCallBothSkipped) 1 /\
    ints (metrics w') NumUnmarshalCallBoth
      = ints (metrics w) NumUnmarshalCallBoth /\
    ints (metrics w') NumUnmarshalDiffs = ints (metrics w) NumUnmarshalDiffs.
Proof.
  intros Hwf Hmode Hin Himp h1 useV1 run call.
  pose proof (cloneRun_impossible c v (heap w) Himp) as Hclone.
  apply wp_Some_eq.
  unfold Unmarshal; wp_steps.
  apply wp_insertSize; [world_simpl; exact Hwf|]. intros h Hins Hh.
  wp_steps.
  rewrite !elem_of_cons, elem_of_nil in Hin.
  assert (Hskip : forall f : Counter → Z,
            ints_Add f NumUnmarshalCallBothSkipped 1 NumUnmarshalCallBothSkipped
            = int64_add (f NumUnmarshalCallBothSkipped) 1)
    by (intros; apply ints_Add_eq).
  apply wp_when; [intros _; wp_step|intros _];
    (wp_step; unfold UnmarshalBody; wp_steps; world_simpl; rewrite Hmode;
     destruct Hin as [Hm|[Hm|[Hm|[Hm|[]]]]];
     subst useV1 run call; rewrite Hm in *; mode_tests;
     wp_steps; world_simpl; rewrite Hclone;
     cbn [fst snd notNil negb]; wp_steps;
     (apply wp_when; [intros _; wp_step|intros _]); wp_steps;
     world_simpl; rewrite <- ?app_assoc;
     repeat split;
     first [ reflexivity | apply v1UnmarshalCall_engine
           | rewrite ?ints_Add_ne by discriminate;
             rewrite Hskip; rewrite ?ints_Add_ne by discriminate; reflexivity
           | ints_same ]).
Qed.
(** *** The upon-error modes *)








Lemma wp_goEqual c v1 v2 (Q : bool → World → Prop) w :
  (forall r, Q r (set_calls (calls w ++ [CallGoEqual v1 v2]) w)) ->
  wp (goEqual c v1 v2) Q w.
Proof.
  intros HQ. unfold goEqual. apply wp_bind, wp_logCall.
  destruct (EqualGoValues c); apply wp_readHeap, HQ.
Qed.

Lemma wp_errorsEqual c e1 e2 (Q : bool → World → Prop) w :
  (forall r, Q r (set_calls (calls w ++ [CallErrorsEqual e1 e2]) w)) ->
  wp (errorsEqual c e1 e2) Q w.
Proof.
  intros HQ. unfold errorsEqual. apply wp_bind, wp_logCall.
  destruct (EqualErrors c); apply wp_ret, HQ.
Qed.



Lemma wp_autoDetectLoop (I : World → Prop)
    (arshalEqual : list Options → M bool) optsCall optsV1 order opts w :
  I w ->
  (forall os w', I w' -> wp (arshalEqual os) (λ _ w'', I w'') w') ->
  wp (autoDetectLoop arshalEqual optsCall optsV1 order opts) (λ _ w', I w') w.
Proof.
  intros Hw Hstep. revert opts w Hw.
  induction order as [|name order IH]; intros opts w Hw.
  - apply wp_ret. exact Hw.
  - cbn [autoDetectLoop]. destruct (GetOption optsCall name).2; [auto|].
    apply wp_bind. eapply wp_mono; [apply Hstep; exact Hw|].
    intros ok w' Hw'. cbv beta. auto.
Qed.

Lemma wp_autoDetectOptions (I : World → Prop)
    (arshalEqual : list Options → M bool) order o w :
  I w ->
  (forall os w', I w' -> wp (arshalEqual os) (λ _ w'', I w'') w') ->
  wp (autoDetectOptions arshalEqual order o) (λ _ w', I w') w.
Proof.
  intros Hw Hstep. unfold autoDetectOptions. apply wp_bind.
  eapply wp_mono; [apply Hstep; exact Hw|].
  intros ok w' Hw'. cbv beta. destruct ok; cbn [negb].
  - apply wp_bind. eapply wp_mono; [apply wp_autoDetectLoop; eassumption|].
    intros opts w'' Hw''. apply wp_ret. exact Hw''.
  - apply wp_ret. exact Hw'.
Qed.






End CodecProps.

(** *** The merge counter *)

Section Keeps.
Context `{GoValues} `{!Engines} `{V1Defaults}.
Variable k : Counter.

Lemma keeps_ret {A} (a : A) : keepsCounter k (ret a).
Proof. intros w. reflexivity. Qed.

Lemma keeps_bind {A B} (m : M A) (f : A → M B) :
  keepsCounter k m -> (forall a, keepsCounter k (f a)) ->
  keepsCounter k (bind m f).
Proof.
  intros Hm Hf w. apply wp_bind. eapply wp_mono; [apply Hm|].
  intros a w1 Hw1. cbv beta. eapply wp_mono; [apply Hf|].
  intros b w2 Hw2. cbv beta in *. congruence.
Qed.

Lemma keeps_Add c d : c <> k -> keepsCounter k (Add c d).
Proof.
  intros Hne w. apply wp_modify.
  cbn [metrics set_metrics ints set_ints]. apply ints_Add_ne. congruence.
Qed.

Lemma keeps_logCall e : keepsCounter k (logCall e).
Proof. intros w. reflexivity. Qed.

Lemma keeps_readHeap {A} (f : Heap → A) : keepsCounter k (readHeap f).
Proof. intros w. reflexivity. Qed.

Lemma keeps_withHeap {A} (f : Heap → A * Heap) : keepsCounter k (withHeap f).
Proof. intros w. apply wp_withHeap. reflexivity. Qed.

Lemma keeps_when (b : bool) (m : M unit) :
  keepsCounter k m -> keepsCounter k (when b m).
Proof. destruct b; [auto|intros _; apply keeps_ret]. Qed.

Lemma keeps_CallerHistogram_Add d key :
  keepsCounter k (CallerHistogram_Add d key).
Proof. intros w. apply wp_modify. destruct d; reflexivity. Qed.

Lemma keeps_OptionHistogram_Add d key :
  keepsCounter k (OptionHistogram_Add d key).
Proof. intros w. apply wp_modify. destruct d; reflexivity. Qed.

Lemma keeps_forM_ {A} (l : list A) (f : A → M unit) :
  (forall x, keepsCounter k (f x)) -> keepsCounter k (forM_ l f).
Proof.
  intros Hf. induction l as [|x l IH]; [apply keeps_ret|].
  cbn [forM_]. apply keeps_bind; auto.
Qed.

Lemma keeps_autoDetectOptions (arshalEqual : list Options → M bool) order o :
  (forall os, keepsCounter k (arshalEqual os)) ->
  keepsCounter k (autoDetectOptions arshalEqual order o).
Proof.
  intros Hstep w.
  apply (wp_autoDetectOptions
           (λ w', ints (metrics w') k = ints (metrics w) k));
    [reflexivity|].
  intros os w' Hw'. eapply wp_mono; [apply Hstep|].
  intros a w'' Hw''. cbv beta in *. congruence.
Qed.

Lemma keeps_jsonv1Unmarshal b v o : keepsCounter k (jsonv1Unmarshal b v o).
Proof. intros w. apply wp_jsonv1Unmarshal. reflexivity. Qed.

Lemma keeps_jsonv2Unmarshal b v o : keepsCounter k (jsonv2Unmarshal b v o).
Proof. intros w. apply wp_jsonv2Unmarshal. reflexivity. Qed.

Lemma keeps_cloneGoValue c v : keepsCounter k (cloneGoValue c v).
Proof. intros w. apply wp_cloneGoValue. reflexivity. Qed.

Lemma keeps_shallowCopy dst new : keepsCounter k (shallowCopy dst new).
Proof. intros w. apply wp_shallowCopy. reflexivity. Qed.

Lemma keeps_goEqual c v1 v2 : keepsCounter k (goEqual c v1 v2).
Proof. intros w. apply wp_goEqual. reflexivity. Qed.

Lemma keeps_errorsEqual c e1 e2 : keepsCounter k (errorsEqual c e1 e2).
Proof. intros w. apply wp_errorsEqual. reflexivity. Qed.
End Keeps.

Section MergeCounter.
Context `{GoValues} `{!Engines} `{V1Defaults}.

(** Breaks a program into its primitives, each of which keeps the merge
    counter. *)
Ltac keeps :=
  repeat
    lazymatch goal with
    | |- keepsCounter _ (bind _ _) => apply keeps_bind; [|intros ?]
    | |- keepsCounter _ (ret _) => apply keeps_ret
    | |- keepsCounter _ (Add _ _) => apply keeps_Add; discriminate
    | |- keepsCounter _ (logCall _) => apply keeps_logCall
    | |- keepsCounter _ (readHeap _) => apply keeps_readHeap
    | |- keepsCounter _ (withHeap _) => apply keeps_withHeap
    | |- keepsCounter _ (when _ _) => apply keeps_when
    | |- keepsCounter _ (CallerHistogram_Add _ _) =>
        apply keeps_CallerHistogram_Add
    | |- keepsCounter _ (OptionHistogram_Add _ _) =>
        apply keeps_OptionHistogram_Add
    | |- keepsCounter _ (forM_ _ _) => apply keeps_forM_; intros ?
    | |- keepsCounter _ (autoDetectOptions _ _ _) =>
        apply keeps_autoDetectOptions; intros ?
    | |- keepsCounter _ (jsonv1Unmarshal _ _ _) => apply keeps_jsonv1Unmarshal
    | |- keepsCounter _ (jsonv2Unmarshal _ _ _) => apply keeps_jsonv2Unmarshal
    | |- keepsCounter _ (cloneGoValue _ _) => apply keeps_cloneGoValue
    | |- keepsCounter _ (shallowCopy _ _) => apply keeps_shallowCopy
    | |- keepsCounter _ (goEqual _ _ _) => apply keeps_goEqual
    | |- keepsCounter _ (errorsEqual _ _ _) => apply keeps_errorsEqual
    | |- keepsCounter _ (elapsed _ _) => unfold elapsed
    | |- keepsCounter _ (if ?b then _ else _) => destruct b
    | |- keepsCounter _ (match ?x with _ => _ end) => destruct x
    | |- keepsCounter _ (let (_, _) := ?x in _) => destruct x
    end.

Lemma UnmarshalBody_keeps_merge c orc b v o w :
  loadRandomMode (unmarshalCallRatio w) (rand_Float32 orc) ∈ callModes ->
  wp (UnmarshalBody c orc b v o)
     (λ _ w', ints (metrics w') NumUnmarshalMerge
              = ints (metrics w) NumUnmarshalMerge) w.
Proof.
  intros Hmode. unfold UnmarshalBody. apply wp_bind, wp_gets.
  unfold callModes in Hmode. rewrite !elem_of_cons, elem_of_nil in Hmode.
  assert (Hgo : forall m : M error,
            keepsCounter NumUnmarshalMerge m ->
            wp m (λ _ w', ints (metrics w') NumUnmarshalMerge
                          = ints (metrics w) NumUnmarshalMerge) w)
    by (intros m Hm; apply Hm).
  destruct Hmode as [Hm|[Hm|[Hm|[Hm|[Hm|[Hm|[]]]]]]]; rewrite Hm;
    cbn [Z.eqb Pos.eqb orb andb negb
       OnlyCallV1 CallV1ButUponErrorReturnV2 CallBothButReturnV1
       CallBothButReturnV2 CallV2ButUponErrorReturnV1 OnlyCallV2];
    apply Hgo; unfold UnmarshalDual, UnmarshalCheck;
    cbn [Z.eqb Pos.eqb orb andb negb
       OnlyCallV1 CallV1ButUponErrorReturnV2 CallBothButReturnV1
       CallBothButReturnV2 CallV2ButUponErrorReturnV1 OnlyCallV2];
    keeps.
Qed.
End MergeCounter.

Section MergeCounterAll.
Context `{GoValues} `{!Engines} `{V1Defaults}.

(** In every mode, Unmarshal returns with the merge count one higher unless
    the target is a non-nil pointer to a zero value. *)
Lemma Unmarshal_merge_counter c orc b v o w :
  SizeHistogram_wf (UnmarshalSizeHistogram (metrics w)) ->
  loadRandomMode (unmarshalCallRatio w) (rand_Float32 orc) ∈ callModes ->
  exists err w',
    Unmarshal c orc b v o w = Some (err, w') /\
    ints (metrics w') NumUnmarshalMerge
    = if isPointerToZero v (heap w)
      then ints (metrics w) NumUnmarshalMerge
      else int64_add (ints (metrics w) NumUnmarshalMerge) 1.
Proof.
  intros Hwf Hmode. apply wp_Some.
  unfold Unmarshal. apply wp_bind, wp_Add. cbv beta.
  apply wp_bind, wp_insertSize; [exact Hwf|]. intros h Hins Hh. cbv beta.
  apply wp_bind, wp_readHeap. cbv beta.
  cbn [heap set_metrics].
  assert (Hbody : forall w0 : World,
            unmarshalCallRatio w0 = unmarshalCallRatio w ->
            ints (metrics w0) NumUnmarshalMerge
            = (if isPointerToZero v (heap w)
               then ints (metrics w) NumUnmarshalMerge
               else int64_add (ints (metrics w) NumUnmarshalMerge) 1) ->
            wp (bind (UnmarshalBody c orc b v o)
                  (λ err, bind (when (isErr err) (Add NumUnmarshalErrors 1))
                            (λ _, ret err)))
               (λ _ w', ints (metrics w') NumUnmarshalMerge
                  = (if isPointerToZero v (heap w)
                     then ints (metrics w) NumUnmarshalMerge
                     else int64_add (ints (metrics w) NumUnmarshalMerge) 1))
               w0).
  { intros w0 Hur Hw0. apply wp_bind.
    eapply wp_mono;
      [apply UnmarshalBody_keeps_merge; rewrite Hur; exact Hmode|].
    intros err w1 Hw1. cbv beta. apply wp_bind.
    apply wp_when; [intros _; apply wp_Add|intros _]; apply wp_ret;
      cbn [metrics set_metrics ints set_ints];
      rewrite ?ints_Add_ne by discriminate; congruence. }
  destruct (isPointerToZero v (heap w)); cbn [negb when].
  - apply wp_bind, wp_ret. cbv beta. apply Hbody; [reflexivity|].
    cbn [metrics set_metrics ints set_ints set_sizeHistogram].
    apply ints_Add_ne. discriminate.
  - apply wp_bind, wp_Add. cbv beta. apply Hbody; [reflexivity|].
    cbn [metrics set_metrics ints set_ints set_sizeHistogram].
    rewrite ints_Add_eq. rewrite ints_Add_ne by discriminate. reflexivity.
Qed.
End MergeCounterAll.

(** *** The example collaborators *)


Lemma worldWith_wf mode x :
  SizeHistogram_wf (MarshalSizeHistogram (metrics (worldWith mode x))) /\
  SizeHistogram_wf (UnmarshalSizeHistogram (metrics (worldWith mode x))).
Proof.
  unfold worldWith, exec, bind, SetMarshalCallMode, SetUnmarshalCallMode.
  destruct (storeModeRatio (marshalCallRatio (zeroWorld x)) mode mode f32_one)
    as [p1|]; [|split; reflexivity].
  cbn [unmarshalCallRatio set_marshalCallRatio zeroWorld].
  destruct (storeModeRatio zeroModeRatio mode mode f32_one) as [p2|];
    split; reflexivity.
Qed.

Lemma worldWith_mode mode x :
  mode ∈ callModes ->
  loadRandomMode (marshalCallRatio (worldWith mode x)) (rand_Float32 exampleOracle)
    = mode /\
  loadRandomMode (unmarshalCallRatio (worldWith mode x)) (rand_Float32 exampleOracle)
    = mode.
Proof.
  intros Hin. unfold callModes in Hin.
  rewrite !elem_of_cons, elem_of_nil in Hin.
  destruct Hin as [->|[->|[->|[->|[->|[->|[]]]]]]];
    split; vm_compute; reflexivity.
Qed.

Lemma OnlyCall_single_engine_witness :
  exists w',
    Unmarshal (H0 := exampleEngines) (H1 := exampleV1Defaults)
      (exampleCodec None) exampleOracle "1" target0 [] (worldWith OnlyCallV1 0)
    = Some (Some "v1: cannot unmarshal"%string, w') /\
    noDifference (worldWith OnlyCallV1 0) w' (CallV1stdUnmarshal "1" target0).
Proof.
  destruct (OnlyCall_single_engine (H0 := exampleEngines) (H1 := exampleV1Defaults)
              (exampleCodec None) exampleOracle "1" target0 []
              (worldWith OnlyCallV1 0)
              (proj1 (worldWith_wf OnlyCallV1 0))
              (proj2 (worldWith_wf OnlyCallV1 0)))
    as (_ & _ & U1 & _).
  destruct (U1 eq_refl) as (w' & Hrun & _ & Hnd).
  exists w'. split; [exact Hrun|exact Hnd].
Defined.

Lemma bothV1_is_dual :
  CallBothButReturnV1 ∈ [CallV1ButUponErrorReturnV2; CallBothButReturnV1;
                         CallBothButReturnV2; CallV2ButUponErrorReturnV1].
Proof. rewrite !elem_of_cons. auto. Qed.

Lemma Unmarshal_clone_impossible_witness :
  exists w',
    Unmarshal (H0 := exampleEngines) (H1 := exampleV1Defaults)
      (exampleCodec None) exampleOracle "1" target0 []
      (worldWith CallBothButReturnV1 7)
    = Some (Some "v1: cannot unmarshal"%string, w') /\
    calls w' = [CallV1stdUnmarshal "1" target0] /\
    ints (metrics w') NumUnmarshalCallBothSkipped = 1.
Proof.
  destruct (Unmarshal_clone_impossible (H0 := exampleEngines)
              (H1 := exampleV1Defaults)
              (exampleCodec None) exampleOracle "1" target0 []
              (worldWith CallBothButReturnV1 7) CallBothButReturnV1
              (proj2 (worldWith_wf CallBothButReturnV1 7))
              eq_refl bothV1_is_dual (conj eq_refl eq_refl))
    as (w' & Hrun & _ & Hcalls & _ & Hskip & _).
  exists w'. split; [exact Hrun|]. split; [exact Hcalls|exact Hskip].
Defined.



Lemma zeroCodec_mode_valid :
  loadRandomMode (unmarshalCallRatio (worldWith OnlyCallV1 0))
    (rand_Float32 exampleOracle) ∈ callModes.
Proof.
  change (OnlyCallV1 ∈ callModes). apply callModes_range.
  unfold OnlyCallV1. lia.
Qed.

(** C8 at three targets that are not pointers to non-zero data: the nil
    interface, a nil pointer, and a value that is not a pointer.  Each call
    raises the merge count from 0 to 1. *)
Theorem Unmarshal_counts_non_pointer_as_merge :
  Forall
    (λ v, exists err w',
       Unmarshal (H0 := exampleEngines) (H1 := exampleV1Defaults)
         (exampleCodec None) exampleOracle "1" v [] (worldWith OnlyCallV1 0)
       = Some (err, w') /\
       ints (metrics (worldWith OnlyCallV1 0)) NumUnmarshalMerge = 0 /\
       ints (metrics w') NumUnmarshalMerge = 1)
    [ Nil; Ptr (H := exampleGoValues) tt None; Val (H := exampleGoValues) 0 ].
Proof.
  repeat constructor;
    match goal with
    | |- exists err w', Unmarshal _ _ _ ?v _ _ = _ /\ _ =>
        destruct (Unmarshal_merge_counter (H0 := exampleEngines)
                    (H1 := exampleV1Defaults)
                    (exampleCodec None) exampleOracle "1" v []
                    (worldWith OnlyCallV1 0)
                    (proj2 (worldWith_wf OnlyCallV1 0))
                    zeroCodec_mode_valid)
          as (err & w' & Hrun & Hcount);
        exists err, w'; split; [exact Hrun|]; split; [reflexivity|exact Hcount]
    end.
Qed.

(** ** Worked runs *)

(** NaN, a negative ratio, a ratio just above one and a mode past the last
    one are refused; negative zero is accepted. *)
Example storeModeRatio_refuses :
  storeModeRatio zeroModeRatio OnlyCallV1 OnlyCallV2 0x7fc00000 = None /\
  storeModeRatio zeroModeRatio OnlyCallV1 OnlyCallV2 0xbf000000 = None /\
  storeModeRatio zeroModeRatio OnlyCallV1 OnlyCallV2 0x3f800001 = None /\
  storeModeRatio zeroModeRatio OnlyCallV1 maxCallMode f32_zero = None /\
  storeModeRatio zeroModeRatio OnlyCallV1 OnlyCallV2 0x80000000
    = Some {| Uint64 := 0x8000000000050000 |}.
Proof. repeat split; vm_compute; reflexivity. Qed.

(** With ratio 0 the first mode is drawn, with ratio 1 the second, here for
    the draw 0.25. *)
Example loadRandomMode_extremes :
  loadRandomMode
    (Store zeroModeRatio
       (packModeRatio CallBothButReturnV1 OnlyCallV2 f32_zero)) 0x3e800000
    = CallBothButReturnV1 /\
  loadRandomMode
    (Store zeroModeRatio
       (packModeRatio CallBothButReturnV1 OnlyCallV2 f32_one)) 0x3e800000
    = OnlyCallV2.
Proof. split; vm_compute; reflexivity. Qed.

(** The buckets the sizes of the package's histogram test fall into. *)
Example sizeBucket_samples :
  sizeBucket <$> [0; 1; 4; 15; 16; 1050; 1000000; 2000000; -3]
  = [0; 1; 3; 4; 5; 11; 20; 21; 0]%nat.
Proof. vm_compute. reflexivity. Qed.

(** CallV1ButUponErrorReturnV2 on a zero target without a clone hook: v1
    stores 1 and fails, v2 stores 2 into a clone; on return the target
    holds 2 and the copy made by [shallowCopy], at address 3, holds 1. *)
Example upon_error_run :
  let w' :=
    exec (Unmarshal (H0 := exampleEngines) (H1 := exampleV1Defaults)
            (exampleCodec None) exampleOracle "1" target0 [])
         (worldWith CallV1ButUponErrorReturnV2 0) in
  cells (heap w') !! 0%nat = Some 2 /\
  cells (heap w') !! 3%nat = Some 1 /\
  next (heap w') = 4%nat /\
  ints (metrics w') NumUnmarshalCallBoth = 1 /\
  ints (metrics w') NumUnmarshalReturnV2 = 1 /\
  ints (metrics w') NumUnmarshalDiffs = 1.
Proof. repeat split; vm_compute; reflexivity. Qed.
(** * Properties of the remaining functions *)

(** ** SizeHistogram.MarshalJSON *)

Section RenderingProps.
Import Stdlib.Strings.Ascii.

Lemma string_app_cons a s1 s2 : String a s1 +:+ s2 = String a (s1 +:+ s2).
Proof. reflexivity. Qed.

Lemma string_app_nil_l s : "" +:+ s = s.
Proof. reflexivity. Qed.

Lemma string_app_nil_r s : s +:+ "" = s.
Proof. induction s as [|a s IH]; [done|]. by rewrite string_app_cons, IH. Qed.

Lemma string_app_assoc s1 s2 s3 : (s1 +:+ s2) +:+ s3 = s1 +:+ (s2 +:+ s3).
Proof. induction s1 as [|a s1 IH]; [done|]. by rewrite !string_app_cons, IH. Qed.

Lemma trim_app s1 s2 c :
  bytes_TrimRight (s1 +:+ s2) c =
  match bytes_TrimRight s2 c with
  | EmptyString => bytes_TrimRight s1 c
  | t => s1 +:+ t
  end.
Proof.
  induction s1 as [|a s1 IH].
  - rewrite string_app_nil_l. by destruct (bytes_TrimRight s2 c).
  - rewrite string_app_cons. cbn [bytes_TrimRight]. rewrite IH.
    destruct (bytes_TrimRight s2 c) as [|b t]; [done|].
    rewrite string_app_cons.
    destruct s1; reflexivity.
Qed.

Lemma trim_keep s d c :
  d <> c -> bytes_TrimRight (s +:+ String d "") c = s +:+ String d "".
Proof.
  intros Hd. rewrite trim_app. cbn [bytes_TrimRight].
  destruct (Ascii.eqb_spec d c); [done|reflexivity].
Qed.

Definition isDigit (d : ascii) : Prop :=
  d ∈ ["0"; "1"; "2"; "3"; "4"; "5"; "6"; "7"; "8"; "9"]%char.

Lemma pretty_N_char_digit x : isDigit (pretty_N_char x).
Proof.
  unfold isDigit, pretty_N_char.
  repeat case_match; rewrite !elem_of_cons; tauto.
Qed.

Lemma pretty_N_go_app x s : pretty_N_go x s = pretty_N_go x "" +:+ s.
Proof.
  revert s. induction (N.lt_wf_0 x) as [x _ IH]; intros s.
  destruct (decide (x = 0%N)) as [->|Hx].
  - by rewrite !pretty_N_go_0.
  - rewrite !(pretty_N_go_step x) by lia.
    assert (Hlt : (x `div` 10 < x)%N) by (apply N.div_lt; lia).
    rewrite (IH _ Hlt (String _ s)), (IH _ Hlt (String _ "")).
    by rewrite string_app_assoc.
Qed.

Lemma pretty_N_last (x : N) : exists s d, pretty x = s +:+ String d "" /\ isDigit d.
Proof.
  unfold pretty, pretty_N. case_decide as Hx.
  - exists "", "0"%char. split; [done|]. unfold isDigit. rewrite !elem_of_cons; tauto.
  - rewrite pretty_N_go_step by lia. rewrite pretty_N_go_app.
    eexists _, _. split; [done|]. apply pretty_N_char_digit.
Qed.

Lemma pretty_Z_last (z : Z) : exists s d, pretty z = s +:+ String d "" /\ isDigit d.
Proof.
  destruct z as [|p|p]; unfold pretty, pretty_Z.
  - exists "", "0"%char. split; [done|]. unfold isDigit. rewrite !elem_of_cons; tauto.
  - apply (pretty_N_last (Npos p)).
  - destruct (pretty_N_last (Npos p)) as (s & d & Hs & Hd).
    exists ("-" +:+ s), d. split; [|done].
    unfold pretty, pretty_positive. rewrite Hs. by rewrite string_app_assoc.
Qed.

Lemma digit_not_space d : isDigit d -> d <> " "%char.
Proof.
  intros Hd ->. unfold isDigit in Hd.
  repeat (apply elem_of_cons in Hd as [Hd|Hd]; [discriminate|]).
  by apply elem_of_nil in Hd.
Qed.

Lemma digit_not_comma d : isDigit d -> d <> ","%char.
Proof.
  intros Hd ->. unfold isDigit in Hd.
  repeat (apply elem_of_cons in Hd as [Hd|Hd]; [discriminate|]).
  by apply elem_of_nil in Hd.
Qed.

Lemma trim_pretty b (z : Z) c :
  (forall d, isDigit d -> d <> c) ->
  bytes_TrimRight (b +:+ pretty z) c = b +:+ pretty z.
Proof.
  intros Hc. destruct (pretty_Z_last z) as (s & d & -> & Hd).
  rewrite <- string_app_assoc. by apply trim_keep, Hc.
Qed.

Lemma trim_keep2 s d1 d2 c :
  d2 <> c ->
  bytes_TrimRight (s +:+ String d1 (String d2 "")) c
  = s +:+ String d1 (String d2 "").
Proof.
  intros Hd.
  change (String d1 (String d2 "")) with (String d1 "" +:+ String d2 "").
  rewrite <- string_app_assoc. by apply trim_keep.
Qed.

Lemma trim_drop2 s c :
  bytes_TrimRight (s +:+ String c (String c "")) c = bytes_TrimRight s c.
Proof.
  rewrite trim_app. cbn [bytes_TrimRight].
  by destruct (Ascii.eqb_spec c c).
Qed.

Lemma appendBucket_positive b i n :
  (i < 70)%nat -> 0 < n ->
  appendBucket b i n = Some (b +:+ bucketEntry (i, n) +:+ ",").
Proof.
  intros Hi Hn. unfold appendBucket, bucketEntry, bucketName, strconv_AppendInt.
  cbn [fst snd].
  destruct (Z.ltb_spec 0 n) as [_|]; [|lia].
  rewrite Z.shiftl_1_l.
  assert (Hk : (i / 10 < 7)%nat) by (apply Nat.Div0.div_lt_upper_bound; lia).
  set (N := 2 ^ (Z.of_nat i mod 10)).
  destruct (i / 10)%nat as [|[|[|[|[|[|[|k]]]]]]]; [..|lia];
    cbn [Nat.mul Nat.add]; cbv [slice_from slice_to prefixes];
    cbn [String.length Nat.leb Nat.sub String.substring mbind option_bind
         sizeUnits lookup list_lookup default from_option id];
    [rewrite trim_drop2, trim_pretty by apply digit_not_space
    |rewrite trim_keep2 by discriminate..];
    by rewrite !string_app_assoc, ?string_app_cons, ?string_app_nil_l, ?string_app_assoc.
Qed.

Lemma appendBucket_skip b i n : n <= 0 -> appendBucket b i n = Some b.
Proof.
  intros Hn. unfold appendBucket. by destruct (Z.ltb_spec 0 n); [lia|].
Qed.

Lemma marshalBuckets_run h i b :
  (i + length h <= 70)%nat ->
  marshalBuckets h i b =
  Some (b +:+ foldr (λ p acc, bucketEntry p +:+ "," +:+ acc) ""
                (filter (λ p, 0 < p.2) (imap (λ j, pair (i + j)%nat) h))).
Proof.
  revert i b. induction h as [|n h IH]; intros i b Hlen.
  - cbn. by rewrite string_app_nil_r.
  - cbn [marshalBuckets length] in *. rewrite imap_cons.
    assert (Himap : imap ((λ j, pair (i + j)%nat) ∘ S) h
                    = imap (λ j, pair (S i + j)%nat) h).
    { apply imap_ext. intros j x _; cbn. f_equal; lia. }
    rewrite Himap, filter_cons. cbn [snd]. rewrite Nat.add_0_r.
    destruct (decide (0 < n)) as [Hn|Hn].
    + rewrite appendBucket_positive by lia. cbn [mbind option_bind].
      rewrite IH by lia. cbn [foldr]. by rewrite !string_app_assoc.
    + rewrite appendBucket_skip by lia. cbn [mbind option_bind].
      by rewrite IH by lia.
Qed.

Lemma bucketEntry_last p : exists s d, bucketEntry p = s +:+ String d "" /\ isDigit d.
Proof.
  unfold bucketEntry. destruct (pretty_Z_last p.2) as (s & d & -> & Hd).
  eexists _, d. split; [|done]. by rewrite <- !string_app_assoc.
Qed.

Lemma entries_join (l : list (nat * Z)) :
  l <> [] ->
  foldr (λ p acc, bucketEntry p +:+ "," +:+ acc) "" l
  = joinComma (map bucketEntry l) +:+ ",".
Proof.
  induction l as [|p [|q l] IH]; intros Hl; [done|..].
  - cbn. by rewrite string_app_nil_r.
  - cbn [foldr] in *. rewrite IH by done. cbn [map joinComma].
    by rewrite !string_app_assoc.
Qed.

Lemma joinComma_last (l : list (nat * Z)) :
  l <> [] ->
  exists s d, joinComma (map bucketEntry l) = s +:+ String d "" /\ isDigit d.
Proof.
  induction l as [|p [|q l] IH]; intros Hl; [done|..].
  - apply bucketEntry_last.
  - destruct IH as (s & d & Hs & Hd); [done|].
    cbn [map joinComma] in *. rewrite Hs.
    eexists _, d. split; [|done]. by rewrite <- !string_app_assoc.
Qed.

Lemma trim_entries (l : list (nat * Z)) :
  bytes_TrimRight
    ("{" +:+ foldr (λ p acc, bucketEntry p +:+ "," +:+ acc) "" l) ","
  = "{" +:+ joinComma (map bucketEntry l).
Proof.
  destruct (decide (l = [])) as [->|Hl]; [done|].
  rewrite entries_join by done.
  destruct (joinComma_last l Hl) as (s & d & -> & Hd).
  rewrite <- !string_app_assoc. rewrite trim_app. cbn [bytes_TrimRight Ascii.eqb Bool.eqb].
  apply trim_keep. by apply digit_not_comma.
Qed.

Lemma MarshalJSON_run h :
  (length h <= 70)%nat ->
  SizeHistogram_MarshalJSON h =
  Some ("{" +:+ joinComma (map bucketEntry (positiveBuckets h)) +:+ "}", None).
Proof.
  intros Hlen. unfold SizeHistogram_MarshalJSON.
  rewrite marshalBuckets_run by lia. cbn [mbind option_bind].
  rewrite trim_entries. by rewrite string_app_assoc.
Qed.

(** X1.  [MarshalJSON] on a histogram always succeeds and writes one JSON
    object: for each bucket with a positive count, in index order, the
    entry ["<N{unit}B":count] with N = 2^(i mod 10) and the unit the
    (i/10)-th of none, Ki, Mi, Gi, Ti, Pi, Ei; entries are separated by
    single commas, buckets whose count is zero or negative are left out,
    and trimming never removes anything but the padding of the empty unit
    and the last comma. *)
Theorem MarshalJSON_render h :
  SizeHistogram_wf h ->
  SizeHistogram_MarshalJSON h =
  Some ("{" +:+ joinComma (map bucketEntry (positiveBuckets h)) +:+ "}", None).
Proof.
  intros Hwf. apply MarshalJSON_run. rewrite Hwf. vm_compute. lia.
Qed.

Lemma MarshalJSON_render_witness :
  SizeHistogram_MarshalJSON SizeHistogram_zero =
  Some ("{" +:+ joinComma (map bucketEntry (positiveBuckets SizeHistogram_zero))
            +:+ "}", None).
Proof. apply (MarshalJSON_render SizeHistogram_zero). reflexivity. Defined.

Lemma split_at c s1 s2 x y :
  occurs c s1 = false -> occurs c s2 = false ->
  s1 +:+ String c x = s2 +:+ String c y -> s1 = s2.
Proof.
  revert s2. induction s1 as [|a s1 IH]; intros [|a2 s2] H1 H2 Heq;
    cbn [occurs] in *; rewrite ?string_app_cons, ?string_app_nil_l in Heq.
  - done.
  - injection Heq as <- _. by rewrite Ascii.eqb_refl in H2.
  - injection Heq as -> _. by rewrite Ascii.eqb_refl in H1.
  - injection Heq as <- Heq. apply orb_false_elim in H1 as [_ H1].
    apply orb_false_elim in H2 as [_ H2]. f_equal. by apply IH.
Qed.

Lemma bucketName_table :
  forallb (λ i, negb (occurs quote (bucketName i)) &&
     forallb (λ j, implb (bool_decide (bucketName i = bucketName j))
                         (i =? j)%nat)
             (seq 0 65)) (seq 0 65) = true.
Proof. vm_compute. reflexivity. Qed.

Lemma bucketName_no_quote i : (i < 65)%nat -> occurs quote (bucketName i) = false.
Proof.
  intros Hi. pose proof bucketName_table as Ht.
  rewrite forallb_forall in Ht.
  assert (Hin : In i (seq 0 65)) by (apply in_seq; lia).
  apply Ht, andb_prop in Hin as [Hq _]. by apply negb_true_iff.
Qed.

Lemma bucketName_inj i j :
  (i < 65)%nat -> (j < 65)%nat -> bucketName i = bucketName j -> i = j.
Proof.
  intros Hi Hj Heq. pose proof bucketName_table as Ht.
  rewrite forallb_forall in Ht.
  assert (Hin : In i (seq 0 65)) by (apply in_seq; lia).
  apply Ht, andb_prop in Hin as [_ Hall].
  rewrite forallb_forall in Hall.
  assert (Hjn : In j (seq 0 65)) by (apply in_seq; lia).
  apply Hall in Hjn. rewrite bool_decide_eq_true_2 in Hjn by done.
  by apply Nat.eqb_eq.
Qed.

(** X2.  No two of the 65 buckets are written under the same name: if
    the loop body appends the same bytes for two buckets with positive
    counts, they are the same bucket. *)
Theorem MarshalJSON_names_distinct b i j n m :
  (i < 65)%nat -> (j < 65)%nat -> 0 < n -> 0 < m ->
  appendBucket b i n = appendBucket b j m -> i = j.
Proof.
  intros Hi Hj Hn Hm. rewrite !appendBucket_positive by lia.
  intros Heq. apply (inj Some), (inj (String.app b)) in Heq.
  unfold bucketEntry in Heq. cbn [fst snd] in Heq.
  rewrite !string_app_cons, !string_app_assoc in Heq.
  pose proof (bucketName_no_quote i Hi) as Hqi.
  pose proof (bucketName_no_quote j Hj) as Hqj.
  apply bucketName_inj; [done..|].
  revert Heq Hqi Hqj. generalize (bucketName i) (bucketName j).
  intros s1 s2 Heq H1 H2. injection Heq as Heq. by eapply split_at.
Qed.

Lemma MarshalJSON_names_distinct_witness : 17%nat = 17%nat.
Proof.
  apply (MarshalJSON_names_distinct EmptyString 17 17 3 3); [lia..|reflexivity].
Defined.

Lemma positiveBuckets_single i :
  (i < 65)%nat ->
  positiveBuckets (<[i := 1]> SizeHistogram_zero) = [(i, 1)].
Proof.
  intros Hi.
  do 65 (destruct i as [|i]; [vm_compute; reflexivity|]). lia.
Qed.

Lemma bucket_bound (i : Z) :
  0 <= i -> 2 ^ (i mod 10) * 1024 ^ (i / 10) = 2 ^ i.
Proof.
  intros Hi. change 1024 with (2 ^ 10).
  pose proof (Z.mod_pos_bound i 10 ltac:(lia)).
  assert (0 <= i / 10) by (apply Z.div_pos; lia).
  rewrite <- Z.pow_mul_r, <- Z.pow_add_r by lia.
  f_equal. rewrite (Z.div_mod i 10) at 3 by lia. lia.
Qed.

(** X3.  A size inserted into an empty histogram is reported by [String]
    as one entry with count 1, under a name whose bound N * 1024^k (N the
    number and k the rank of the unit in the name) is the least power of
    two above the size: n < N * 1024^k <= 2n for n >= 1; sizes that are
    zero or negative are reported under the name of bucket 0. *)
Theorem String_after_insertSize n :
  int_range n ->
  exists h i,
    insertSize SizeHistogram_zero n = Some h /\
    SizeHistogram_String h
      = Some ("{" +:+ String quote (bucketName i) +:+ String quote ":1}") /\
    (n <= 0 -> i = 0%nat) /\
    (0 < n -> n < 2 ^ (Z.of_nat i mod 10) * 1024 ^ (Z.of_nat i / 10) <= 2 * n).
Proof.
  intros Hn. pose proof (sizeBucket_spec n Hn) as Hb.
  set (i := sizeBucket n) in *.
  assert (Hi : (i < 65)%nat).
  { rewrite Hb. destruct (Z.leb_spec n 0); [lia|].
    pose proof (log2_int_range n ltac:(lia) Hn). lia. }
  exists (<[i := 1]> SizeHistogram_zero), i. split; [|split; [|split]].
  - unfold insertSize. fold i.
    assert (Hz : SizeHistogram_zero !! i = Some 0).
    { apply lookup_replicate_2. unfold UintSize. lia. }
    rewrite Hz. reflexivity.
  - unfold SizeHistogram_String.
    rewrite MarshalJSON_run by (rewrite length_insert; vm_compute; lia).
    rewrite positiveBuckets_single by done. cbn [mbind option_bind fst map joinComma].
    unfold bucketEntry. cbn [fst snd].
    change (pretty 1) with "1". by rewrite !string_app_assoc, ?string_app_cons, ?string_app_nil_l.
  - intros Hle. rewrite Hb. destruct (Z.leb_spec n 0); [done|lia].
  - intros Hpos. rewrite bucket_bound by lia. rewrite Hb.
    destruct (Z.leb_spec n 0); [lia|].
    pose proof (Z.log2_nonneg n). rewrite Z2Nat.id by lia.
    pose proof (Z.log2_spec n Hpos) as [Hlo Hhi].
    replace (Z.log2 n + 1) with (Z.succ (Z.log2 n)) by lia.
    rewrite Z.pow_succ_r in * by lia. lia.
Qed.

Lemma String_after_insertSize_witness :
  exists h i,
    insertSize SizeHistogram_zero 40000 = Some h /\
    SizeHistogram_String h
      = Some ("{" +:+ String quote (bucketName i) +:+ String quote ":1}") /\
    (40000 <= 0 -> i = 0%nat) /\
    (0 < 40000 ->
     40000 < 2 ^ (Z.of_nat i mod 10) * 1024 ^ (Z.of_nat i / 10) <= 2 * 40000).
Proof. apply (String_after_insertSize 40000). unfold int_range. lia. Defined.

(** The histogram of the package's own test. *)
Example SizeHistogram_String_test :
  (h ← foldl (λ h n, h ≫= λ h, insertSize h n) (Some SizeHistogram_zero)
         [0; 1; 1; 4; 4; 15; 15; 16; 1050; 1000000; 2000000; 2000000;
          2000000; 1000000000; 1000000000000];
   SizeHistogram_String h)
  = Some (String.concat (String quote EmptyString)
      ["{"; "<1B"; ":1,"; "<2B"; ":2,"; "<8B"; ":2,"; "<16B"; ":2,";
       "<32B"; ":1,"; "<2KiB"; ":1,"; "<1MiB"; ":1,"; "<2MiB"; ":3,";
       "<1GiB"; ":1,"; "<1TiB"; ":1}"]).
Proof. vm_compute. reflexivity. Qed.
End RenderingProps.

(** ** CallMode.String *)

Lemma string_length_app s1 s2 :
  String.length (s1 +:+ s2) = (String.length s1 + String.length s2)%nat.
Proof. induction s1 as [|a s1 IH]; [done|]. rewrite string_app_cons. cbn. by rewrite IH. Qed.

Lemma string_app_inj_r s1 s2 t : s1 +:+ t = s2 +:+ t -> s1 = s2.
Proof.
  revert s2. induction s1 as [|a s1 IH]; intros [|a2 s2] Heq;
    rewrite ?string_app_cons, ?string_app_nil_l in Heq.
  - done.
  - apply (f_equal String.length) in Heq. cbn in Heq.
    rewrite string_length_app in Heq. lia.
  - apply (f_equal String.length) in Heq. cbn in Heq.
    rewrite string_length_app in Heq. lia.
  - injection Heq as -> Heq. f_equal. by apply IH.
Qed.

Lemma callModeNames_valid m :
  m ∈ callModes -> callModeNames !! m = Some (CallMode_String m).
Proof.
  unfold callModes. rewrite !elem_of_cons, elem_of_nil.
  intros [->|[->|[->|[->|[->|[->|[]]]]]]]; vm_compute; reflexivity.
Qed.

Lemma callModeNames_invalid m : m ∉ callModes -> callModeNames !! m = None.
Proof.
  intros Hm. unfold callModeNames. apply not_elem_of_list_to_map_1.
  exact Hm.
Qed.

Lemma CallMode_String_invalid m :
  m ∉ callModes -> CallMode_String m = sprintf_CallMode m.
Proof.
  intros Hm. unfold CallMode_String. by rewrite callModeNames_invalid.
Qed.

Lemma sprintf_CallMode_not_name m m' :
  m' ∈ callModes -> CallMode_String m' <> sprintf_CallMode m.
Proof.
  unfold sprintf_CallMode. generalize (pretty m +:+ ")"). intros x.
  unfold callModes. rewrite !elem_of_cons, elem_of_nil.
  intros [->|[->|[->|[->|[->|[->|[]]]]]]]; vm_compute; discriminate.
Qed.

Lemma CallMode_String_valid_inj m1 m2 :
  m1 ∈ callModes -> m2 ∈ callModes ->
  CallMode_String m1 = CallMode_String m2 -> m1 = m2.
Proof.
  unfold callModes. rewrite !elem_of_cons, !elem_of_nil.
  intros [->|[->|[->|[->|[->|[->|[]]]]]]] [->|[->|[->|[->|[->|[->|[]]]]]]];
    vm_compute; intros Heq; first [reflexivity|discriminate Heq].
Qed.

(** X4.  [CallMode.String] tells all modes apart: two values of type
    [CallMode], declared or not, that print the same are equal. *)
Theorem CallMode_String_inj (m1 m2 : CallMode) :
  CallMode_String m1 = CallMode_String m2 -> m1 = m2.
Proof.
  intros Heq.
  destruct (decide (m1 ∈ callModes)) as [H1|H1];
    destruct (decide (m2 ∈ callModes)) as [H2|H2].
  - by apply CallMode_String_valid_inj.
  - rewrite (CallMode_String_invalid m2 H2) in Heq.
    by destruct (sprintf_CallMode_not_name m2 m1 H1).
  - rewrite (CallMode_String_invalid m1 H1) in Heq.
    by destruct (sprintf_CallMode_not_name m1 m2 H2).
  - rewrite (CallMode_String_invalid m1 H1) in Heq.
    rewrite (CallMode_String_invalid m2 H2) in Heq.
    unfold sprintf_CallMode in Heq.
    apply (inj (String.app "CallMode(")), string_app_inj_r in Heq.
    by apply (inj pretty).
Qed.

Lemma CallMode_String_inj_witness : (3 : CallMode) = 3.
Proof. apply (CallMode_String_inj 3 3). reflexivity. Defined.

(** X5.  The modes [checkValid] accepts are exactly the keys of
    [callModeNames]: an accepted mode prints as the name the table holds
    for it, a rejected one has no entry and prints as [CallMode(n)]. *)
Theorem CallMode_String_checkValid (m : CallMode) :
  (checkValid m = Some tt -> callModeNames !! m = Some (CallMode_String m)) /\
  (checkValid m = None ->
   callModeNames !! m = None /\
   CallMode_String m = "CallMode(" +:+ pretty m +:+ ")").
Proof.
  split.
  - intros Hv. by apply callModeNames_valid, checkValid_Some.
  - intros Hv. apply checkValid_None in Hv. split.
    + by apply callModeNames_invalid.
    + by apply CallMode_String_invalid.
Qed.

(** ** caller *)

Section CallerProps.
Variable runtime_Caller : nat → Frame.
Variable currentFile : string.

Lemma callerFrom_none n i :
  (forall k, (i + 1 <= k <= i + n)%nat ->
     ~ outsideFrame currentFile (runtime_Caller k)) ->
  callerFrom runtime_Caller currentFile n i = EmptyString.
Proof.
  revert i. induction n as [|n IH]; intros i Hnone; [done|].
  cbn [callerFrom]. case_bool_decide as Hf.
  - apply IH. intros k Hk. apply Hnone. lia.
  - destruct (frame_ok (runtime_Caller (i + 1))) eqn:Hok.
    + destruct (Hnone (i + 1)%nat); [lia|]. by split.
    + apply IH. intros k Hk. apply Hnone. lia.
Qed.

Lemma callerFrom_first n i k :
  (i + 1 <= k <= i + n)%nat ->
  outsideFrame currentFile (runtime_Caller k) ->
  (forall j, (i + 1 <= j < k)%nat ->
     ~ outsideFrame currentFile (runtime_Caller j)) ->
  callerFrom runtime_Caller currentFile n i
  = sprintf_fileLine (frame_file (runtime_Caller k))
                     (frame_line (runtime_Caller k)).
Proof.
  revert i. induction n as [|n IH]; intros i Hk Hout Hbefore; [lia|].
  cbn [callerFrom]. destruct (decide (k = i + 1)%nat) as [->|Hne].
  - destruct Hout as [Hf Hok]. rewrite bool_decide_eq_false_2 by done.
    by rewrite Hok.
  - assert (Hskip : ~ outsideFrame currentFile (runtime_Caller (i + 1)))
      by (apply Hbefore; lia).
    assert (Hrest : callerFrom runtime_Caller currentFile n (S i)
              = sprintf_fileLine (frame_file (runtime_Caller k))
                                 (frame_line (runtime_Caller k))).
    { apply IH; [lia|done|]. intros j Hj. apply Hbefore. lia. }
    case_bool_decide as Hf; [done|].
    destruct (frame_ok (runtime_Caller (i + 1))) eqn:Hok; [|done].
    destruct Hskip. by split.
Qed.

(** X6.  [caller] names the nearest of the ten frames above it that is
    known and not of this source file, as [file:line]; when none of the
    ten is, it gives the empty string, whatever lies further up. *)
Theorem caller_first_outside :
  ((forall k, (1 <= k <= 10)%nat ->
      ~ outsideFrame currentFile (runtime_Caller k)) ->
   caller runtime_Caller currentFile = EmptyString) /\
  (forall k,
     (1 <= k <= 10)%nat ->
     outsideFrame currentFile (runtime_Caller k) ->
     (forall j, (1 <= j < k)%nat ->
        ~ outsideFrame currentFile (runtime_Caller j)) ->
     caller runtime_Caller currentFile
     = frame_file (runtime_Caller k) +:+ ":" +:+
       pretty (frame_line (runtime_Caller k))).
Proof.
  split.
  - intros Hnone. apply callerFrom_none. intros k Hk. apply Hnone.
    unfold maxLocalFramesToIgnore in Hk. lia.
  - intros k Hk Hout Hbefore.
    apply (callerFrom_first maxLocalFramesToIgnore 0 k);
      [unfold maxLocalFramesToIgnore; lia|done|].
    intros j Hj. apply Hbefore. lia.
Qed.
End CallerProps.

(** ** CodecMetrics.ExpVar *)

Section SnakeCaseProps.
Import Stdlib.Strings.Ascii.

Lemma toUpper_ToLower r :
  unicode_IsUpper r = true -> toUpper (unicode_ToLower r) = r.
Proof.
  destruct r as [[] [] [] [] [] [] [] []]; vm_compute;
    first [reflexivity|discriminate].
Qed.

Lemma ToLower_not_underscore r :
  unicode_IsUpper r = true -> Ascii.eqb (unicode_ToLower r) "_" = false.
Proof.
  destruct r as [[] [] [] [] [] [] [] []]; vm_compute;
    first [reflexivity|discriminate].
Qed.

Lemma pascalCaseFrom_snakeCaseFrom i s :
  (0 < i)%nat -> occurs "_" s = false ->
  pascalCaseFrom false (snakeCaseFrom i s) = s.
Proof.
  revert i. induction s as [|r s IH]; intros i Hi Hs; [done|].
  cbn [occurs] in Hs. apply orb_false_elim in Hs as [Hr Hs].
  cbn [snakeCaseFrom]. destruct (unicode_IsUpper r) eqn:Hup.
  - destruct (Nat.ltb_spec 0 i) as [_|]; [|lia].
    rewrite string_app_cons, string_app_nil_l. cbn [pascalCaseFrom Ascii.eqb Bool.eqb].
    rewrite toUpper_ToLower by done. f_equal. apply IH; [lia|done].
  - cbn [pascalCaseFrom]. rewrite Hr. f_equal. apply IH; [lia|done].
Qed.

Lemma pascalCase_snakeCase s :
  isPascal s = true -> pascalCaseFrom true (snakeCase s) = s.
Proof.
  destruct s as [|r s]; [done|]. unfold isPascal, snakeCase.
  intros [[Hup Hs]%andb_prop _]%andb_prop.
  apply negb_true_iff in Hs. cbn [occurs] in Hs.
  apply orb_false_elim in Hs as [_ Hs].
  cbn [snakeCaseFrom]. rewrite Hup. cbn [Nat.ltb Nat.leb].
  rewrite string_app_nil_l. cbn [pascalCaseFrom].
  rewrite toUpper_ToLower by done. f_equal.
  apply pascalCaseFrom_snakeCaseFrom; [lia|done].
Qed.

(** X7.  On names in PascalCase (an upper-case first letter, no
    underscore, ASCII) the conversion to snake_case loses nothing: two
    such names with the same snake_case form are the same name. *)
Theorem snakeCase_inj s1 s2 :
  isPascal s1 = true -> isPascal s2 = true ->
  snakeCase s1 = snakeCase s2 -> s1 = s2.
Proof.
  intros H1 H2 Heq.
  rewrite <- (pascalCase_snakeCase s1 H1), <- (pascalCase_snakeCase s2 H2).
  by rewrite Heq.
Qed.

Lemma snakeCase_inj_witness :
  ("NumMarshalTotal" : string) = "NumMarshalTotal".
Proof.
  apply (snakeCase_inj "NumMarshalTotal" "NumMarshalTotal"); reflexivity.
Defined.

Lemma ExpVar_table :
  forallb (λ f, bool_decide (ExpVar !! snakeCase f.1 = Some f.2)
                && isPascal f.1)
          CodecMetrics_fields = true.
Proof. vm_compute. reflexivity. Qed.

(** X8.  [ExpVar] publishes every field of [CodecMetrics] under the
    snake_case form of its name and nothing else: the 28 names are kept
    apart, so no [Set] replaces an earlier one. *)
Theorem ExpVar_every_field :
  (forall name f,
     (name, f) ∈ CodecMetrics_fields -> ExpVar !! snakeCase name = Some f) /\
  size ExpVar = length CodecMetrics_fields.
Proof.
  split; [|vm_compute; reflexivity].
  intros name f Hin. pose proof ExpVar_table as Ht.
  rewrite forallb_forall in Ht.
  apply list_elem_of_In, Ht, andb_prop in Hin as [Hin _].
  by apply bool_decide_eq_true in Hin.
Qed.
End SnakeCaseProps.

(** ** optionNames *)

Lemma StronglySorted_filter {A} (R : relation A) (P : A → Prop)
    `{!∀ x, Decision (P x)} (l : list A) :
  StronglySorted R l -> StronglySorted R (filter P l).
Proof.
  induction l as [|x l IH]; [done|].
  rewrite StronglySorted_cons. intros [Hx Hl].
  rewrite filter_cons. destruct (decide (P x)); [|auto].
  apply StronglySorted_cons. split; [|auto].
  rewrite Forall_forall in *. intros y [_ Hy]%list_elem_of_filter. auto.
Qed.

Lemma sortedOptionNames_sorted : StronglySorted strictlyBefore sortedOptionNames.
Proof.
  apply (bool_decide_unpack (StronglySorted strictlyBefore sortedOptionNames)).
  vm_compute. exact I.
Qed.

Lemma sortedOptionNames_elem name :
  name ∈ sortedOptionNames <-> name ∈ defaultOptionsV1.
Proof. unfold sortedOptionNames. by rewrite merge_sort_Permutation. Qed.

Section OptionNamesProps.
Context `{V1Defaults}.

Lemma GetOption_true opts name :
  (GetOption opts name).1 && (GetOption opts name).2 = true
  <-> flagsOf opts !! name = Some true.
Proof.
  unfold GetOption. destruct (flagsOf opts !! name) as [[]|]; cbn; split;
    congruence.
Qed.

(** X9.  [optionNames] yields exactly the options of [defaultOptionsV1]
    that the given set has switched on, each once and in ascending order
    of their names; for the nil options it yields nothing. *)
Theorem optionNames_spec (opts : Options) :
  (forall name,
     name ∈ optionNames opts <->
     name ∈ defaultOptionsV1 /\ flagsOf opts !! name = Some true) /\
  StronglySorted strictlyBefore (optionNames opts) /\
  optionNames NilOptions = [].
Proof.
  split; [|split].
  - intros name. unfold optionNames.
    rewrite list_elem_of_filter, GetOption_true, sortedOptionNames_elem. tauto.
  - apply StronglySorted_filter, sortedOptionNames_sorted.
  - unfold optionNames.
    destruct (filter _ sortedOptionNames) as [|x l] eqn:Hf; [done|].
    assert (Hx : x ∈ x :: l) by left. rewrite <- Hf in Hx.
    apply list_elem_of_filter in Hx as [Hx _].
    unfold GetOption in Hx. cbn [flagsOf] in Hx.
    rewrite lookup_empty in Hx. discriminate Hx.
Qed.

Lemma autoDetectLoop_probes (P : list Options → bool) optsCall optsV1
    (order : list string) opts (n : nat) :
  exists opts',
    autoDetectLoop (counting P) optsCall optsV1 order opts n
    = Some (opts',
            (n + length (filter (λ name, (GetOption optsCall name).2 = false)
                                order))%nat).
Proof.
  revert opts n. induction order as [|name order IH]; intros opts n.
  - exists opts. cbn. unfold ret. f_equal. f_equal. lia.
  - cbn [autoDetectLoop]. rewrite filter_cons.
    destruct (GetOption optsCall name).2 eqn:Hg.
    + rewrite decide_False by discriminate. apply IH.
    + rewrite decide_True by reflexivity.
      unfold bind at 1, counting at 1.
      destruct (IH (if negb (P [optsV1; applySetter name false])
                    then opts ++ [applySetter name true] else opts) (S n))
        as (opts' & ->).
      exists opts'. cbn [length]. f_equal. f_equal. lia.
Qed.

(** X10.  [autoDetectOptions] asks its equivalence test once when the
    sanity check fails, and otherwise once more for every option of the
    map that the caller has not set explicitly: never more than one plus
    the number of options in [defaultOptionsV1]. *)
Theorem autoDetectOptions_probes (P : list Options → bool) (o : list Options)
    (order : list string) (n0 : nat) :
  order ≡ₚ defaultOptionsV1 ->
  let optsCall := JoinOptions o in
  let optsV1 := JoinOptions [DefaultOptionsV1; optsCall] in
  let unset := filter (λ name, (GetOption optsCall name).2 = false) order in
  exists r,
    autoDetectOptions (counting P) order o n0
    = Some (r, (n0 + if P [optsV1] then 1 + length unset else 1)%nat) /\
    (length unset <= length defaultOptionsV1)%nat.
Proof.
  intros Hperm optsCall optsV1 unset.
  assert (Hlen : (length unset <= length defaultOptionsV1)%nat).
  { rewrite <- Hperm. apply length_filter. }
  unfold autoDetectOptions. fold optsCall. fold optsV1.
  unfold bind at 1, counting at 1.
  destruct (P [optsV1]); cbn [negb].
  - destruct (autoDetectLoop_probes P optsCall optsV1 order [] (S n0))
      as (opts' & Hloop).
    unfold bind. rewrite Hloop. unfold ret.
    eexists. split; [|exact Hlen]. f_equal. f_equal. fold unset. lia.
  - unfold ret. eexists. split; [|exact Hlen]. f_equal. f_equal. lia.
Qed.
End OptionNamesProps.

(** ** What Marshal and Unmarshal touch *)

Section FootprintProps.
Context `{GoValues} `{!Engines} `{V1Defaults}.
Variable fp : Footprint.

Lemma within_refl w : within fp w w.
Proof.
  split; try done. exists []. split; [by rewrite app_nil_r|constructor].
Qed.

Lemma within_trans w1 w2 w3 :
  within fp w1 w2 -> within fp w2 w3 -> within fp w1 w3.
Proof.
  intros [(es1 & E1 & F1) A1 A2 A3 A4 A5 A6 A7]
         [(es2 & E2 & F2) B1 B2 B3 B4 B5 B6 B7].
  split; intros;
    [|by rewrite B1|by rewrite B2|by rewrite B3, A3|by rewrite B4, A4
     |by rewrite B5, A5|by rewrite B6, A6|by rewrite B7, A7].
  exists (es1 ++ es2). split.
  - by rewrite E2, E1, app_assoc.
  - by apply Forall_app.
Qed.

Lemma within_log w e :
  fp_events fp e = true -> within fp w (set_calls (calls w ++ [e]) w).
Proof.
  intros He. split; try done. exists [e]. split; [done|].
  by constructor.
Qed.

Lemma within_same_calls w w' :
  calls w' = calls w ->
  exists es, calls w' = calls w ++ es /\
             Forall (λ e, fp_events fp e = true) es.
Proof. intros ->. exists []. split; [by rewrite app_nil_r|constructor]. Qed.

Lemma within_set_heap w h : fp_heap fp = true -> within fp w (set_heap h w).
Proof.
  intros Hh. split; try done; [by apply within_same_calls|].
  intros Hf. congruence.
Qed.

Lemma within_Add w c d :
  fp_counter fp c = true ->
  within fp w (set_metrics (set_ints (ints_Add (ints (metrics w)) c d)
                                     (metrics w)) w).
Proof.
  intros Hc. split; try done; [by apply within_same_calls| |by intros []..].
  intros k Hk. cbn [metrics set_metrics ints set_ints].
  apply ints_Add_ne. congruence.
Qed.

Lemma within_set_callers w d g :
  fp_callers fp d = true ->
  within fp w (set_metrics (set_callerHistogram d g (metrics w)) w).
Proof.
  intros Hd. split; try done; try (by intros []);
    [by apply within_same_calls|].
  intros d' Hd'. destruct d, d'; try reflexivity; congruence.
Qed.

Lemma within_set_options w d g :
  fp_options fp d = true ->
  within fp w (set_metrics (set_optionHistogram d g (metrics w)) w).
Proof.
  intros Hd. split; try done; try (by intros []);
    [by apply within_same_calls|].
  intros d' Hd'. destruct d, d'; try reflexivity; congruence.
Qed.

Lemma within_set_sizes w d h :
  fp_sizes fp d = true ->
  within fp w (set_metrics (set_sizeHistogram d h (metrics w)) w).
Proof.
  intros Hd. split; try done; try (by intros []);
    [by apply within_same_calls|].
  intros d' Hd'. destruct d, d'; try reflexivity; congruence.
Qed.

Lemma stays_wp {A} (m : M A) w : staysWithin fp m -> wp m (λ _ w', within fp w w') w.
Proof. auto. Qed.

Lemma stays_ret {A} (a : A) : staysWithin fp (ret a).
Proof. intros w. apply within_refl. Qed.

Lemma stays_bind {A B} (m : M A) (f : A → M B) :
  staysWithin fp m -> (forall a, staysWithin fp (f a)) ->
  staysWithin fp (bind m f).
Proof.
  intros Hm Hf w. apply wp_bind. eapply wp_mono; [apply Hm|].
  intros a w1 Hw1. cbv beta. eapply wp_mono; [apply Hf|].
  intros b w2 Hw2. cbv beta in *. by eapply within_trans.
Qed.

Lemma stays_Add c d : fp_counter fp c = true -> staysWithin fp (Add c d).
Proof. intros Hc w. apply wp_modify. by apply within_Add. Qed.

Lemma stays_logCall e : fp_events fp e = true -> staysWithin fp (logCall e).
Proof. intros He w. apply wp_modify. by apply within_log. Qed.

Lemma stays_readHeap {A} (f : Heap → A) : staysWithin fp (readHeap f).
Proof. intros w. apply within_refl. Qed.

Lemma stays_gets {A} (f : World → A) : staysWithin fp (gets f).
Proof. intros w. apply within_refl. Qed.

Lemma stays_withHeap {A} (f : Heap → A * Heap) :
  fp_heap fp = true -> staysWithin fp (withHeap f).
Proof.
  intros Hh w. unfold wp, withHeap. destruct (f (heap w)).
  by apply within_set_heap.
Qed.

Lemma stays_when (b : bool) (m : M unit) :
  staysWithin fp m -> staysWithin fp (when b m).
Proof. destruct b; [auto|intros _; apply stays_ret]. Qed.

Lemma stays_CallerHistogram_Add d key :
  fp_callers fp d = true -> staysWithin fp (CallerHistogram_Add d key).
Proof. intros Hd w. apply wp_modify. by apply within_set_callers. Qed.

Lemma stays_OptionHistogram_Add d key :
  fp_options fp d = true -> staysWithin fp (OptionHistogram_Add d key).
Proof. intros Hd w. apply wp_modify. by apply within_set_options. Qed.

Lemma stays_forM_ {A} (l : list A) (f : A → M unit) :
  (forall x, staysWithin fp (f x)) -> staysWithin fp (forM_ l f).
Proof.
  intros Hf. induction l as [|x l IH]; [apply stays_ret|].
  cbn [forM_]. apply stays_bind; auto.
Qed.

Lemma stays_autoDetectOptions (arshalEqual : list Options → M bool) order o :
  (forall os, staysWithin fp (arshalEqual os)) ->
  staysWithin fp (autoDetectOptions arshalEqual order o).
Proof.
  intros Hstep w.
  apply (wp_autoDetectOptions (λ w', within fp w w')); [apply within_refl|].
  intros os w' Hw'. eapply wp_mono; [apply Hstep|].
  intros a w'' Hw''. cbv beta in *. by eapply within_trans.
Qed.

Lemma stays_jsonv2Marshal v o :
  fp_events fp (CallV2Marshal v o) = true ->
  staysWithin fp (jsonv2Marshal v o).
Proof.
  intros He. apply stays_bind; [by apply stays_logCall|].
  intros; apply stays_readHeap.
Qed.

Lemma stays_jsonv1Marshal v o :
  fp_events fp (CallV1stdMarshal v) = true ->
  fp_events fp (CallV2Marshal v (DefaultOptionsV1 :: o)) = true ->
  staysWithin fp (jsonv1Marshal v o).
Proof.
  intros He1 He2. unfold jsonv1Marshal. destruct (onlyV1Defaults o);
    [|by apply stays_jsonv2Marshal].
  apply stays_bind; [by apply stays_logCall|intros; apply stays_readHeap].
Qed.

Lemma stays_jsonv2Unmarshal b v o :
  fp_heap fp = true -> fp_events fp (CallV2Unmarshal b v o) = true ->
  staysWithin fp (jsonv2Unmarshal b v o).
Proof.
  intros Hh He. apply stays_bind; [by apply stays_logCall|].
  intros; by apply stays_withHeap.
Qed.

Lemma stays_jsonv1Unmarshal b v o :
  fp_heap fp = true ->
  fp_events fp (CallV1stdUnmarshal b v) = true ->
  fp_events fp (CallV2Unmarshal b v (DefaultOptionsV1 :: o)) = true ->
  staysWithin fp (jsonv1Unmarshal b v o).
Proof.
  intros Hh He1 He2. unfold jsonv1Unmarshal. destruct (onlyV1Defaults o);
    [|by apply stays_jsonv2Unmarshal].
  apply stays_bind; [by apply stays_logCall|intros; by apply stays_withHeap].
Qed.

Lemma stays_jsonEqual c v1 v2 :
  fp_events fp (CallJsonEqual v1 v2) = true ->
  staysWithin fp (jsonEqual c v1 v2).
Proof.
  intros He. apply stays_bind; [by apply stays_logCall|].
  intros; destruct (EqualJSONValues c); apply stays_ret.
Qed.

Lemma stays_errorsEqual c e1 e2 :
  fp_events fp (CallErrorsEqual e1 e2) = true ->
  staysWithin fp (errorsEqual c e1 e2).
Proof.
  intros He. apply stays_bind; [by apply stays_logCall|].
  intros; destruct (EqualErrors c); apply stays_ret.
Qed.

Lemma stays_goEqual c v1 v2 :
  fp_events fp (CallGoEqual v1 v2) = true ->
  staysWithin fp (goEqual c v1 v2).
Proof.
  intros He. apply stays_bind; [by apply stays_logCall|].
  intros; destruct (EqualGoValues c); apply stays_readHeap.
Qed.

Lemma stays_cloneGoValue c v :
  fp_heap fp = true -> fp_events fp (CallCloneGoValue v) = true ->
  staysWithin fp (cloneGoValue c v).
Proof.
  intros Hh He. unfold cloneGoValue.
  apply stays_bind.
  - destruct (CloneGoValue c); [|apply stays_ret].
    apply stays_bind; [by apply stays_logCall|intros; by apply stays_withHeap].
  - intros r. destruct (notNil r); [apply stays_ret|].
    apply stays_bind; [apply stays_readHeap|]. intros z.
    destruct (negb z); [apply stays_ret|].
    destruct v; try apply stays_ret. by apply stays_withHeap.
Qed.

Lemma stays_shallowCopy dst new :
  fp_heap fp = true -> staysWithin fp (shallowCopy dst new).
Proof. intros Hh w. apply wp_shallowCopy. by apply within_set_heap. Qed.
End FootprintProps.

(** Breaks a program into its primitives, each of which stays within the
    footprint. *)
Ltac stays :=
  repeat
    lazymatch goal with
    | |- staysWithin _ (bind _ _) => apply stays_bind; [|intros ?]
    | |- staysWithin _ (ret _) => apply stays_ret
    | |- staysWithin _ (Add _ _) => apply stays_Add; reflexivity
    | |- staysWithin _ (logCall _) => apply stays_logCall; reflexivity
    | |- staysWithin _ (gets _) => apply stays_gets
    | |- staysWithin _ (readHeap _) => apply stays_readHeap
    | |- staysWithin _ (withHeap _) => apply stays_withHeap; reflexivity
    | |- staysWithin _ (when _ _) => apply stays_when
    | |- staysWithin _ (CallerHistogram_Add _ _) =>
        apply stays_CallerHistogram_Add; reflexivity
    | |- staysWithin _ (OptionHistogram_Add _ _) =>
        apply stays_OptionHistogram_Add; reflexivity
    | |- staysWithin _ (forM_ _ _) => apply stays_forM_; intros ?
    | |- staysWithin _ (autoDetectOptions _ _ _) =>
        apply stays_autoDetectOptions; intros ?
    | |- staysWithin _ (jsonv1Marshal _ _) =>
        apply stays_jsonv1Marshal; reflexivity
    | |- staysWithin _ (jsonv2Marshal _ _) =>
        apply stays_jsonv2Marshal; reflexivity
    | |- staysWithin _ (jsonv1Unmarshal _ _ _) =>
        apply stays_jsonv1Unmarshal; reflexivity
    | |- staysWithin _ (jsonv2Unmarshal _ _ _) =>
        apply stays_jsonv2Unmarshal; reflexivity
    | |- staysWithin _ (cloneGoValue _ _) =>
        apply stays_cloneGoValue; reflexivity
    | |- staysWithin _ (shallowCopy _ _) =>
        apply stays_shallowCopy; reflexivity
    | |- staysWithin _ (jsonEqual _ _ _) => apply stays_jsonEqual; reflexivity
    | |- staysWithin _ (goEqual _ _ _) => apply stays_goEqual; reflexivity
    | |- staysWithin _ (errorsEqual _ _ _) =>
        apply stays_errorsEqual; reflexivity
    | |- staysWithin _ (elapsed _ _) => unfold elapsed
    | |- staysWithin _ (if ?b then _ else _) => destruct b
    | |- staysWithin _ (match ?x with _ => _ end) => destruct x
    | |- staysWithin _ (let (_, _) := ?x in _) => destruct x
    end.

(** Running the monad step by step, as in the proofs above. *)
Ltac world_simpl :=
  cbn [heap marshalCallRatio unmarshalCallRatio metrics calls
       set_heap set_metrics set_calls
       ints MarshalSizeHistogram MarshalCallerHistogram MarshalOptionHistogram
       UnmarshalSizeHistogram UnmarshalCallerHistogram UnmarshalOptionHistogram
       set_ints set_sizeHistogram set_callerHistogram set_optionHistogram
       sizeHistogram callerHistogram optionHistogram fst snd] in *.

Ltac wp_step :=
  lazymatch goal with
  | |- wp (bind _ _) _ _ => apply wp_bind
  | |- wp (ret _) _ _ => apply wp_ret
  | |- wp (Add _ _) _ _ => apply wp_Add
  | |- wp (logCall _) _ _ => apply wp_logCall
  | |- wp (gets _) _ _ => apply wp_gets
  | |- wp (readHeap _) _ _ => apply wp_readHeap
  | |- wp (withHeap _) _ _ => apply wp_withHeap
  | |- wp (jsonv1Unmarshal _ _ _) _ _ => apply wp_jsonv1Unmarshal
  | |- wp (jsonv2Unmarshal _ _ _) _ _ => apply wp_jsonv2Unmarshal
  | |- wp (jsonv1Marshal _ _) _ _ => apply wp_jsonv1Marshal
  | |- wp (jsonv2Marshal _ _) _ _ => apply wp_jsonv2Marshal
  | |- wp (elapsed _ _) _ _ => unfold elapsed
  | |- wp (cloneGoValue _ _) _ _ => apply wp_cloneGoValue
  | |- wp (shallowCopy _ _) _ _ => apply wp_shallowCopy
  end;
  cbv beta iota.

Ltac wp_steps := repeat wp_step.

Ltac mode_tests :=
  cbn [Z.eqb Pos.eqb orb andb negb
       OnlyCallV1 CallV1ButUponErrorReturnV2 CallBothButReturnV1
       CallBothButReturnV2 CallV2ButUponErrorReturnV1 OnlyCallV2].

Ltac each_mode Hmode :=
  unfold callModes in Hmode; rewrite !elem_of_cons, elem_of_nil in Hmode;
  destruct Hmode as [Hmode|[Hmode|[Hmode|[Hmode|[Hmode|[Hmode|[]]]]]]];
  rewrite Hmode; mode_tests.

Section MarshalFootprint.
Context `{GoValues} `{!Engines} `{V1Defaults}.

Lemma within_narrower fp fp' w w' :
  narrower fp fp' -> within fp w w' -> within fp' w w'.
Proof.
  intros [N1 N2 N3 N4 N5 N6] [(es & E & F) A1 A2 A3 A4 A5 A6 A7].
  split; auto. exists es. split; [exact E|].
  eapply Forall_impl; [exact F|]. exact N6.
Qed.

Lemma marshalBody_narrower : narrower marshalBodyFootprint marshalFootprint.
Proof.
  split; cbn; try done.
  intros k Hk. rewrite Hk. reflexivity.
Qed.

Lemma unmarshalBody_narrower :
  narrower unmarshalBodyFootprint unmarshalFootprint.
Proof.
  split; cbn; try done.
  intros k Hk. rewrite Hk. reflexivity.
Qed.

Lemma MarshalBody_stays c orc v o w :
  loadRandomMode (marshalCallRatio w) (rand_Float32 orc) ∈ callModes ->
  wp (MarshalBody c orc v o)
     (λ _ w', within marshalBodyFootprint w w') w.
Proof.
  intros Hmode. unfold MarshalBody. apply wp_bind, wp_gets.
  each_mode Hmode; apply stays_wp; stays.
Qed.

Lemma wp_Marshal c orc v o (Q : bytes * error → World → Prop) w :
  SizeHistogram_wf (MarshalSizeHistogram (metrics w)) ->
  wp (MarshalBody c orc v o)
     (λ r w1,
        sizeHistogram DirMarshal (metrics w1)
          = sizeHistogram DirMarshal (metrics w) /\
        forall h, insertSize (MarshalSizeHistogram (metrics w)) (len r.1) = Some h ->
          SizeHistogram_wf h ->
          let w2 := set_metrics (set_sizeHistogram DirMarshal h (metrics w1)) w1 in
          Q r (if isErr r.2
               then set_metrics (set_ints
                      (ints_Add (ints (metrics w2)) NumMarshalErrors 1)
                      (metrics w2)) w2
               else w2))
     (set_metrics (set_ints (ints_Add (ints (metrics w)) NumMarshalTotal 1)
                            (metrics w)) w) ->
  wp (Marshal c orc v o) Q w.
Proof.
  intros Hwf Hbody. unfold Marshal. wp_steps.
  eapply wp_mono; [exact Hbody|]. intros [b err] w1 [Hsz HQ]. cbv beta.
  world_simpl. wp_step.
  apply wp_insertSize; [world_simpl; rewrite Hsz; exact Hwf|].
  intros h Hins Hh. world_simpl. rewrite Hsz in Hins.
  specialize (HQ h Hins Hh). cbv zeta in HQ.
  wp_step. destruct (isErr err); cbn [when]; wp_steps; exact HQ.
Qed.
(** X11.  [Codec.Marshal] returns for every declared mode, and writes
    only to the marshal metrics: the Go values, the two ratio words, every
    unmarshal counter and the three unmarshal histograms are as they were;
    the only calls it makes are to the two marshal engines, to the JSON
    and error comparisons and to the difference sink, never to an
    unmarshal engine, the clone hook or the comparison of Go values. *)
Theorem Marshal_footprint c orc v o w :
  SizeHistogram_wf (MarshalSizeHistogram (metrics w)) ->
  loadRandomMode (marshalCallRatio w) (rand_Float32 orc) ∈ callModes ->
  exists r w',
    Marshal c orc v o w = Some (r, w') /\
    (exists es, calls w' = calls w ++ es /\
                Forall (λ e, isMarshalEvent e = true) es) /\
    heap w' = heap w /\
    marshalCallRatio w' = marshalCallRatio w /\
    unmarshalCallRatio w' = unmarshalCallRatio w /\
    (forall k, isMarshalCounter k = false ->
       ints (metrics w') k = ints (metrics w) k) /\
    UnmarshalSizeHistogram (metrics w') = UnmarshalSizeHistogram (metrics w) /\
    UnmarshalCallerHistogram (metrics w')
      = UnmarshalCallerHistogram (metrics w) /\
    UnmarshalOptionHistogram (metrics w')
      = UnmarshalOptionHistogram (metrics w).
Proof.
  intros Hwf Hmode. apply wp_Some.
  assert (Hgoal : wp (Marshal c orc v o)
                     (λ _ w', within marshalFootprint w w') w).
  { apply wp_Marshal; [exact Hwf|].
    eapply wp_mono; [apply MarshalBody_stays; exact Hmode|].
    intros r w1 Hb. cbv beta.
    pose proof (within_narrower _ _ _ _ marshalBody_narrower Hb) as Hw1.
    split.
    - rewrite (within_sizes _ _ _ Hb DirMarshal eq_refl). reflexivity.
    - intros h Hins Hh w2.
      assert (Hw2 : within marshalFootprint w w2).
      { eapply within_trans;
          [apply (within_Add marshalFootprint w NumMarshalTotal 1 eq_refl)|].
        eapply within_trans; [exact Hw1|].
        apply within_set_sizes. reflexivity. }
      destruct (isErr r.2); [|exact Hw2].
      eapply within_trans; [exact Hw2|].
      apply (within_Add marshalFootprint w2 NumMarshalErrors 1 eq_refl). }
  eapply wp_mono; [exact Hgoal|]. intros r w' [A0 A1 A2 A3 A4 A5 A6 A7].
  cbv beta.
  split; [exact A0|].
  split; [exact (A3 eq_refl)|]. split; [exact A1|]. split; [exact A2|].
  split; [exact A4|].
  split; [exact (A5 DirUnmarshal eq_refl)|].
  split; [exact (A6 DirUnmarshal eq_refl)|exact (A7 DirUnmarshal eq_refl)].
Qed.
End MarshalFootprint.

Section UnmarshalFootprint.
Context `{GoValues} `{!Engines} `{V1Defaults}.

Lemma UnmarshalBody_stays c orc b v o w :
  loadRandomMode (unmarshalCallRatio w) (rand_Float32 orc) ∈ callModes ->
  wp (UnmarshalBody c orc b v o)
     (λ _ w', within unmarshalBodyFootprint w w') w.
Proof.
  intros Hmode. unfold UnmarshalBody. apply wp_bind, wp_gets.
  each_mode Hmode; apply stays_wp; unfold UnmarshalDual, UnmarshalCheck;
    mode_tests; stays.
Qed.

(** X12.  [Codec.Unmarshal] returns for every declared mode, and besides
    the Go values writes only to the unmarshal metrics: the two ratio
    words, every marshal counter and the three marshal histograms are as
    they were; the only calls it makes are to the two unmarshal engines,
    to the clone hook, to the comparisons of Go values and of errors and
    to the difference sink, never to a marshal engine or the comparison
    of JSON values. *)
Theorem Unmarshal_footprint c orc b v o w :
  SizeHistogram_wf (UnmarshalSizeHistogram (metrics w)) ->
  loadRandomMode (unmarshalCallRatio w) (rand_Float32 orc) ∈ callModes ->
  exists err w',
    Unmarshal c orc b v o w = Some (err, w') /\
    (exists es, calls w' = calls w ++ es /\
                Forall (λ e, isUnmarshalEvent e = true) es) /\
    marshalCallRatio w' = marshalCallRatio w /\
    unmarshalCallRatio w' = unmarshalCallRatio w /\
    (forall k, isMarshalCounter k = true ->
       ints (metrics w') k = ints (metrics w) k) /\
    MarshalSizeHistogram (metrics w') = MarshalSizeHistogram (metrics w) /\
    MarshalCallerHistogram (metrics w') = MarshalCallerHistogram (metrics w) /\
    MarshalOptionHistogram (metrics w') = MarshalOptionHistogram (metrics w).
Proof.
  intros Hwf Hmode. apply wp_Some.
  assert (Hgoal : wp (Unmarshal c orc b v o)
                     (λ _ w', within unmarshalFootprint w w') w).
  { unfold Unmarshal. wp_steps.
    apply wp_insertSize; [world_simpl; exact Hwf|]. intros h Hins Hh.
    wp_steps.
    set (w1 := set_metrics _ _).
    assert (Hw1 : within unmarshalFootprint w w1).
    { eapply within_trans;
        [apply (within_Add unmarshalFootprint w NumUnmarshalTotal 1 eq_refl)|].
      apply within_set_sizes. reflexivity. }
    assert (Hrest : forall w2,
              within unmarshalFootprint w w2 ->
              unmarshalCallRatio w2 = unmarshalCallRatio w ->
              wp (bind (UnmarshalBody c orc b v o)
                    (λ err, bind (when (isErr err) (Add NumUnmarshalErrors 1))
                              (λ _, ret err)))
                 (λ _ w', within unmarshalFootprint w w') w2).
    { intros w2 Hw2 Hr. wp_step.
      eapply wp_mono; [apply UnmarshalBody_stays; rewrite Hr; exact Hmode|].
      intros err w3 Hw3%(within_narrower _ _ _ _ unmarshalBody_narrower).
      cbv beta. wp_step.
      assert (Hw3' : within unmarshalFootprint w w3)
        by (eapply within_trans; eassumption).
      destruct (isErr err); cbn [when]; wp_steps; [|exact Hw3'].
      eapply within_trans; [exact Hw3'|].
      apply (within_Add unmarshalFootprint w3 NumUnmarshalErrors 1 eq_refl). }
    destruct (negb (isPointerToZero v (heap w1))); cbn [when].
    - apply wp_Add. cbv beta. apply Hrest; [|reflexivity].
      eapply within_trans; [exact Hw1|].
      apply (within_Add unmarshalFootprint w1 NumUnmarshalMerge 1 eq_refl).
    - apply wp_ret. cbv beta. apply Hrest; [exact Hw1|reflexivity]. }
  eapply wp_mono; [exact Hgoal|]. intros r w' [A0 A1 A2 A3 A4 A5 A6 A7].
  cbv beta.
  split; [exact A0|]. split; [exact A1|]. split; [exact A2|].
  split; [intros k Hk; apply A4; cbn; rewrite Hk; reflexivity|].
  split; [exact (A5 DirMarshal eq_refl)|].
  split; [exact (A6 DirMarshal eq_refl)|exact (A7 DirMarshal eq_refl)].
Qed.
End UnmarshalFootprint.

(** ** Counting calls *)

Ltac ints_calc :=
  world_simpl;
  repeat first [rewrite ints_Add_eq | rewrite ints_Add_ne by discriminate].

(** The three monadic steps around the difference block (the first
    already under its bind), each of which stays within [fp]; [Hw] relates
    the world after them to the world before. *)
Ltac through_check fp Hw :=
  let a := fresh "a" in
  let w' := fresh "w" in
  let H1 := fresh "Hs" in
  let H2 := fresh "Hs" in
  let H3 := fresh "Hs" in
  (eapply wp_mono; [apply (stays_wp fp); stays|]);
  intros a w' H1; cbv beta;
  apply wp_bind; (eapply wp_mono; [apply (stays_wp fp); stays|]);
  intros ? ? H2; cbv beta;
  apply wp_bind; (eapply wp_mono; [apply (stays_wp fp); stays|]);
  intros ? ? H3; cbv beta;
  pose proof (within_trans _ _ _ _ (within_trans _ _ _ _ H1 H2) H3) as Hw;
  clear H1 H2 H3.

(** [oneMore ks w w'] with the counter named, the counters read off the
    world; [Hw] relates the world after the difference block to the one
    before it. *)
Ltac ints_read Hw :=
  ints_calc;
  try (rewrite (within_counter _ _ _ Hw) by reflexivity; ints_calc);
  try reflexivity.

Ltac one_more k Hw :=
  exists k; split; [rewrite !elem_of_cons; tauto|];
  split; [ints_read Hw|];
  let k' := fresh "k" in
  let Hin := fresh "Hin" in
  let Hne := fresh "Hne" in
  intros k' Hin Hne; rewrite !elem_of_cons, elem_of_nil in Hin;
  repeat (destruct Hin as [Hin|Hin]; [subst k'|]);
  try (destruct Hin); try (destruct (Hne eq_refl)); ints_read Hw.

Section MarshalAccounting.
Context `{GoValues} `{!Engines} `{V1Defaults}.

Lemma MarshalBody_accounting c orc v o w :
  loadRandomMode (marshalCallRatio w) (rand_Float32 orc) ∈ callModes ->
  wp (MarshalBody c orc v o)
     (λ _ w',
        oneMore [NumMarshalReturnV1; NumMarshalReturnV2] w w' /\
        oneMore [NumMarshalOnlyCallV1; NumMarshalOnlyCallV2;
                 NumMarshalCallBoth] w w') w.
Proof.
  intros Hmode. unfold MarshalBody. apply wp_bind, wp_gets.
  pose proof (within_refl (diffFootprint DirMarshal) w) as Hw0.
  each_mode Hmode.
  - wp_steps. split; [one_more NumMarshalReturnV1 Hw0|one_more NumMarshalOnlyCallV1 Hw0].
  - wp_steps. world_simpl.
    destruct (v1MarshalRun v o (heap w)) as [buf1 err1]. cbv beta iota.
    destruct (isErr err1); cbn [negb]; wp_steps.
    + world_simpl. destruct (jsonv2_Marshal v o (heap w)) as [buf2 err2].
      cbv beta iota. wp_steps.
      through_check (diffFootprint DirMarshal) Hw.
      wp_steps.
      split; [one_more NumMarshalReturnV2 Hw|one_more NumMarshalCallBoth Hw].
    + split; [one_more NumMarshalReturnV1 Hw0|one_more NumMarshalOnlyCallV1 Hw0].
  - wp_steps. world_simpl.
    destruct (v1MarshalRun v o (heap w)) as [buf1 err1]. cbv beta iota.
    wp_steps. world_simpl.
    destruct (jsonv2_Marshal v o (heap w)) as [buf2 err2]. cbv beta iota.
    wp_steps. through_check (diffFootprint DirMarshal) Hw. wp_steps.
    split; [one_more NumMarshalReturnV1 Hw|one_more NumMarshalCallBoth Hw].
  - wp_steps. world_simpl.
    destruct (v1MarshalRun v o (heap w)) as [buf1 err1]. cbv beta iota.
    wp_steps. world_simpl.
    destruct (jsonv2_Marshal v o (heap w)) as [buf2 err2]. cbv beta iota.
    wp_steps. through_check (diffFootprint DirMarshal) Hw. wp_steps.
    split; [one_more NumMarshalReturnV2 Hw|one_more NumMarshalCallBoth Hw].
  - wp_steps. world_simpl.
    destruct (jsonv2_Marshal v o (heap w)) as [buf2 err2]. cbv beta iota.
    destruct (isErr err2); cbn [negb]; wp_steps.
    + world_simpl. destruct (v1MarshalRun v o (heap w)) as [buf1 err1].
      cbv beta iota. wp_steps.
      through_check (diffFootprint DirMarshal) Hw.
      wp_steps.
      split; [one_more NumMarshalReturnV1 Hw|one_more NumMarshalCallBoth Hw].
    + split; [one_more NumMarshalReturnV2 Hw0|one_more NumMarshalOnlyCallV2 Hw0].
  - wp_steps. split; [one_more NumMarshalReturnV2 Hw0|one_more NumMarshalOnlyCallV2 Hw0].
Qed.
Lemma wp_conj {A} (m : M A) (Q1 Q2 : A → World → Prop) w :
  wp m Q1 w -> wp m Q2 w -> wp m (λ a w', Q1 a w' /\ Q2 a w') w.
Proof. unfold wp. destruct (m w) as [[a w']|]; auto. Qed.

Lemma oneMore_ext ks (w0 w1 w w' : World) :
  (forall k, k ∈ ks -> ints (metrics w0) k = ints (metrics w) k) ->
  (forall k, k ∈ ks -> ints (metrics w') k = ints (metrics w1) k) ->
  oneMore ks w0 w1 -> oneMore ks w w'.
Proof.
  intros H0w H1w (k & Hk & Hup & Hrest). exists k. split; [exact Hk|]. split.
  - rewrite H1w, Hup, H0w by exact Hk. reflexivity.
  - intros k' Hk' Hne. rewrite H1w, (Hrest k' Hk' Hne), H0w by exact Hk'.
    reflexivity.
Qed.

(** X13.  Every [Codec.Marshal] call counts itself once in
    [NumMarshalTotal], once in exactly one of [NumMarshalReturnV1] and
    [NumMarshalReturnV2], and once in exactly one of
    [NumMarshalOnlyCallV1], [NumMarshalOnlyCallV2] and
    [NumMarshalCallBoth]; it counts an error exactly when it returns one,
    and enters the length of the bytes it returns in the size histogram. *)
Theorem Marshal_accounting c orc v o w :
  SizeHistogram_wf (MarshalSizeHistogram (metrics w)) ->
  loadRandomMode (marshalCallRatio w) (rand_Float32 orc) ∈ callModes ->
  exists r w',
    Marshal c orc v o w = Some (r, w') /\
    ints (metrics w') NumMarshalTotal
      = int64_add (ints (metrics w) NumMarshalTotal) 1 /\
    ints (metrics w') NumMarshalErrors
      = (if isErr r.2 then int64_add (ints (metrics w) NumMarshalErrors) 1
         else ints (metrics w) NumMarshalErrors) /\
    insertSize (MarshalSizeHistogram (metrics w)) (len r.1)
      = Some (MarshalSizeHistogram (metrics w')) /\
    oneMore [NumMarshalReturnV1; NumMarshalReturnV2] w w' /\
    oneMore [NumMarshalOnlyCallV1; NumMarshalOnlyCallV2; NumMarshalCallBoth]
            w w'.
Proof.
  intros Hwf Hmode. apply wp_Some. apply wp_Marshal; [exact Hwf|].
  set (w0 := set_metrics _ w).
  eapply wp_mono;
    [apply wp_conj;
       [apply (MarshalBody_stays c orc v o w0); exact Hmode
       |apply (MarshalBody_accounting c orc v o w0); exact Hmode]|].
  intros r w1 [Hw1 [Hret Hcall]]. cbv beta.
  split; [rewrite (within_sizes _ _ _ Hw1 DirMarshal eq_refl); reflexivity|].
  intros h Hins Hh w2.
  assert (Hk : forall k, k <> NumMarshalErrors ->
            ints (metrics (if isErr r.2
               then set_metrics (set_ints
                      (ints_Add (ints (metrics w2)) NumMarshalErrors 1)
                      (metrics w2)) w2
               else w2)) k = ints (metrics w1) k).
  { intros k Hne. destruct (isErr r.2); subst w2; ints_calc; try reflexivity.
    rewrite ints_Add_ne by exact Hne. reflexivity. }
  split; [|split; [|split; [|split]]].
  - rewrite Hk by discriminate.
    rewrite (within_counter _ _ _ Hw1) by reflexivity.
    subst w0. ints_calc. reflexivity.
  - destruct (isErr r.2); subst w2; ints_calc;
      rewrite (within_counter _ _ _ Hw1) by reflexivity;
      subst w0; ints_calc; reflexivity.
  - rewrite Hins. f_equal. destruct (isErr r.2); reflexivity.
  - apply (oneMore_ext _ w0 w1); [| |exact Hret].
    + intros k Hin. rewrite !elem_of_cons, elem_of_nil in Hin.
      destruct Hin as [->|[->|[]]]; subst w0; ints_calc; reflexivity.
    + intros k Hin. apply Hk. rewrite !elem_of_cons, elem_of_nil in Hin.
      destruct Hin as [->|[->|[]]]; discriminate.
  - apply (oneMore_ext _ w0 w1); [| |exact Hcall].
    + intros k Hin. rewrite !elem_of_cons, elem_of_nil in Hin.
      destruct Hin as [->|[->|[->|[]]]]; subst w0; ints_calc; reflexivity.
    + intros k Hin. apply Hk. rewrite !elem_of_cons, elem_of_nil in Hin.
      destruct Hin as [->|[->|[->|[]]]]; discriminate.
Qed.
End MarshalAccounting.

(** [UnmarshalCheck], already under its bind. *)
Ltac through_ucheck Hw :=
  (eapply wp_mono;
     [apply (stays_wp (diffFootprint DirUnmarshal));
      unfold UnmarshalCheck; stays|]);
  intros ? ? Hw; cbv beta.

Section UnmarshalAccounting.
Context `{GoValues} `{!Engines} `{V1Defaults}.

Lemma UnmarshalBody_accounting c orc b v o w :
  loadRandomMode (unmarshalCallRatio w) (rand_Float32 orc) ∈ callModes ->
  wp (UnmarshalBody c orc b v o)
     (λ _ w',
        oneMore [NumUnmarshalReturnV1; NumUnmarshalReturnV2] w w' /\
        oneMore [NumUnmarshalOnlyCallV1; NumUnmarshalOnlyCallV2;
                 NumUnmarshalCallBoth] w w' /\
        (ints (metrics w') NumUnmarshalCallBothSkipped
           = ints (metrics w) NumUnmarshalCallBothSkipped \/
         ints (metrics w') NumUnmarshalCallBothSkipped
           = int64_add (ints (metrics w) NumUnmarshalCallBothSkipped) 1 /\
         ints (metrics w') NumUnmarshalCallBoth
           = ints (metrics w) NumUnmarshalCallBoth)) w.
Proof.
  intros Hmode. unfold UnmarshalBody. apply wp_bind, wp_gets.
  pose proof (within_refl (diffFootprint DirUnmarshal) w) as Hw0.
  each_mode Hmode.
  - wp_steps.
    split; [one_more NumUnmarshalReturnV1 Hw0|].
    split; [one_more NumUnmarshalOnlyCallV1 Hw0|left; ints_read Hw0].
  - wp_steps. world_simpl.
    destruct (notNil (cloneRun c v (heap w)).1); cbn [negb].
    + unfold UnmarshalDual. mode_tests. wp_steps. world_simpl.
      destruct (isErr _); cbn [negb]; wp_steps.
      * through_ucheck Hw. wp_steps.
        split; [one_more NumUnmarshalReturnV2 Hw|].
        split; [one_more NumUnmarshalCallBoth Hw|left; ints_read Hw].
      * split; [one_more NumUnmarshalReturnV1 Hw0|].
        split; [one_more NumUnmarshalOnlyCallV1 Hw0|left; ints_read Hw0].
    + wp_steps.
      split; [one_more NumUnmarshalReturnV1 Hw0|].
      split; [one_more NumUnmarshalOnlyCallV1 Hw0|].
      right. split; ints_read Hw0.
  - wp_steps. world_simpl.
    destruct (notNil (cloneRun c v (heap w)).1); cbn [negb].
    + unfold UnmarshalDual. mode_tests. wp_steps. world_simpl.
      through_ucheck Hw. wp_steps.
      split; [one_more NumUnmarshalReturnV1 Hw|].
      split; [one_more NumUnmarshalCallBoth Hw|left; ints_read Hw].
    + wp_steps.
      split; [one_more NumUnmarshalReturnV1 Hw0|].
      split; [one_more NumUnmarshalOnlyCallV1 Hw0|].
      right. split; ints_read Hw0.
  - wp_steps. world_simpl.
    destruct (notNil (cloneRun c v (heap w)).1); cbn [negb].
    + unfold UnmarshalDual. mode_tests. wp_steps. world_simpl.
      through_ucheck Hw. wp_steps.
      split; [one_more NumUnmarshalReturnV2 Hw|].
      split; [one_more NumUnmarshalCallBoth Hw|left; ints_read Hw].
    + wp_steps.
      split; [one_more NumUnmarshalReturnV2 Hw0|].
      split; [one_more NumUnmarshalOnlyCallV2 Hw0|].
      right. split; ints_read Hw0.
  - wp_steps. world_simpl.
    destruct (notNil (cloneRun c v (heap w)).1); cbn [negb].
    + unfold UnmarshalDual. mode_tests. wp_steps. world_simpl.
      destruct (isErr _); cbn [negb]; wp_steps.
      * through_ucheck Hw. wp_steps.
        split; [one_more NumUnmarshalReturnV1 Hw|].
        split; [one_more NumUnmarshalCallBoth Hw|left; ints_read Hw].
      * split; [one_more NumUnmarshalReturnV2 Hw0|].
        split; [one_more NumUnmarshalOnlyCallV2 Hw0|left; ints_read Hw0].
    + wp_steps.
      split; [one_more NumUnmarshalReturnV2 Hw0|].
      split; [one_more NumUnmarshalOnlyCallV2 Hw0|].
      right. split; ints_read Hw0.
  - wp_steps.
    split; [one_more NumUnmarshalReturnV2 Hw0|].
    split; [one_more NumUnmarshalOnlyCallV2 Hw0|left; ints_read Hw0].
Qed.
(** X14.  Every [Codec.Unmarshal] call counts itself once in
    [NumUnmarshalTotal], once in exactly one of [NumUnmarshalReturnV1] and
    [NumUnmarshalReturnV2], and once in exactly one of
    [NumUnmarshalOnlyCallV1], [NumUnmarshalOnlyCallV2] and
    [NumUnmarshalCallBoth]; a call counted in [NumUnmarshalCallBothSkipped]
    is not counted in [NumUnmarshalCallBoth]; an error is counted exactly
    when one is returned, and the length of the input is entered in the
    size histogram. *)
Theorem Unmarshal_accounting c orc b v o w :
  SizeHistogram_wf (UnmarshalSizeHistogram (metrics w)) ->
  loadRandomMode (unmarshalCallRatio w) (rand_Float32 orc) ∈ callModes ->
  exists err w',
    Unmarshal c orc b v o w = Some (err, w') /\
    ints (metrics w') NumUnmarshalTotal
      = int64_add (ints (metrics w) NumUnmarshalTotal) 1 /\
    ints (metrics w') NumUnmarshalErrors
      = (if isErr err then int64_add (ints (metrics w) NumUnmarshalErrors) 1
         else ints (metrics w) NumUnmarshalErrors) /\
    insertSize (UnmarshalSizeHistogram (metrics w)) (len b)
      = Some (UnmarshalSizeHistogram (metrics w')) /\
    oneMore [NumUnmarshalReturnV1; NumUnmarshalReturnV2] w w' /\
    oneMore [NumUnmarshalOnlyCallV1; NumUnmarshalOnlyCallV2;
             NumUnmarshalCallBoth] w w' /\
    (ints (metrics w') NumUnmarshalCallBothSkipped
       = ints (metrics w) NumUnmarshalCallBothSkipped \/
     ints (metrics w') NumUnmarshalCallBothSkipped
       = int64_add (ints (metrics w) NumUnmarshalCallBothSkipped) 1 /\
     ints (metrics w') NumUnmarshalCallBoth
       = ints (metrics w) NumUnmarshalCallBoth).
Proof.
  intros Hwf Hmode. apply wp_Some. unfold Unmarshal. wp_steps.
  apply wp_insertSize; [world_simpl; exact Hwf|]. intros h Hins Hh.
  world_simpl. wp_steps.
  set (w1 := set_metrics _ _).
  set (Post := λ (err : error) (w' : World), _ /\ _).
  assert (Hrest : forall w2,
            unmarshalCallRatio w2 = unmarshalCallRatio w ->
            UnmarshalSizeHistogram (metrics w2) = h ->
            ints (metrics w2) NumUnmarshalTotal
              = int64_add (ints (metrics w) NumUnmarshalTotal) 1 ->
            (forall k, k <> NumUnmarshalTotal -> k <> NumUnmarshalMerge ->
               ints (metrics w2) k = ints (metrics w) k) ->
            wp (bind (UnmarshalBody c orc b v o)
                  (λ err, bind (when (isErr err) (Add NumUnmarshalErrors 1))
                            (λ _, ret err)))
               Post w2).
  { intros w2 Hr Hsz Htot Hk. wp_step.
    eapply wp_mono;
      [apply wp_conj;
         [apply (UnmarshalBody_stays c orc b v o w2); rewrite Hr; exact Hmode
         |apply (UnmarshalBody_accounting c orc b v o w2);
          rewrite Hr; exact Hmode]|].
    intros err w3 [Hw3 (Hret & Hcall & Hskip)]. cbv beta. wp_step.
    assert (Hfin : forall w4,
              (forall k, k <> NumUnmarshalErrors ->
                 ints (metrics w4) k = ints (metrics w3) k) ->
              ints (metrics w4) NumUnmarshalErrors
                = (if isErr err
                   then int64_add (ints (metrics w3) NumUnmarshalErrors) 1
                   else ints (metrics w3) NumUnmarshalErrors) ->
              UnmarshalSizeHistogram (metrics w4)
                = UnmarshalSizeHistogram (metrics w3) ->
              Post err w4).
    { intros w4 Hk4 He4 Hs4. subst Post. cbv beta.
      split; [|split; [|split; [|split; [|split]]]].
      - rewrite Hk4 by discriminate.
        rewrite (within_counter _ _ _ Hw3) by reflexivity. exact Htot.
      - rewrite He4. rewrite (within_counter _ _ _ Hw3) by reflexivity.
        rewrite Hk by discriminate. reflexivity.
      - rewrite Hs4.
        pose proof (within_sizes _ _ _ Hw3 DirUnmarshal eq_refl) as Hs3.
        cbn [sizeHistogram] in Hs3. rewrite Hs3, Hsz. exact Hins.
      - apply (oneMore_ext _ w2 w3); [| |exact Hret].
        + intros k Hin. apply Hk; rewrite !elem_of_cons, elem_of_nil in Hin;
            destruct Hin as [->|[->|[]]]; discriminate.
        + intros k Hin. apply Hk4. rewrite !elem_of_cons, elem_of_nil in Hin.
          destruct Hin as [->|[->|[]]]; discriminate.
      - apply (oneMore_ext _ w2 w3); [| |exact Hcall].
        + intros k Hin. apply Hk; rewrite !elem_of_cons, elem_of_nil in Hin;
            destruct Hin as [->|[->|[->|[]]]]; discriminate.
        + intros k Hin. apply Hk4. rewrite !elem_of_cons, elem_of_nil in Hin.
          destruct Hin as [->|[->|[->|[]]]]; discriminate.
      - rewrite !Hk4 by discriminate. rewrite <- !Hk by discriminate.
        exact Hskip. }
    destruct (isErr err) eqn:Herr; cbn [when]; wp_steps.
    - apply Hfin.
      + intros k Hne. world_simpl. rewrite ints_Add_ne by exact Hne.
        reflexivity.
      + ints_calc. reflexivity.
      + reflexivity.
    - apply Hfin; [reflexivity|reflexivity|reflexivity]. }
  destruct (negb (isPointerToZero v (heap w1))); cbn [when].
  - apply wp_Add. cbv beta. apply Hrest.
    + reflexivity.
    + reflexivity.
    + subst w1. ints_calc. reflexivity.
    + intros k Hk1 Hk2. subst w1. world_simpl.
      rewrite !ints_Add_ne by assumption. reflexivity.
  - apply wp_ret. cbv beta. apply Hrest.
    + reflexivity.
    + reflexivity.
    + subst w1. ints_calc. reflexivity.
    + intros k Hk1 Hk2. subst w1. world_simpl.
      rewrite !ints_Add_ne by assumption. reflexivity.
Qed.
End UnmarshalAccounting.

(** ** The example collaborators again *)

Lemma worldWith_valid mode x :
  mode ∈ callModes ->
  loadRandomMode (marshalCallRatio (worldWith mode x))
    (rand_Float32 exampleOracle) ∈ callModes /\
  loadRandomMode (unmarshalCallRatio (worldWith mode x))
    (rand_Float32 exampleOracle) ∈ callModes.
Proof.
  intros Hin. destruct (worldWith_mode mode x Hin) as [-> ->]. auto.
Qed.

Lemma bothV1_valid : CallBothButReturnV1 ∈ callModes.
Proof. apply callModes_range. unfold CallBothButReturnV1. lia. Qed.

Lemma autoDetectOptions_probes_witness :
  let optsCall := JoinOptions (H := exampleV1Defaults) [] in
  let optsV1 := JoinOptions (H := exampleV1Defaults) [DefaultOptionsV1; optsCall] in
  let unset := filter (λ name, (GetOption (H := exampleV1Defaults)
                                  optsCall name).2 = false)
                      defaultOptionsV1 in
  exists r,
    autoDetectOptions (H := exampleV1Defaults) (counting needsInvalidUTF8)
      defaultOptionsV1 [] 0%nat
    = Some (r, (0 + if needsInvalidUTF8 [optsV1]
                    then 1 + length unset else 1)%nat) /\
    (length unset <= length defaultOptionsV1)%nat.
Proof.
  apply (autoDetectOptions_probes (H := exampleV1Defaults)
           needsInvalidUTF8 [] defaultOptionsV1 0%nat).
  reflexivity.
Defined.

Lemma Marshal_footprint_witness :
  exists r w',
    Marshal (H0 := exampleEngines) (H1 := exampleV1Defaults)
      (exampleCodec None) exampleOracle target0 []
      (worldWith CallBothButReturnV1 0) = Some (r, w') /\
    heap w' = heap (worldWith CallBothButReturnV1 0).
Proof.
  destruct (Marshal_footprint (H0 := exampleEngines) (H1 := exampleV1Defaults)
              (exampleCodec None) exampleOracle target0 []
              (worldWith CallBothButReturnV1 0)
              (proj1 (worldWith_wf CallBothButReturnV1 0))
              (proj1 (worldWith_valid CallBothButReturnV1 0 bothV1_valid)))
    as (r & w' & Hrun & _ & Hheap & _).
  exists r, w'. split; [exact Hrun|exact Hheap].
Defined.

Lemma Unmarshal_footprint_witness :
  exists err w',
    Unmarshal (H0 := exampleEngines) (H1 := exampleV1Defaults)
      (exampleCodec None) exampleOracle "1" target0 []
      (worldWith CallBothButReturnV1 0) = Some (err, w') /\
    MarshalSizeHistogram (metrics w')
      = MarshalSizeHistogram (metrics (worldWith CallBothButReturnV1 0)).
Proof.
  destruct (Unmarshal_footprint (H0 := exampleEngines)
              (H1 := exampleV1Defaults)
              (exampleCodec None) exampleOracle "1" target0 []
              (worldWith CallBothButReturnV1 0)
              (proj2 (worldWith_wf CallBothButReturnV1 0))
              (proj2 (worldWith_valid CallBothButReturnV1 0 bothV1_valid)))
    as (err & w' & Hrun & _ & _ & _ & _ & Hsz & _).
  exists err, w'. split; [exact Hrun|exact Hsz].
Defined.

Lemma Marshal_accounting_witness :
  exists r w',
    Marshal (H0 := exampleEngines) (H1 := exampleV1Defaults)
      (exampleCodec None) exampleOracle target0 []
      (worldWith CallBothButReturnV1 0) = Some (r, w') /\
    ints (metrics w') NumMarshalTotal
      = int64_add (ints (metrics (worldWith CallBothButReturnV1 0))
                        NumMarshalTotal) 1.
Proof.
  destruct (Marshal_accounting (H0 := exampleEngines) (H1 := exampleV1Defaults)
              (exampleCodec None) exampleOracle target0 []
              (worldWith CallBothButReturnV1 0)
              (proj1 (worldWith_wf CallBothButReturnV1 0))
              (proj1 (worldWith_valid CallBothButReturnV1 0 bothV1_valid)))
    as (r & w' & Hrun & Htot & _).
  exists r, w'. split; [exact Hrun|exact Htot].
Defined.

Lemma Unmarshal_accounting_witness :
  exists err w',
    Unmarshal (H0 := exampleEngines) (H1 := exampleV1Defaults)
      (exampleCodec None) exampleOracle "1" target0 []
      (worldWith CallBothButReturnV1 0) = Some (err, w') /\
    ints (metrics w') NumUnmarshalTotal
      = int64_add (ints (metrics (worldWith CallBothButReturnV1 0))
                        NumUnmarshalTotal) 1.
Proof.
  destruct (Unmarshal_accounting (H0 := exampleEngines)
              (H1 := exampleV1Defaults)
              (exampleCodec None) exampleOracle "1" target0 []
              (worldWith CallBothButReturnV1 0)
              (proj2 (worldWith_wf CallBothButReturnV1 0))
              (proj2 (worldWith_valid CallBothButReturnV1 0 bothV1_valid)))
    as (err & w' & Hrun & Htot & _).
  exists err, w'. split; [exact Hrun|exact Htot].
Defined.

(** ** The dual path of Marshal *)

(** Steps up to the point where both engines have run. *)
Ltac wp_to_tail :=
  repeat
    (lazymatch goal with
     | |- wp (bind (Add NumMarshalCallBoth _) _) _ _ => fail
     | |- wp (bind (Add NumUnmarshalCallBoth _) _) _ _ => fail
     | _ => wp_step
     end).

Section MarshalDual.
Context `{GoValues} `{!Engines} `{V1Defaults}.

Lemma wp_jsonEqual_exact c v1 v2 (Q : bool → World → Prop) w :
  Q (jsonSame c v1 v2) (set_calls (calls w ++ [CallJsonEqual v1 v2]) w) ->
  wp (jsonEqual c v1 v2) Q w.
Proof.
  intros HQ. unfold jsonEqual, jsonSame in *. apply wp_bind, wp_logCall.
  destruct (EqualJSONValues c); apply wp_ret, HQ.
Qed.

Lemma wp_errorsEqual_exact c e1 e2 (Q : bool → World → Prop) w :
  Q (errorsSame c e1 e2) (set_calls (calls w ++ [CallErrorsEqual e1 e2]) w) ->
  wp (errorsEqual c e1 e2) Q w.
Proof.
  intros HQ. unfold errorsEqual, errorsSame in *. apply wp_bind, wp_logCall.
  destruct (EqualErrors c); apply wp_ret, HQ.
Qed.

Lemma autoDetectLoop_sim (I : World → Prop)
    (arshalEqual : list Options → M bool) (P : list Options → bool)
    optsCall optsV1 order opts w :
  I w ->
  (forall os w', I w' ->
     wp (arshalEqual os) (λ r w'', r = P os /\ I w'') w') ->
  wp (autoDetectLoop arshalEqual optsCall optsV1 order opts)
     (λ r w',
        autoDetectLoop (S := unit) (λ os, ret (P os)) optsCall optsV1
                       order opts tt = Some (r, tt) /\
        I w') w.
Proof.
  intros Hw Hstep. revert opts w Hw.
  induction order as [|name order IH]; intros opts w Hw.
  - apply wp_ret. split; [reflexivity|exact Hw].
  - cbn [autoDetectLoop]. destruct (GetOption optsCall name).2; [auto|].
    apply wp_bind. eapply wp_mono; [apply Hstep; exact Hw|].
    intros ok w' [-> Hw']. cbv beta. apply IH. exact Hw'.
Qed.

Lemma autoDetectOptions_pure (P : list Options → bool) order o :
  autoDetectOptions (S := unit) (λ os, ret (P os)) order o tt
  = if P [JoinOptions [DefaultOptionsV1; JoinOptions o]]
    then match autoDetectLoop (S := unit) (λ os, ret (P os)) (JoinOptions o)
                 (JoinOptions [DefaultOptionsV1; JoinOptions o]) order [] tt
         with
         | Some (opts, s) => Some (JoinOptions opts, s)
         | None => None
         end
    else Some (NilOptions, tt).
Proof.
  unfold autoDetectOptions. unfold bind at 1, ret at 1.
  destruct (P _); reflexivity.
Qed.

Lemma autoDetectOptions_sim (I : World → Prop)
    (arshalEqual : list Options → M bool) (P : list Options → bool)
    order o w :
  I w ->
  (forall os w', I w' ->
     wp (arshalEqual os) (λ r w'', r = P os /\ I w'') w') ->
  wp (autoDetectOptions arshalEqual order o)
     (λ r w',
        autoDetectOptions (S := unit) (λ os, ret (P os)) order o tt
          = Some (r, tt) /\
        I w') w.
Proof.
  intros Hw Hstep. rewrite autoDetectOptions_pure.
  unfold autoDetectOptions. apply wp_bind.
  eapply wp_mono; [apply Hstep; exact Hw|].
  intros ok w' [-> Hw']. cbv beta.
  destruct (P _); cbn [negb].
  - apply wp_bind.
    eapply wp_mono; [apply (autoDetectLoop_sim I); eassumption|].
    intros opts w'' [Hopts Hw'']. cbv beta. apply wp_ret.
    split; [|exact Hw'']. rewrite Hopts. reflexivity.
  - apply wp_ret. split; [reflexivity|exact Hw'].
Qed.

Lemma wp_addOptions d names w :
  wp (forM_ names (OptionHistogram_Add d))
     (λ _ w',
        optionHistogram d (metrics w')
          = addOptions (optionHistogram d (metrics w)) names) w.
Proof.
  revert w. induction names as [|name names IH]; intros w.
  - apply wp_ret. reflexivity.
  - cbn [forM_]. apply wp_bind. unfold OptionHistogram_Add at 1.
    apply wp_modify. eapply wp_mono; [apply IH|].
    intros u w' Hw'. cbv beta in Hw' |- *. rewrite Hw'.
    destruct d; reflexivity.
Qed.

(** The detection of options in [Codec.Marshal]: the test asks v2 again
    and compares with the result of v1; the Go values stay as they are,
    so it answers as [marshalAgrees] does throughout. *)
Lemma MarshalDetect_run c orc v o buf1 err1 w :
  wp (options <- autoDetectOptions
        (λ o,
           '(buf2, err2) <- jsonv2Marshal v o;;
           eqj <- jsonEqual c buf1 buf2;;
           if eqj then errorsEqual c err1 err2 else ret false)
        (rangeOrder orc) o;;
      forM_ (optionNames options) (OptionHistogram_Add DirMarshal);;
      ret options)%st
     (λ options w',
        autoDetectOptions (S := unit)
          (λ os, ret (marshalAgrees c v buf1 err1 (heap w) os))
          (rangeOrder orc) o tt = Some (options, tt) /\
        MarshalOptionHistogram (metrics w')
          = addOptions (MarshalOptionHistogram (metrics w))
                       (optionNames options)) w.
Proof.
  apply wp_bind.
  eapply wp_mono;
    [apply (autoDetectOptions_sim
              (λ w', heap w' = heap w /\ metrics w' = metrics w)
              _ (marshalAgrees c v buf1 err1 (heap w)));
     [split; reflexivity|]|].
  - intros os w' [Hh Hm]. apply wp_bind, wp_jsonv2Marshal.
    unfold marshalAgrees. rewrite Hh.
    destruct (jsonv2_Marshal v os (heap w)) as [buf2 err2]. cbv beta iota.
    apply wp_bind, wp_jsonEqual_exact. cbv beta.
    destruct (jsonSame c buf1 buf2); cbn [andb].
    + apply wp_errorsEqual_exact. split; [reflexivity|].
      split; [exact Hh|exact Hm].
    + apply wp_ret. split; [reflexivity|]. split; [exact Hh|exact Hm].
  - intros options w' (Hopts & _ & Hm). cbv beta. apply wp_bind.
    eapply wp_mono; [apply (wp_addOptions DirMarshal)|].
    intros u w'' Hw''. cbv beta in Hw'' |- *. apply wp_ret.
    split; [exact Hopts|]. cbn [optionHistogram] in Hw''.
    rewrite Hw'', Hm. reflexivity.
Qed.

Lemma MarshalDiffBlock_run c orc v o buf1 err1 buf2 err2 w :
  wp (MarshalDiffBlock c orc v o buf1 err1 buf2 err2)
     (λ _ w',
        (forall k, k <> NumMarshalDiffs ->
           ints (metrics w') k = ints (metrics w) k) /\
        ints (metrics w') NumMarshalDiffs
          = int64_add (ints (metrics w) NumMarshalDiffs) 1 /\
        MarshalCallerHistogram (metrics w')
          = expvarMap_Add (MarshalCallerHistogram (metrics w))
                          (runtime_caller orc) 1 /\
        (AutoDetectOptions c = false ->
           MarshalOptionHistogram (metrics w')
             = MarshalOptionHistogram (metrics w)) /\
        exists probes options,
          calls w' = calls w ++ probes ++
            (if ReportDifference c
             then [CallReportDifference
                     (marshalDifference orc v buf1 err1 buf2 err2 options)]
             else []) /\
          Forall (λ e, isMarshalEvent e && negb (isReport e) = true) probes /\
          (AutoDetectOptions c = false ->
             probes = [] /\ options = NilOptions) /\
          (AutoDetectOptions c = true ->
             autoDetectOptions (S := unit)
               (λ os, ret (marshalAgrees c v buf1 err1 (heap w) os))
               (rangeOrder orc) o tt = Some (options, tt) /\
             MarshalOptionHistogram (metrics w')
               = addOptions (MarshalOptionHistogram (metrics w))
                            (optionNames options))) w.
Proof.
  unfold MarshalDiffBlock. cbv zeta.
  apply wp_bind, wp_Add. cbv beta.
  apply wp_bind. unfold CallerHistogram_Add at 1. apply wp_modify. cbv beta.
  set (w2 := set_metrics _ _).
  apply wp_bind.
  apply wp_mono with
    (Q := λ options w3,
       within (probeFootprint DirMarshal) w2 w3 /\
       (AutoDetectOptions c = false -> options = NilOptions /\ w3 = w2) /\
       (AutoDetectOptions c = true ->
          autoDetectOptions (S := unit)
            (λ os, ret (marshalAgrees c v buf1 err1 (heap w) os))
            (rangeOrder orc) o tt = Some (options, tt) /\
          MarshalOptionHistogram (metrics w3)
            = addOptions (MarshalOptionHistogram (metrics w))
                         (optionNames options))).
  { destruct (AutoDetectOptions c).
    - eapply wp_mono;
        [apply wp_conj;
           [apply (stays_wp (probeFootprint DirMarshal)); stays
           |apply (MarshalDetect_run c orc v o buf1 err1 w2)]|].
      intros options w3 [Hw3 Hdet]. cbv beta.
      split; [exact Hw3|]. split; [discriminate|]. intros _. exact Hdet.
    - apply wp_ret. split; [apply within_refl|].
      split; [auto|discriminate]. }
  intros options w3 (Hw3 & Hoff & Hon). cbv beta.
  destruct Hw3 as [(probes & Hcalls & Hprobes) _ _ _ Hk _ Hcallers Hopts].
  assert (Hfinal : forall w4,
            metrics w4 = metrics w3 ->
            calls w4 = calls w3 ++
              (if ReportDifference c
               then [CallReportDifference
                       (marshalDifference orc v buf1 err1 buf2 err2 options)]
               else []) ->
            (forall k, k <> NumMarshalDiffs ->
               ints (metrics w4) k = ints (metrics w) k) /\
            ints (metrics w4) NumMarshalDiffs
              = int64_add (ints (metrics w) NumMarshalDiffs) 1 /\
            MarshalCallerHistogram (metrics w4)
              = expvarMap_Add (MarshalCallerHistogram (metrics w))
                              (runtime_caller orc) 1 /\
            (AutoDetectOptions c = false ->
               MarshalOptionHistogram (metrics w4)
                 = MarshalOptionHistogram (metrics w)) /\
            exists probes options,
              calls w4 = calls w ++ probes ++
                (if ReportDifference c
                 then [CallReportDifference
                         (marshalDifference orc v buf1 err1 buf2 err2 options)]
                 else []) /\
              Forall (λ e, isMarshalEvent e && negb (isReport e) = true)
                     probes /\
              (AutoDetectOptions c = false ->
                 probes = [] /\ options = NilOptions) /\
              (AutoDetectOptions c = true ->
                 autoDetectOptions (S := unit)
                   (λ os, ret (marshalAgrees c v buf1 err1 (heap w) os))
                   (rangeOrder orc) o tt = Some (options, tt) /\
                 MarshalOptionHistogram (metrics w4)
                   = addOptions (MarshalOptionHistogram (metrics w))
                                (optionNames options))).
  { intros w4 Hm Hc. rewrite Hm.
    split; [|split; [|split; [|split]]].
    - intros k Hne. rewrite (Hk k eq_refl). subst w2. world_simpl.
      rewrite ints_Add_ne by exact Hne. reflexivity.
    - rewrite (Hk _ eq_refl). subst w2. world_simpl.
      rewrite ints_Add_eq. reflexivity.
    - pose proof (Hcallers DirMarshal eq_refl) as Hc1. cbn in Hc1.
      rewrite Hc1. reflexivity.
    - intros Hauto. destruct (Hoff Hauto) as [_ ->]. reflexivity.
    - exists probes, options. split; [|split; [|split]].
      + rewrite Hc, Hcalls. subst w2. world_simpl.
        rewrite <- app_assoc. reflexivity.
      + exact Hprobes.
      + intros Hauto. destruct (Hoff Hauto) as [-> Hw]. split; [|reflexivity].
        rewrite Hw in Hcalls. symmetry in Hcalls.
        rewrite <- (app_nil_r (calls w2)) in Hcalls at 2.
        apply (inj (app (calls w2))) in Hcalls. exact Hcalls.
      + exact Hon. }
  destruct (ReportDifference c); cbn [when].
  - apply wp_logCall. apply Hfinal; reflexivity.
  - apply wp_ret. apply Hfinal; [reflexivity|]. by rewrite app_nil_r.
Qed.
Lemma MarshalTail_run c orc v o mode buf1 err1 buf2 err2 dur1 dur2 w :
  wp (MarshalTail c orc v o mode buf1 err1 buf2 err2 dur1 dur2)
     (λ r w',
        r = (if returnsV1 mode then (buf1, err1) else (buf2, err2)) /\
        MarshalTailPost c orc v o mode buf1 err1 buf2 err2 dur1 dur2 w w') w.
Proof.
  unfold MarshalTail.
  apply wp_bind, wp_Add. cbv beta. apply wp_bind, wp_Add. cbv beta.
  apply wp_bind, wp_Add. cbv beta.
  set (w3 := set_metrics _ _).
  assert (Hw3 : calls w3 = calls w) by reflexivity.
  apply wp_bind, wp_jsonEqual_exact. cbv beta.
  set (w4 := set_calls _ w3).
  (* the world after the check, whichever way it went *)
  assert (Hselect : forall w5,
    (forall k, k <> NumMarshalDiffs ->
       ints (metrics w5) k = ints (metrics w3) k) ->
    ints (metrics w5) NumMarshalDiffs
      = (if jsonSame c buf1 buf2 && errorsSame c err1 err2
         then ints (metrics w) NumMarshalDiffs
         else int64_add (ints (metrics w) NumMarshalDiffs) 1) ->
    MarshalCallerHistogram (metrics w5)
      = (if jsonSame c buf1 buf2 && errorsSame c err1 err2
         then MarshalCallerHistogram (metrics w)
         else expvarMap_Add (MarshalCallerHistogram (metrics w))
                            (runtime_caller orc) 1) ->
    (jsonSame c buf1 buf2 && errorsSame c err1 err2 = true \/
     AutoDetectOptions c = false ->
     MarshalOptionHistogram (metrics w5) = MarshalOptionHistogram (metrics w)) ->
    (exists probes options,
       calls w5 = calls w ++
         marshalCheckLog c orc v buf1 err1 buf2 err2 probes options /\
       Forall (λ e, isMarshalEvent e && negb (isReport e) = true) probes /\
       (AutoDetectOptions c = false -> probes = [] /\ options = NilOptions) /\
       (jsonSame c buf1 buf2 && errorsSame c err1 err2 = false ->
        AutoDetectOptions c = true ->
        autoDetectOptions (S := unit)
          (λ os, ret (marshalAgrees c v buf1 err1 (heap w) os))
          (rangeOrder orc) o tt = Some (options, tt) /\
        MarshalOptionHistogram (metrics w5)
          = addOptions (MarshalOptionHistogram (metrics w))
                       (optionNames options))) ->
    wp (if (mode =? CallBothButReturnV1) || (mode =? CallV2ButUponErrorReturnV1)
        then bind (Add NumMarshalReturnV1 1) (λ _, ret (buf1, err1))
        else bind (Add NumMarshalReturnV2 1) (λ _, ret (buf2, err2)))
       (λ r w',
          r = (if returnsV1 mode then (buf1, err1) else (buf2, err2)) /\
          MarshalTailPost c orc v o mode buf1 err1 buf2 err2 dur1 dur2 w w')
       w5).
  { intros w5 Hk Hd Hc Ho Hl.
    change ((mode =? CallBothButReturnV1)
            || (mode =? CallV2ButUponErrorReturnV1)) with (returnsV1 mode).
    assert (Hk3 : forall k, ints (metrics w3) k
              = ints_Add (ints_Add (ints_Add (ints (metrics w))
                  NumMarshalCallBoth 1) ExecTimeMarshalV1Nanos dur1)
                  ExecTimeMarshalV2Nanos dur2 k) by reflexivity.
    destruct (returnsV1 mode) eqn:Hret;
      apply wp_bind, wp_Add; cbv beta; apply wp_ret;
      (split; [reflexivity|]);
      (split; rewrite ?Hret; world_simpl;
       [rewrite ?ints_Add_eq, ?ints_Add_ne by discriminate;
        rewrite ?Hk by discriminate; rewrite ?Hk3;
        repeat first [rewrite ints_Add_eq
                     |rewrite ints_Add_ne by discriminate];
        reflexivity..
       |rewrite ints_Add_ne by discriminate; exact Hd
       |intros k Hnot; rewrite !elem_of_cons, elem_of_nil in Hnot;
        rewrite ints_Add_ne by (intros ->; tauto);
        rewrite Hk by (intros ->; tauto); rewrite Hk3;
        rewrite !ints_Add_ne by (intros ->; tauto); reflexivity
       |exact Hc|exact Ho|exact Hl]). }
  destruct (jsonSame c buf1 buf2) eqn:Hj; cbn [andb] in *.
  - apply wp_bind, wp_errorsEqual_exact. cbv beta.
    destruct (errorsSame c err1 err2) eqn:He; cbn [negb when].
    + apply wp_bind, wp_ret. cbv beta. apply Hselect.
      * reflexivity.
      * reflexivity.
      * reflexivity.
      * reflexivity.
      * exists [], NilOptions.
        split; [|split; [constructor|split; [auto|discriminate]]].
        unfold marshalCheckLog. rewrite Hj, He. cbn [andb].
        subst w4 w3. world_simpl. rewrite <- ?app_assoc. reflexivity.
    + apply wp_bind.
      eapply wp_mono; [apply MarshalDiffBlock_run|].
      intros [] w6
        (Hk & Hd & Hc & Ho & probes & options & Hl & Hp & Hoff & Hon).
      cbv beta. apply Hselect.
      * intros k Hne. rewrite Hk by exact Hne. reflexivity.
      * rewrite Hd. reflexivity.
      * rewrite Hc. reflexivity.
      * intros [Hf|Hauto]; [discriminate Hf|]. rewrite (Ho Hauto). reflexivity.
      * exists probes, options.
        split; [|split; [exact Hp|split; [exact Hoff|]]].
        -- rewrite Hl. unfold marshalCheckLog. rewrite Hj, He. cbn [andb].
           subst w4 w3. world_simpl. rewrite <- ?app_assoc. reflexivity.
        -- intros _ Hauto. exact (Hon Hauto).
  - apply wp_bind, wp_ret. cbv beta. cbn [negb when].
    apply wp_bind.
    eapply wp_mono; [apply MarshalDiffBlock_run|].
    intros [] w6
      (Hk & Hd & Hc & Ho & probes & options & Hl & Hp & Hoff & Hon).
    cbv beta. apply Hselect.
    + intros k Hne. rewrite Hk by exact Hne. reflexivity.
    + rewrite Hd. reflexivity.
    + rewrite Hc. reflexivity.
    + intros [Hf|Hauto]; [discriminate Hf|]. rewrite (Ho Hauto). reflexivity.
    + exists probes, options.
      split; [|split; [exact Hp|split; [exact Hoff|]]].
      * rewrite Hl. unfold marshalCheckLog. rewrite Hj. cbn [andb].
        subst w4 w3. world_simpl. rewrite <- ?app_assoc. reflexivity.
      * intros _ Hauto. exact (Hon Hauto).
Qed.
Lemma set_calls_twice (w : World) (a b : Event) :
  set_calls ((calls w ++ [a]) ++ [b]) (set_calls (calls w ++ [a]) w)
  = set_calls (calls w ++ [a; b]) w.
Proof. unfold set_calls. cbn. rewrite <- app_assoc. reflexivity. Qed.

Lemma MarshalBody_dual c orc v o w mode :
  loadRandomMode (marshalCallRatio w) (rand_Float32 orc) = mode ->
  marshalRunsBoth mode (v1MarshalRun v o (heap w)).2
                       (jsonv2_Marshal v o (heap w)).2 = true ->
  wp (MarshalBody c orc v o)
     (λ r w',
        r = (if returnsV1 mode then v1MarshalRun v o (heap w)
             else jsonv2_Marshal v o (heap w)) /\
        MarshalTailPost c orc v o mode
          (v1MarshalRun v o (heap w)).1 (v1MarshalRun v o (heap w)).2
          (jsonv2_Marshal v o (heap w)).1 (jsonv2_Marshal v o (heap w)).2
          (elapsed_v1 orc) (elapsed_v2 orc)
          (set_calls (calls w ++ marshalEngineCalls mode v o) w) w') w.
Proof.
  intros Hmode Hboth. unfold MarshalBody. apply wp_bind, wp_gets.
  rewrite Hmode. clear Hmode.
  destruct (v1MarshalRun v o (heap w)) as [buf1 err1] eqn:Hr1.
  destruct (jsonv2_Marshal v o (heap w)) as [buf2 err2] eqn:Hr2.
  cbn [fst snd] in *. unfold marshalRunsBoth in Hboth.
  assert (Hcases :
    mode = CallBothButReturnV1 \/ mode = CallBothButReturnV2 \/
    (mode = CallV1ButUponErrorReturnV2 /\ isErr err1 = true) \/
    (mode = CallV2ButUponErrorReturnV1 /\ isErr err2 = true)).
  { destruct (mode =? CallBothButReturnV1) eqn:E1;
      [apply Z.eqb_eq in E1; auto|].
    destruct (mode =? CallBothButReturnV2) eqn:E2;
      [apply Z.eqb_eq in E2; auto|].
    destruct (mode =? CallV1ButUponErrorReturnV2) eqn:E3;
      [apply Z.eqb_eq in E3; destruct (isErr err1); [auto|]|];
    (destruct (mode =? CallV2ButUponErrorReturnV1) eqn:E4;
      [apply Z.eqb_eq in E4; destruct (isErr err2); [auto 6|]|]);
    discriminate Hboth. }
  clear Hboth.
  destruct Hcases as [->|[->|[[-> He]|[-> He]]]]; mode_tests.
  - wp_to_tail. world_simpl. rewrite Hr1. cbv beta iota.
    wp_to_tail. world_simpl. rewrite Hr2. cbv beta iota.
    wp_to_tail. rewrite set_calls_twice.
    eapply wp_mono;
      [apply (MarshalTail_run c orc v o CallBothButReturnV1
                buf1 err1 buf2 err2 (elapsed_v1 orc) (elapsed_v2 orc))|].
    intros r w' [Hr Hpost]. cbv beta. split; [exact Hr|exact Hpost].
  - wp_to_tail. world_simpl. rewrite Hr1. cbv beta iota.
    wp_to_tail. world_simpl. rewrite Hr2. cbv beta iota.
    wp_to_tail. rewrite set_calls_twice.
    eapply wp_mono;
      [apply (MarshalTail_run c orc v o CallBothButReturnV2
                buf1 err1 buf2 err2 (elapsed_v1 orc) (elapsed_v2 orc))|].
    intros r w' [Hr Hpost]. cbv beta. split; [exact Hr|exact Hpost].
  - wp_to_tail. world_simpl. rewrite Hr1. cbv beta iota.
    rewrite He. cbn [negb].
    wp_to_tail. world_simpl. rewrite Hr2. cbv beta iota.
    wp_to_tail. rewrite set_calls_twice.
    eapply wp_mono;
      [apply (MarshalTail_run c orc v o CallV1ButUponErrorReturnV2
                buf1 err1 buf2 err2 (elapsed_v1 orc) (elapsed_v2 orc))|].
    intros r w' [Hr Hpost]. cbv beta. split; [exact Hr|exact Hpost].
  - wp_to_tail. world_simpl. rewrite Hr2. cbv beta iota.
    rewrite He. cbn [negb].
    wp_to_tail. world_simpl. rewrite Hr1. cbv beta iota.
    wp_to_tail. rewrite set_calls_twice.
    eapply wp_mono;
      [apply (MarshalTail_run c orc v o CallV2ButUponErrorReturnV1
                buf1 err1 buf2 err2 (elapsed_v1 orc) (elapsed_v2 orc))|].
    intros r w' [Hr Hpost]. cbv beta. split; [exact Hr|exact Hpost].
Qed.
Lemma marshalRunsBoth_valid mode err1 err2 :
  marshalRunsBoth mode err1 err2 = true -> mode ∈ callModes.
Proof.
  unfold marshalRunsBoth. intros Hboth. apply callModes_range.
  destruct (Z.eqb_spec mode CallBothButReturnV1) as [->|];
    [unfold CallBothButReturnV1; lia|].
  destruct (Z.eqb_spec mode CallBothButReturnV2) as [->|];
    [unfold CallBothButReturnV2; lia|].
  destruct (Z.eqb_spec mode CallV1ButUponErrorReturnV2) as [->|];
    [unfold CallV1ButUponErrorReturnV2; lia|].
  destruct (Z.eqb_spec mode CallV2ButUponErrorReturnV1) as [->|];
    [unfold CallV2ButUponErrorReturnV1; lia|].
  discriminate Hboth.
Qed.

Lemma Marshal_dual_run c orc v o w mode :
  SizeHistogram_wf (MarshalSizeHistogram (metrics w)) ->
  loadRandomMode (marshalCallRatio w) (rand_Float32 orc) = mode ->
  marshalRunsBoth mode (v1MarshalRun v o (heap w)).2
                       (jsonv2_Marshal v o (heap w)).2 = true ->
  exists w1 w',
    Marshal c orc v o w
    = Some ((if returnsV1 mode then v1MarshalRun v o (heap w)
             else jsonv2_Marshal v o (heap w)), w') /\
    MarshalTailPost c orc v o mode
      (v1MarshalRun v o (heap w)).1 (v1MarshalRun v o (heap w)).2
      (jsonv2_Marshal v o (heap w)).1 (jsonv2_Marshal v o (heap w)).2
      (elapsed_v1 orc) (elapsed_v2 orc)
      (set_calls (calls w ++ marshalEngineCalls mode v o)
         (set_metrics (set_ints (ints_Add (ints (metrics w)) NumMarshalTotal 1)
                                (metrics w)) w))
      w1 /\
    calls w' = calls w1 /\
    (forall k, k <> NumMarshalErrors ->
       ints (metrics w') k = ints (metrics w1) k) /\
    MarshalCallerHistogram (metrics w') = MarshalCallerHistogram (metrics w1) /\
    MarshalOptionHistogram (metrics w') = MarshalOptionHistogram (metrics w1).
Proof.
  intros Hwf Hmode Hboth.
  set (w0 := set_metrics (set_ints (ints_Add (ints (metrics w))
                            NumMarshalTotal 1) (metrics w)) w).
  set (res := if returnsV1 mode then v1MarshalRun v o (heap w)
              else jsonv2_Marshal v o (heap w)).
  cut (wp (Marshal c orc v o)
          (λ r w', r = res /\ exists w1,
             MarshalTailPost c orc v o mode
               (v1MarshalRun v o (heap w)).1 (v1MarshalRun v o (heap w)).2
               (jsonv2_Marshal v o (heap w)).1 (jsonv2_Marshal v o (heap w)).2
               (elapsed_v1 orc) (elapsed_v2 orc)
               (set_calls (calls w ++ marshalEngineCalls mode v o) w0) w1 /\
             calls w' = calls w1 /\
             (forall k, k <> NumMarshalErrors ->
                ints (metrics w') k = ints (metrics w1) k) /\
             MarshalCallerHistogram (metrics w')
               = MarshalCallerHistogram (metrics w1) /\
             MarshalOptionHistogram (metrics w')
               = MarshalOptionHistogram (metrics w1)) w).
  { intros Hwp. apply wp_Some in Hwp as (r & w' & Hrun & -> & w1 & Hrest).
    exists w1, w'. split; [exact Hrun|exact Hrest]. }
  apply wp_Marshal; [exact Hwf|]. fold w0.
  eapply wp_mono;
    [apply wp_conj;
       [apply (MarshalBody_stays c orc v o w0);
        change (loadRandomMode (marshalCallRatio w) (rand_Float32 orc)
                ∈ callModes);
        rewrite Hmode; exact (marshalRunsBoth_valid _ _ _ Hboth)
       |apply (MarshalBody_dual c orc v o w0 mode); [exact Hmode|exact Hboth]]|].
  intros r w1 [Hw1 [Hr Hpost]]. cbv beta. split.
  - rewrite (within_sizes _ _ _ Hw1 DirMarshal eq_refl). reflexivity.
  - intros h Hins Hh w2. split; [exact Hr|]. exists w1.
    split; [exact Hpost|].
    destruct (isErr r.2); subst w2; world_simpl;
      (split; [reflexivity|]);
      (split; [intros k Hne; rewrite ?ints_Add_ne by exact Hne;
               reflexivity|]);
      split; reflexivity.
Qed.
(** X15.  When [Codec.Marshal] runs both engines (in the two call-both
    modes always, in an upon-error mode when the engine tried first
    fails), it calls each engine exactly once before anything else, the
    preferred engine of an upon-error mode first and v1 first otherwise,
    then compares the two outputs; it returns, unchanged, the result of
    the engine the mode names, counts the call in [NumMarshalCallBoth]
    and in the matching return counter only, and adds the two measured
    durations to the execution-time counters. *)
Theorem Marshal_dual_result c orc v o w mode :
  SizeHistogram_wf (MarshalSizeHistogram (metrics w)) ->
  loadRandomMode (marshalCallRatio w) (rand_Float32 orc) = mode ->
  let r1 := v1MarshalRun v o (heap w) in
  let r2 := jsonv2_Marshal v o (heap w) in
  marshalRunsBoth mode r1.2 r2.2 = true ->
  exists w' rest,
    Marshal c orc v o w = Some ((if returnsV1 mode then r1 else r2), w') /\
    calls w' = calls w ++ marshalEngineCalls mode v o
               ++ CallJsonEqual r1.1 r2.1 :: rest /\
    ints (metrics w') NumMarshalCallBoth
      = int64_add (ints (metrics w) NumMarshalCallBoth) 1 /\
    ints (metrics w') NumMarshalOnlyCallV1
      = ints (metrics w) NumMarshalOnlyCallV1 /\
    ints (metrics w') NumMarshalOnlyCallV2
      = ints (metrics w) NumMarshalOnlyCallV2 /\
    ints (metrics w') NumMarshalReturnV1
      = (if returnsV1 mode
         then int64_add (ints (metrics w) NumMarshalReturnV1) 1
         else ints (metrics w) NumMarshalReturnV1) /\
    ints (metrics w') NumMarshalReturnV2
      = (if returnsV1 mode
         then ints (metrics w) NumMarshalReturnV2
         else int64_add (ints (metrics w) NumMarshalReturnV2) 1) /\
    ints (metrics w') ExecTimeMarshalV1Nanos
      = int64_add (ints (metrics w) ExecTimeMarshalV1Nanos) (elapsed_v1 orc) /\
    ints (metrics w') ExecTimeMarshalV2Nanos
      = int64_add (ints (metrics w) ExecTimeMarshalV2Nanos) (elapsed_v2 orc).
Proof.
  intros Hwf Hmode r1 r2 Hboth.
  destruct (Marshal_dual_run c orc v o w mode Hwf Hmode Hboth)
    as (w1 & w' & Hrun & Hpost & Hcalls & Hk & _ & _).
  destruct Hpost
    as [P1 P2 P3 P4 P5 _ P7 _ _ (probes & options & Hl & _ & _ & _)].
  exists w'. eexists. split; [exact Hrun|].
  split.
  { rewrite Hcalls, Hl. unfold marshalCheckLog. world_simpl.
    rewrite <- app_assoc. reflexivity. }
  world_simpl. rewrite !Hk by discriminate.
  rewrite P1, P2, P3, P4, P5.
  rewrite !P7 by (rewrite !elem_of_cons, elem_of_nil;
                  intros [?|[?|[?|[?|[?|[?|[]]]]]]]; discriminate).
  world_simpl. rewrite !ints_Add_ne by discriminate.
  repeat split; reflexivity.
Qed.

(** X16.  When [Codec.Marshal] runs both engines, it counts a difference,
    and attributes it to the caller, exactly when the two outputs differ
    (by [EqualJSONValues], or byte-wise without it) or, the outputs being
    equal, the errors differ (by [EqualErrors], or in being nil without
    it); the errors are compared only when the outputs are equal.  On a
    difference and with a sink registered it reports exactly once, after
    all other calls, with the caller, the value, the two outputs and the
    two errors; without a difference, or without a sink, it reports
    nothing.  Without option detection nothing is probed and the report
    carries nil options. *)
Theorem Marshal_reports_difference c orc v o w mode :
  SizeHistogram_wf (MarshalSizeHistogram (metrics w)) ->
  loadRandomMode (marshalCallRatio w) (rand_Float32 orc) = mode ->
  let r1 := v1MarshalRun v o (heap w) in
  let r2 := jsonv2_Marshal v o (heap w) in
  let same := jsonSame c r1.1 r2.1 && errorsSame c r1.2 r2.2 in
  marshalRunsBoth mode r1.2 r2.2 = true ->
  exists r w' probes options,
    Marshal c orc v o w = Some (r, w') /\
    ints (metrics w') NumMarshalDiffs
      = (if same then ints (metrics w) NumMarshalDiffs
         else int64_add (ints (metrics w) NumMarshalDiffs) 1) /\
    MarshalCallerHistogram (metrics w')
      = (if same then MarshalCallerHistogram (metrics w)
         else expvarMap_Add (MarshalCallerHistogram (metrics w))
                            (runtime_caller orc) 1) /\
    calls w' = calls w ++ marshalEngineCalls mode v o
               ++ marshalCheckLog c orc v r1.1 r1.2 r2.1 r2.2 probes options /\
    Forall (λ e, isMarshalEvent e && negb (isReport e) = true) probes /\
    (AutoDetectOptions c = false -> probes = [] /\ options = NilOptions) /\
    (same = true \/ AutoDetectOptions c = false ->
     MarshalOptionHistogram (metrics w') = MarshalOptionHistogram (metrics w)).
Proof.
  intros Hwf Hmode r1 r2 same Hboth.
  destruct (Marshal_dual_run c orc v o w mode Hwf Hmode Hboth)
    as (w1 & w' & Hrun & Hpost & Hcalls & Hk & Hch & Hoh).
  destruct Hpost
    as [_ _ _ _ _ P6 _ P8 P9 (probes & options & Hl & Hp & Hoff & _)].
  eexists _, w', probes, options. split; [exact Hrun|].
  split; [|split; [|split; [|split; [|split]]]].
  - rewrite Hk by discriminate. rewrite P6. world_simpl.
    rewrite !ints_Add_ne by discriminate. reflexivity.
  - rewrite Hch, P8. reflexivity.
  - rewrite Hcalls, Hl. world_simpl. rewrite <- app_assoc. reflexivity.
  - exact Hp.
  - exact Hoff.
  - intros Hs. rewrite Hoh. exact (P9 Hs).
Qed.

(** What [autoDetectOptions] returns for a test without effects, read
    off its run. *)
Lemma autoDetectOptions_detected (P : list Options → bool) order o r :
  order ≡ₚ defaultOptionsV1 ->
  autoDetectOptions (S := unit) (λ os, ret (P os)) order o tt = Some (r, tt) ->
  let optsCall := JoinOptions o in
  let optsV1 := JoinOptions [DefaultOptionsV1; optsCall] in
  (P [optsV1] = false -> r = NilOptions) /\
  (P [optsV1] = true ->
   exists m, r = OptionsStruct m /\
     forall name,
       m !! name =
       if bool_decide (name ∈ defaultOptionsV1)
          && negb (GetOption optsCall name).2
          && negb (P [optsV1; applySetter name false])
       then Some true else None).
Proof.
  intros Hperm Hrun optsCall optsV1.
  rewrite autoDetectOptions_pure in Hrun. fold optsCall optsV1 in Hrun.
  destruct (P [optsV1]) eqn:HP.
  - rewrite autoDetectLoop_pure in Hrun. inversion Hrun as [Hr]. clear Hrun.
    split; [discriminate|]. intros _.
    eexists. split; [reflexivity|]. intros name.
    rewrite foldl_setters_lookup, lookup_empty.
    rewrite <- andb_assoc. fold (necessary P optsCall optsV1 name).
    destruct (bool_decide_reflect (name ∈ defaultOptionsV1)) as [Hin|Hnin];
      cbn [andb].
    + destruct (necessary P optsCall optsV1 name) eqn:Hn.
      * rewrite bool_decide_eq_true_2; [reflexivity|].
        apply list_elem_of_filter. split; [exact Hn|].
        rewrite Hperm. exact Hin.
      * rewrite bool_decide_eq_false_2; [reflexivity|].
        rewrite list_elem_of_filter. intros [Hn' _]. congruence.
    + rewrite bool_decide_eq_false_2; [reflexivity|].
      rewrite list_elem_of_filter, Hperm. tauto.
  - inversion Hrun. split; [reflexivity|discriminate].
Qed.

(** X22.  When [Codec.Marshal] runs both engines, finds a difference and
    detects options: the test it hands to [autoDetectOptions] marshals the
    same value with v2 under the candidate options and compares with the
    output and the error of v1 (not of v2).  If v2 under the v1 defaults
    and the caller's options does not reproduce v1, nil options are
    detected; otherwise exactly those options of [defaultOptionsV1] that
    the caller did not set and whose switching off alone makes v2 differ
    from v1.  Each detected option is counted once in
    [MarshalOptionHistogram], and the report, if any, carries the detected
    options. *)
Theorem Marshal_detects_options c orc v o w mode :
  SizeHistogram_wf (MarshalSizeHistogram (metrics w)) ->
  loadRandomMode (marshalCallRatio w) (rand_Float32 orc) = mode ->
  rangeOrder orc ≡ₚ defaultOptionsV1 ->
  AutoDetectOptions c = true ->
  let r1 := v1MarshalRun v o (heap w) in
  let r2 := jsonv2_Marshal v o (heap w) in
  let agrees := marshalAgrees c v r1.1 r1.2 (heap w) in
  let optsCall := JoinOptions o in
  let optsV1 := JoinOptions [DefaultOptionsV1; optsCall] in
  marshalRunsBoth mode r1.2 r2.2 = true ->
  jsonSame c r1.1 r2.1 && errorsSame c r1.2 r2.2 = false ->
  exists r w' probes options,
    Marshal c orc v o w = Some (r, w') /\
    (agrees [optsV1] = false -> options = NilOptions) /\
    (agrees [optsV1] = true ->
     exists m, options = OptionsStruct m /\
       forall name,
         m !! name =
         if bool_decide (name ∈ defaultOptionsV1)
            && negb (GetOption optsCall name).2
            && negb (agrees [optsV1; applySetter name false])
         then Some true else None) /\
    MarshalOptionHistogram (metrics w')
      = addOptions (MarshalOptionHistogram (metrics w))
                   (optionNames options) /\
    calls w' = calls w ++ marshalEngineCalls mode v o
               ++ marshalCheckLog c orc v r1.1 r1.2 r2.1 r2.2 probes options /\
    Forall (λ e, isMarshalEvent e && negb (isReport e) = true) probes.
Proof.
  intros Hwf Hmode Hperm Hauto r1 r2 agrees optsCall optsV1 Hboth Hdiff.
  destruct (Marshal_dual_run c orc v o w mode Hwf Hmode Hboth)
    as (w1 & w' & Hrun & Hpost & Hcalls & _ & _ & Hoh).
  destruct Hpost
    as [_ _ _ _ _ _ _ _ _ (probes & options & Hl & Hp & _ & Hon)].
  destruct (Hon Hdiff Hauto) as [Hdet Hhist].
  destruct (autoDetectOptions_detected _ _ _ _ Hperm Hdet) as [Hnil Hsome].
  eexists _, w', probes, options. split; [exact Hrun|].
  split; [exact Hnil|]. split; [exact Hsome|].
  split; [rewrite Hoh; exact Hhist|].
  split; [|exact Hp].
  rewrite Hcalls, Hl. world_simpl. rewrite <- app_assoc. reflexivity.
Qed.
End MarshalDual.

(** ** The call-both modes of Unmarshal *)

Section UnmarshalBoth.
Context `{GoValues} `{!Engines} `{V1Defaults}.

End UnmarshalBoth.

(** ** The upon-error modes when the first engine succeeds *)

Section UponErrorSuccess.
Context `{GoValues} `{!Engines} `{V1Defaults}.

Ltac no_difference :=
  unfold noDifference; world_simpl;
  repeat split;
  first [ reflexivity | apply v1UnmarshalCall_engine
        | apply v1MarshalCall_engine
        | ints_calc; reflexivity
        | match goal with d : Direction |- _ => destruct d; reflexivity end ].

(** X18.  In an upon-error mode, when the engine tried first returns no
    error, [Codec.Marshal] does not call the other engine: that one call
    is the only call it makes, it returns the engine's output with a nil
    error, counts the call as an only-call of that engine, not in
    [NumMarshalCallBoth], and compares and reports nothing. *)
Theorem Marshal_upon_error_first_succeeds c orc v o w (v1first : bool) :
  SizeHistogram_wf (MarshalSizeHistogram (metrics w)) ->
  loadRandomMode (marshalCallRatio w) (rand_Float32 orc)
    = (if v1first then CallV1ButUponErrorReturnV2
       else CallV2ButUponErrorReturnV1) ->
  let first := if v1first then v1MarshalRun v o (heap w)
               else jsonv2_Marshal v o (heap w) in
  let call := if v1first then v1MarshalCall v o else CallV2Marshal v o in
  let only := if v1first then NumMarshalOnlyCallV1
              else NumMarshalOnlyCallV2 in
  isErr first.2 = false ->
  exists w',
    Marshal c orc v o w = Some ((first.1, None), w') /\
    heap w' = heap w /\
    noDifference w w' call /\
    ints (metrics w') only = int64_add (ints (metrics w) only) 1 /\
    ints (metrics w') NumMarshalCallBoth
      = ints (metrics w) NumMarshalCallBoth.
Proof.
  intros Hwf Hmode first call only Herr. subst first call only.
  apply wp_Some_eq. unfold Marshal. wp_steps. unfold MarshalBody.
  wp_steps. world_simpl. rewrite Hmode.
  destruct v1first; mode_tests; wp_steps; world_simpl;
    match goal with
    | |- context [v1MarshalRun v o (heap w)] =>
        destruct (v1MarshalRun v o (heap w)) as [buf err]
    | |- context [jsonv2_Marshal v o (heap w)] =>
        destruct (jsonv2_Marshal v o (heap w)) as [buf err]
    end;
    cbn [fst snd] in *; cbv beta iota; rewrite Herr; cbn [negb];
    wp_steps;
    (apply wp_insertSize; [world_simpl; exact Hwf|]; intros h Hins Hh);
    wp_steps; cbn [isErr when]; wp_steps; world_simpl;
    (split; [reflexivity|]);
    (split; [reflexivity|]);
    (split; [no_difference|]);
    split; ints_calc; reflexivity.
Qed.
(** X19.  In an upon-error mode, [Codec.Unmarshal] clones the target
    before it runs any engine.  When the clone exists and the engine tried
    first returns no error, the other engine is not called: Unmarshal
    returns nil, the target is as that engine left it, the clone hook (if
    any) and that one engine are the only collaborators called, and the
    call is counted as an only-call of that engine, neither as skipped nor
    in [NumUnmarshalCallBoth]. *)
Theorem Unmarshal_upon_error_first_succeeds c orc b v o w (v1first : bool) :
  SizeHistogram_wf (UnmarshalSizeHistogram (metrics w)) ->
  loadRandomMode (unmarshalCallRatio w) (rand_Float32 orc)
    = (if v1first then CallV1ButUponErrorReturnV2
       else CallV2ButUponErrorReturnV1) ->
  let c1 := cloneRun c v (heap w) in
  let first := if v1first then v1UnmarshalRun b v o c1.2
               else jsonv2_Unmarshal b v o c1.2 in
  let call := if v1first then v1UnmarshalCall b v o
              else CallV2Unmarshal b v o in
  let only := if v1first then NumUnmarshalOnlyCallV1
              else NumUnmarshalOnlyCallV2 in
  notNil c1.1 = true ->
  isErr first.1 = false ->
  exists w',
    Unmarshal c orc b v o w = Some (None, w') /\
    heap w' = first.2 /\
    calls w' = calls w ++ hookCalls c v ++ [call] /\
    ints (metrics w') only = int64_add (ints (metrics w) only) 1 /\
    ints (metrics w') NumUnmarshalCallBoth
      = ints (metrics w) NumUnmarshalCallBoth /\
    ints (metrics w') NumUnmarshalCallBothSkipped
      = ints (metrics w) NumUnmarshalCallBothSkipped /\
    ints (metrics w') NumUnmarshalDiffs
      = ints (metrics w) NumUnmarshalDiffs /\
    ints (metrics w') NumUnmarshalErrors
      = ints (metrics w) NumUnmarshalErrors.
Proof.
  intros Hwf Hmode c1 first call only Hnn Herr. subst first call only c1.
  apply wp_Some_eq. unfold Unmarshal. wp_steps.
  apply wp_insertSize; [world_simpl; exact Hwf|]. intros h Hins Hh.
  wp_steps.
  apply wp_when; [intros _; wp_step|intros _];
    (wp_step; unfold UnmarshalBody; wp_steps; world_simpl; rewrite Hmode;
     destruct v1first; mode_tests; wp_steps; world_simpl;
     rewrite Hnn; cbn [negb]; wp_step; unfold UnmarshalDual; mode_tests;
     wp_steps; world_simpl; rewrite Herr; cbn [negb]; wp_steps;
     cbn [isErr when]; wp_steps; world_simpl;
     (split; [reflexivity|]);
     (split; [reflexivity|]);
     (split; [rewrite <- app_assoc; reflexivity|]);
     repeat split; ints_calc; reflexivity).
Qed.
End UponErrorSuccess.

(** ** More runs of the example collaborators *)

Lemma v1UponError_valid : CallV1ButUponErrorReturnV2 ∈ callModes.
Proof. apply callModes_range. unfold CallV1ButUponErrorReturnV2. lia. Qed.

Lemma v2UponError_valid : CallV2ButUponErrorReturnV1 ∈ callModes.
Proof. apply callModes_range. unfold CallV2ButUponErrorReturnV1. lia. Qed.

Lemma Marshal_dual_result_witness :
  exists w' rest,
    Marshal (H0 := exampleEngines) (H1 := exampleV1Defaults)
      (exampleCodec None) exampleOracle target0 []
      (worldWith CallBothButReturnV1 0)
    = Some (("1"%string, None), w') /\
    calls w' = [CallV1stdMarshal target0; CallV2Marshal target0 [];
                CallJsonEqual "1" "2"] ++ rest.
Proof.
  destruct (Marshal_dual_result (H0 := exampleEngines)
              (H1 := exampleV1Defaults)
              (exampleCodec None) exampleOracle target0 []
              (worldWith CallBothButReturnV1 0) CallBothButReturnV1
              (proj1 (worldWith_wf CallBothButReturnV1 0))
              (proj1 (worldWith_mode CallBothButReturnV1 0 bothV1_valid))
              eq_refl)
    as (w' & rest & Hrun & Hcalls & _).
  exists w', rest. split; [exact Hrun|exact Hcalls].
Defined.

Lemma Marshal_reports_difference_witness :
  exists r w',
    Marshal (H0 := exampleEngines) (H1 := exampleV1Defaults)
      (exampleCodec None) exampleOracle target0 []
      (worldWith CallBothButReturnV1 0)
    = Some (r, w') /\
    ints (metrics w') NumMarshalDiffs = 1 /\
    calls w' =
      [CallV1stdMarshal target0; CallV2Marshal target0 [];
       CallJsonEqual "1" "2";
       CallReportDifference
         (marshalDifference exampleOracle target0 "1" None "2" None
                            NilOptions)].
Proof.
  destruct (Marshal_reports_difference (H0 := exampleEngines)
              (H1 := exampleV1Defaults)
              (exampleCodec None) exampleOracle target0 []
              (worldWith CallBothButReturnV1 0) CallBothButReturnV1
              (proj1 (worldWith_wf CallBothButReturnV1 0))
              (proj1 (worldWith_mode CallBothButReturnV1 0 bothV1_valid))
              eq_refl)
    as (r & w' & probes & options & Hrun & Hdiffs & _ & Hcalls & _ & Hoff & _).
  destruct (Hoff eq_refl) as [-> ->].
  exists r, w'. split; [exact Hrun|]. split; [exact Hdiffs|exact Hcalls].
Defined.



Lemma Marshal_upon_error_first_succeeds_witness :
  exists w',
    Marshal (H0 := exampleEngines) (H1 := exampleV1Defaults)
      (exampleCodec None) exampleOracle target0 []
      (worldWith CallV1ButUponErrorReturnV2 0)
    = Some (("1"%string, None), w') /\
    calls w' = [CallV1stdMarshal target0].
Proof.
  destruct (Marshal_upon_error_first_succeeds (H0 := exampleEngines)
              (H1 := exampleV1Defaults)
              (exampleCodec None) exampleOracle target0 []
              (worldWith CallV1ButUponErrorReturnV2 0) true
              (proj1 (worldWith_wf CallV1ButUponErrorReturnV2 0))
              (proj1 (worldWith_mode CallV1ButUponErrorReturnV2 0
                        v1UponError_valid))
              eq_refl)
    as (w' & Hrun & _ & (Hcalls & _) & _).
  exists w'. split; [exact Hrun|exact Hcalls].
Defined.

Lemma Unmarshal_upon_error_first_succeeds_witness :
  exists w',
    Unmarshal (H0 := exampleEngines) (H1 := exampleV1Defaults)
      (exampleCodec None) exampleOracle "1" target0 []
      (worldWith CallV2ButUponErrorReturnV1 0)
    = Some (None, w') /\
    calls w' = [CallV2Unmarshal "1" target0 []].
Proof.
  destruct (Unmarshal_upon_error_first_succeeds (H0 := exampleEngines)
              (H1 := exampleV1Defaults)
              (exampleCodec None) exampleOracle "1" target0 []
              (worldWith CallV2ButUponErrorReturnV1 0) false
              (proj2 (worldWith_wf CallV2ButUponErrorReturnV1 0))
              (proj2 (worldWith_mode CallV2ButUponErrorReturnV1 0
                        v2UponError_valid))
              eq_refl eq_refl)
    as (w' & Hrun & _ & Hcalls & _).
  exists w'. split; [exact Hrun|exact Hcalls].
Defined.

(** ** Fixing the mode *)

Lemma one_in_unit : f32_in_unit f32_one.
Proof.
  exists scaled_one. split; [vm_compute; reflexivity|].
  vm_compute. split; discriminate.
Qed.

Lemma f32_one_wf : float32_wf f32_one.
Proof. unfold float32_wf, f32_one. lia. Qed.

Lemma loadRandomMode_same p mode ratio r :
  loadModeRatio p = (mode, mode, ratio) -> loadRandomMode p r = mode.
Proof.
  unfold loadRandomMode. intros ->.
  destruct (f32_lt ratio f32_one && f32_ge r ratio); reflexivity.
Qed.

Lemma storeMode_run p mode :
  (mode ∉ callModes -> storeModeRatio p mode mode f32_one = None) /\
  (mode ∈ callModes ->
   exists p', storeModeRatio p mode mode f32_one = Some p' /\
     loadModeRatio p' = (mode, mode, f32_one) /\
     forall r, loadRandomMode p' r = mode).
Proof.
  split.
  - intros Hout.
    destruct (storeModeRatio p mode mode f32_one) as [p'|] eqn:Hs;
      [|reflexivity].
    apply storeModeRatio_Some in Hs as (Hin & _). contradiction.
  - intros Hin. exists (Store p (packModeRatio mode mode f32_one)).
    assert (Hl : loadModeRatio (Store p (packModeRatio mode mode f32_one))
                 = (mode, mode, f32_one))
      by (apply loadModeRatio_Store; [exact Hin|exact Hin|exact f32_one_wf]).
    split; [|split; [exact Hl|]].
    + apply storeModeRatio_Some.
      split; [exact Hin|]. split; [exact Hin|].
      split; [exact one_in_unit|reflexivity].
    + intros r. exact (loadRandomMode_same _ _ _ r Hl).
Qed.

Section ModeSetting.
Context `{GoValues}.

(** X20.  [SetMarshalCallMode(mode)] panics when [mode] is none of the six
    declared modes.  Otherwise it returns, the word read back is
    (mode, mode, 1.0), and every later draw gives [mode], whatever
    [rand.Float32] returns (NaN included); the unmarshal word, the Go
    values, the metrics and the log of calls are as they were.
    [SetUnmarshalCallMode] does the same to the unmarshal word and leaves
    the marshal word alone. *)
Theorem SetCallMode_fixes_mode (mode : CallMode) (w : World) :
  (mode ∉ callModes ->
   SetMarshalCallMode mode w = None /\ SetUnmarshalCallMode mode w = None) /\
  (mode ∈ callModes ->
   (exists w', SetMarshalCallMode mode w = Some (tt, w') /\
      loadModeRatio (marshalCallRatio w') = (mode, mode, f32_one) /\
      (forall r, loadRandomMode (marshalCallRatio w') r = mode) /\
      unmarshalCallRatio w' = unmarshalCallRatio w /\
      heap w' = heap w /\ metrics w' = metrics w /\ calls w' = calls w) /\
   (exists w', SetUnmarshalCallMode mode w = Some (tt, w') /\
      loadModeRatio (unmarshalCallRatio w') = (mode, mode, f32_one) /\
      (forall r, loadRandomMode (unmarshalCallRatio w') r = mode) /\
      marshalCallRatio w' = marshalCallRatio w /\
      heap w' = heap w /\ metrics w' = metrics w /\ calls w' = calls w)).
Proof.
  unfold SetMarshalCallMode, SetUnmarshalCallMode. split.
  - intros Hout.
    rewrite (proj1 (storeMode_run (marshalCallRatio w) mode) Hout).
    rewrite (proj1 (storeMode_run (unmarshalCallRatio w) mode) Hout).
    split; reflexivity.
  - intros Hin. split.
    + destruct (proj2 (storeMode_run (marshalCallRatio w) mode) Hin)
        as (p' & -> & Hl & Hr).
      eexists. split; [reflexivity|].
      destruct w; cbn. repeat split; assumption.
    + destruct (proj2 (storeMode_run (unmarshalCallRatio w) mode) Hin)
        as (p' & -> & Hl & Hr).
      eexists. split; [reflexivity|].
      destruct w; cbn. repeat split; assumption.
Qed.

End ModeSetting.

Lemma loadRandomMode_zero r : loadRandomMode zeroModeRatio r = OnlyCallV1.
Proof.
  apply (loadRandomMode_same _ _ f32_zero). vm_compute. reflexivity.
Qed.

Section ZeroValue.
Context `{Engines} `{!V1Defaults}.

(** X21.  The zero value of [Codec] is ready for use and only calls v1:
    with both ratio words still zero, whatever [rand.Float32] returns,
    [Codec.Marshal] returns what v1 returns and [Codec.Unmarshal] returns
    v1's error and leaves the Go values as v1 left them; that one v1 call
    is the only call made, and no difference is counted or attributed. *)
Theorem zero_value_only_calls_v1 c orc b v o w :
  marshalCallRatio w = zeroModeRatio ->
  unmarshalCallRatio w = zeroModeRatio ->
  SizeHistogram_wf (MarshalSizeHistogram (metrics w)) ->
  SizeHistogram_wf (UnmarshalSizeHistogram (metrics w)) ->
  (exists w',
     Marshal c orc v o w = Some (v1MarshalRun v o (heap w), w') /\
     heap w' = heap w /\
     noDifference w w' (v1MarshalCall v o)) /\
  (exists w',
     Unmarshal c orc b v o w = Some ((v1UnmarshalRun b v o (heap w)).1, w') /\
     heap w' = (v1UnmarshalRun b v o (heap w)).2 /\
     noDifference w w' (v1UnmarshalCall b v o)).
Proof.
  intros Hm Hu Hwm Hwu. split.
  - apply (proj1 (Marshal_only c orc v o w OnlyCallV1 Hwm
                    (eq_trans (f_equal (λ p, loadRandomMode p _) Hm)
                              (loadRandomMode_zero _))) eq_refl).
  - apply (proj1 (Unmarshal_only c orc b v o w OnlyCallV1 Hwu
                    (eq_trans (f_equal (λ p, loadRandomMode p _) Hu)
                              (loadRandomMode_zero _))) eq_refl).
Qed.

End ZeroValue.

Lemma zeroWorld_wf x :
  SizeHistogram_wf (MarshalSizeHistogram (metrics (zeroWorld x))) /\
  SizeHistogram_wf (UnmarshalSizeHistogram (metrics (zeroWorld x))).
Proof. split; reflexivity. Qed.

Lemma zero_value_only_calls_v1_witness :
  exists w',
    Marshal (H0 := exampleEngines) (H1 := exampleV1Defaults)
      (exampleCodec None) exampleOracle target0 [] (zeroWorld 0)
    = Some (("1"%string, None), w') /\
    calls w' = [CallV1stdMarshal target0].
Proof.
  destruct (zero_value_only_calls_v1 (H0 := exampleEngines)
              (H1 := exampleV1Defaults)
              (exampleCodec None) exampleOracle "1" target0 []
              (zeroWorld 0) eq_refl eq_refl
              (proj1 (zeroWorld_wf 0)) (proj2 (zeroWorld_wf 0)))
    as ((w' & Hrun & _ & Hcalls & _) & _).
  exists w'. split; [exact Hrun|exact Hcalls].
Defined.

Lemma Marshal_detects_options_witness :
  exists r w' m,
    Marshal (H0 := optionEngines) (H1 := exampleV1Defaults)
      detectingCodec exampleOracle target0 []
      (worldWith CallBothButReturnV1 0) = Some (r, w') /\
    m !! "jsontext.AllowInvalidUTF8"%string = Some true /\
    MarshalOptionHistogram (metrics w')
      = addOptions ∅ (optionNames (H := exampleV1Defaults) (OptionsStruct m)).
Proof.
  destruct (Marshal_detects_options (H0 := optionEngines)
              (H1 := exampleV1Defaults)
              detectingCodec exampleOracle target0 []
              (worldWith CallBothButReturnV1 0) CallBothButReturnV1
              (proj1 (worldWith_wf CallBothButReturnV1 0))
              (proj1 (worldWith_mode CallBothButReturnV1 0 bothV1_valid))
              (reflexivity _) eq_refl eq_refl eq_refl)
    as (r & w' & probes & options & Hrun & _ & Hsome & Hhist & _).
  destruct (Hsome ltac:(vm_compute; reflexivity)) as (m & -> & Hm).
  exists r, w', m. split; [exact Hrun|]. split; [|exact Hhist].
  rewrite Hm. vm_compute. reflexivity.
Defined.
